(** * Verification of the parallel kangaroo ECDLP solver

    A shallow embedding of [ecc_utils.cpp], [kangaroo_solver.cpp] and
    [checkpoint.cpp] and the properties of the specification that can be
    stated over it.

    Conventions of the embedding:
    - [BigInt] (a GMP [mpz_t]) is [Z]; every [bigint_*] wrapper is the
      documented meaning of the [mpz_*] call it makes.
    - [std::string] is [string]; its characters are reached through
      [chars] / [str].
    - the engine object is the record [KangarooSolver]; member functions
      take the object and return the updated object next to their result.
    - the wall clock and the random source are arguments. *)

From Stdlib Require Import ZArith List Ascii String Bool Lia DecimalString.
From stdpp Require Import base option list gmap strings.
Import ListNotations.

Local Open Scope Z_scope.

(** ** std::string *)

Module StdString.

Definition chars (s : string) : list ascii := list_ascii_of_string s.
Definition str (l : list ascii) : string := string_of_list_ascii l.

(** [s.length()] *)
Definition size (s : string) : nat := List.length (chars s).

(** [s.substr(pos)]; every call site guards [pos <= s.length()], so the
    [std::out_of_range] of a larger [pos] does not arise. *)
Definition substr_from (pos : nat) (s : string) : string :=
  str (drop pos (chars s)).

(** [s.substr(pos, len)], with the same guard at every call site. *)
Definition substr (pos len : nat) (s : string) : string :=
  str (take len (drop pos (chars s))).

(** [s.c_str()] read as a C string: the characters before the first NUL. *)
Fixpoint c_str (l : list ascii) : list ascii :=
  match l with
  | [] => []
  | c :: t => if Ascii.eqb c zero then [] else c :: c_str t
  end.

(** [isspace] in the C locale. *)
Definition isspace (c : ascii) : bool :=
  let n := nat_of_ascii c in
  (Nat.eqb n 32 || (Nat.leb 9 n && Nat.leb n 13))%bool.

(** [::toupper] in the C locale. *)
Definition toupper (c : ascii) : ascii :=
  let n := nat_of_ascii c in
  if (Nat.leb 97 n && Nat.leb n 122)%bool then ascii_of_nat (n - 32) else c.

(** Value of a character as a digit in bases up to 36 (GMP's digit table
    for bases <= 36, and the table of [strtol]). *)
Definition digit_value (c : ascii) : option Z :=
  let n := Z.of_nat (nat_of_ascii c) in
  if (48 <=? n) && (n <=? 57) then Some (n - 48)
  else if (65 <=? n) && (n <=? 90) then Some (n - 55)
  else if (97 <=? n) && (n <=? 122) then Some (n - 87)
  else None.

Definition hex_value (c : ascii) : option Z :=
  match digit_value c with
  | Some d => if d <? 16 then Some d else None
  | None => None
  end.

Definition is_hex (c : ascii) : bool :=
  match hex_value c with Some _ => true | None => false end.

(** Reads the longest prefix of hexadecimal digits of [s] into the
    accumulator; returns the value and the number of digits read. *)
Fixpoint read_hex (acc : Z) (cnt : nat) (s : list ascii) : Z * nat :=
  match s with
  | [] => (acc, cnt)
  | c :: t =>
      match hex_value c with
      | Some d => read_hex (16 * acc + d) (S cnt) t
      | None => (acc, cnt)
      end
  end.

Definition is_x (c : ascii) : bool :=
  (Ascii.eqb c "x" || Ascii.eqb c "X")%bool.

(** Skips leading white space. *)
Fixpoint skip_space (l : list ascii) : list ascii :=
  match l with
  | c :: t => if isspace c then skip_space t else l
  | [] => []
  end.

(** The subject sequence of [strtol(s, nullptr, 16)]: leading white space,
    an optional sign, an optional [0x] prefix, then hexadecimal digits.
    [None] when no conversion can be performed. *)
Definition strtol16 (s : list ascii) : option Z :=
  let s1 := skip_space s in
  let neg := match s1 with c :: _ => Ascii.eqb c "-" | [] => false end in
  let s2 := match s1 with
            | c :: t => if (Ascii.eqb c "-" || Ascii.eqb c "+")%bool then t else s1
            | [] => s1
            end in
  let s3 := match s2 with
            | z :: x :: h :: t =>
                if (Ascii.eqb z "0" && is_x x && is_hex h)%bool then h :: t else s2
            | _ => s2
            end in
  match read_hex 0 0 s3 with
  | (_, O) => None
  | (v, S _) => Some (if neg then - v else v)
  end.

End StdString.

Import StdString.

(** ** ecc_utils: big integers *)

Module Ecc.

(** [struct BigInt { mpz_t value; }] *)
Definition BigInt : Type := Z.

Definition bigint_zero : BigInt := 0.
Definition bigint_one : BigInt := 1.
Definition bigint_from_int (value : Z) : BigInt := value.
Definition bigint_from_uint64 (value : Z) : BigInt := value.
Definition bigint_add (a b : BigInt) : BigInt := a + b.
Definition bigint_subtract (a b : BigInt) : BigInt := a - b.
Definition bigint_multiply (a b : BigInt) : BigInt := a * b.

(** [mpz_mod]: the sign of the divisor is ignored and the result is never
    negative.  (A zero divisor aborts the process; no caller below passes
    one except [generate_random_in_range] on an empty range.) *)
Definition bigint_mod (a modulus : BigInt) : BigInt := a mod (Z.abs modulus).

(** Extended Euclid on [(r0, t0) (r1, t1)], keeping [t * a = r (mod m)]. *)
Fixpoint egcd (fuel : nat) (r0 t0 r1 t1 : Z) : Z * Z :=
  match fuel with
  | O => (r0, t0)
  | S f => if r1 =? 0 then (r0, t0)
           else egcd f r1 t1 (r0 mod r1) (t0 - (r0 / r1) * t1)
  end.

(** Halving and subtraction modulo an odd [m], on residues in [0, m). *)
Definition half_mod (m t : Z) : Z :=
  if Z.even t then Z.div2 t else Z.div2 (t + m).
Definition sub_mod (m s t : Z) : Z :=
  if s <? t then s - t + m else s - t.

(** Binary extended gcd for an odd modulus [m], keeping
    [x1 * a = u (mod m)] and [x2 * a = v (mod m)]. *)
Fixpoint binary_egcd (fuel : nat) (m u v x1 x2 : Z) : option Z :=
  match fuel with
  | O => None
  | S f =>
      if u =? 0 then (if v =? 1 then Some x2 else None)
      else if Z.even u then binary_egcd f m (Z.div2 u) v (half_mod m x1) x2
      else if Z.even v then binary_egcd f m u (Z.div2 v) x1 (half_mod m x2)
      else if v <=? u then binary_egcd f m (u - v) v (sub_mod m x1 x2) x2
      else binary_egcd f m u (v - u) x1 (sub_mod m x2 x1)
  end.

(** [mpz_invert]: [Some] inverse in [0, |m|) when it exists, [None] when
    the call returns zero.  GMP's algorithm is not part of its contract;
    the inverse is computed by the binary method when the modulus is odd
    and by Euclid's otherwise. *)
Definition mpz_invert (a m : Z) : option Z :=
  let m' := Z.abs m in
  if m' =? 1 then Some 0
  else if Z.odd m' then
    binary_egcd (4 * Z.to_nat (Z.log2 m') + 8) m' (a mod m') m' 1 0
  else
    let '(g, t) := egcd (2 * Z.to_nat (Z.log2 m') + 3) m' 0 (a mod m') 1 in
    if g =? 1 then Some (t mod m') else None.

Definition bigint_mod_inverse (a modulus : BigInt) : BigInt :=
  match mpz_invert a modulus with
  | Some r => r
  | None => 0   (* No inverse exists *)
  end.

(** [mpz_mul_2exp]; [bits] is never negative at a call site. *)
Definition bigint_shift_left (a : BigInt) (bits : Z) : BigInt := Z.shiftl a bits.

(** [mpz_fdiv_q_2exp]: quotient rounded towards minus infinity. *)
Definition bigint_shift_right (a : BigInt) (bits : Z) : BigInt := Z.shiftr a bits.

(** [mpz_cmp]: negative, zero or positive. *)
Definition bigint_compare (a b : BigInt) : Z :=
  match a ?= b with Lt => -1 | Eq => 0 | Gt => 1 end.

(** [mpz_sizeinbase(a, 2)]: the sign is ignored; 1 for zero. *)
Definition bigint_bit_length (a : BigInt) : Z :=
  if a =? 0 then 1 else Z.log2 (Z.abs a) + 1.

(** [mpz_odd_p] *)
Definition mpz_odd_p (a : BigInt) : bool := Z.odd a.

(** *** Conversion to and from hexadecimal *)

(** Digit characters of [mpz_get_str] for bases up to 36: lower case. *)
Definition digit_char (d : Z) : ascii :=
  match d with
  | 0 => "0" | 1 => "1" | 2 => "2" | 3 => "3" | 4 => "4" | 5 => "5"
  | 6 => "6" | 7 => "7" | 8 => "8" | 9 => "9" | 10 => "a" | 11 => "b"
  | 12 => "c" | 13 => "d" | 14 => "e" | _ => "f"
  end%char.

(** Base-16 digits of [n >= 0], most significant first, no leading zero
    ([[0]] for zero); [fuel] bounds the number of digits. *)
Fixpoint digits16 (fuel : nat) (n : Z) : list Z :=
  match fuel with
  | O => []
  | S f => if n <? 16 then [n] else digits16 f (n / 16) ++ [n mod 16]
  end.

Definition hex_digits (n : Z) : list Z :=
  digits16 (S (Z.to_nat (Z.log2 n))) n.

(** [mpz_get_str(nullptr, 16, a)] *)
Definition mpz_get_str16 (a : Z) : list ascii :=
  (if a <? 0 then ["-"%char] else []) ++ map digit_char (hex_digits (Z.abs a)).

Definition bigint_to_hex (a : BigInt) : string :=
  str (map toupper (mpz_get_str16 a)).

(** [mpz_set_str(rop, s, 16)]: white space is ignored, a leading minus is
    allowed, every other character must be a hexadecimal digit of either
    case.  [None] when the call returns -1 (and leaves [rop] alone). *)
Definition mpz_set_str16 (s : list ascii) : option Z :=
  let s1 := skip_space s in
  let neg := match s1 with c :: _ => Ascii.eqb c "-" | [] => false end in
  let s2 := if neg then tail s1 else s1 in
  match s2 with
  | [] => None
  | c :: _ =>
      if is_hex c then
        let body := List.filter (fun c => negb (isspace c)) s2 in
        let '(v, n) := read_hex 0 0 body in
        if Nat.eqb n (List.length body) then Some (if neg then - v else v)
        else None
      else None
  end.

Definition hex_to_bigint (hex : string) : BigInt :=
  let clean_hex :=
    if (Nat.leb 2 (size hex) && String.eqb (substr 0 2 hex) "0x")%bool
    then substr_from 2 hex else hex in
  match mpz_set_str16 (c_str (chars clean_hex)) with
  | Some v => v
  | None => 0   (* the freshly initialised value stays *)
  end.

(** ** ecc_utils: the curve *)

Record ECPoint : Type := mkPoint {
  x : BigInt;
  y : BigInt;
  is_infinity : bool
}.

(** [ECPoint()] *)
Definition ECPoint_default : ECPoint := mkPoint 0 0 false.
(** [ECPoint(x_coord, y_coord)] *)
Definition ECPoint_xy (x_coord y_coord : BigInt) : ECPoint :=
  mkPoint x_coord y_coord false.
(** [ECPoint result; result.is_infinity = true;] *)
Definition ECPoint_infinity : ECPoint := mkPoint 0 0 true.

Definition SECP256K1_P : BigInt :=
  0xFFFFFFFFFFFFFFFFFFFFFFFFFFFFFFFFFFFFFFFFFFFFFFFFFFFFFFFEFFFFFC2F.
Definition SECP256K1_N : BigInt :=
  0xFFFFFFFFFFFFFFFFFFFFFFFFFFFFFFFEBAAEDCE6AF48A03BBFD25E8CD0364141.
Definition SECP256K1_A : BigInt := bigint_zero.
Definition SECP256K1_B : BigInt := bigint_from_int 7.
Definition SECP256K1_G : ECPoint :=
  ECPoint_xy
    0x79BE667EF9DCBBAC55A06295CE870B07029BFCDB2DCE28D959F2815B16F81798
    0x483ADA7726A3C4655DA4FBFC0E1108A8FD17B448A68554199C47D08FFB10D4B8.

Definition point_double (p : ECPoint) : ECPoint :=
  if is_infinity p then p
  else if bigint_compare (y p) bigint_zero =? 0 then ECPoint_infinity
  else
    let three := bigint_from_int 3 in
    let two := bigint_from_int 2 in
    let x_squared := bigint_mod (bigint_multiply (x p) (x p)) SECP256K1_P in
    let numerator := bigint_mod (bigint_multiply three x_squared) SECP256K1_P in
    let denominator := bigint_mod (bigint_multiply two (y p)) SECP256K1_P in
    let denom_inv := bigint_mod_inverse denominator SECP256K1_P in
    let s := bigint_mod (bigint_multiply numerator denom_inv) SECP256K1_P in
    let s_squared := bigint_mod (bigint_multiply s s) SECP256K1_P in
    let two_x := bigint_mod (bigint_multiply two (x p)) SECP256K1_P in
    let x3 := bigint_mod (bigint_subtract s_squared two_x) SECP256K1_P in
    let y3 := bigint_mod (bigint_subtract
                (bigint_multiply s (bigint_subtract (x p) x3)) (y p))
                SECP256K1_P in
    ECPoint_xy x3 y3.

Definition point_add (p1 p2 : ECPoint) : ECPoint :=
  if is_infinity p1 then p2
  else if is_infinity p2 then p1
  else if bigint_compare (x p1) (x p2) =? 0 then
    if bigint_compare (y p1) (y p2) =? 0 then point_double p1
    else ECPoint_infinity   (* Points are additive inverses *)
  else
    let dy := bigint_subtract (y p2) (y p1) in
    let dx := bigint_subtract (x p2) (x p1) in
    let dx_inv := bigint_mod_inverse dx SECP256K1_P in
    let s := bigint_mod (bigint_multiply dy dx_inv) SECP256K1_P in
    let s_squared := bigint_mod (bigint_multiply s s) SECP256K1_P in
    let x3 := bigint_mod (bigint_subtract (bigint_subtract s_squared (x p1)) (x p2))
                SECP256K1_P in
    let y3 := bigint_mod (bigint_subtract
                (bigint_multiply s (bigint_subtract (x p1) x3)) (y p1))
                SECP256K1_P in
    ECPoint_xy x3 y3.

(** The [while (k_copy > 0)] loop of [point_multiply]: one iteration per
    bit of [k_copy], least significant first; the shift right by one is the
    step to the tail of the binary numeral. *)
Fixpoint multiply_loop (k_copy : positive) (result addend : ECPoint) : ECPoint :=
  match k_copy with
  | xH => point_add result addend
  | xO k' => multiply_loop k' result (point_double addend)
  | xI k' => multiply_loop k' (point_add result addend) (point_double addend)
  end.

Definition point_multiply (k : BigInt) (p : ECPoint) : ECPoint :=
  if is_infinity p then p
  else match k with
       | Zpos k_copy => multiply_loop k_copy ECPoint_infinity p
       | _ => ECPoint_infinity   (* the loop body never runs *)
       end.

Definition point_equals (p1 p2 : ECPoint) : bool :=
  if (is_infinity p1 && is_infinity p2)%bool then true
  else if (is_infinity p1 || is_infinity p2)%bool then false
  else ((bigint_compare (x p1) (x p2) =? 0) && (bigint_compare (y p1) (y p2) =? 0))%bool.

Definition point_is_on_curve (p : ECPoint) : bool :=
  if is_infinity p then true
  else
    let y_squared := bigint_mod (bigint_multiply (y p) (y p)) SECP256K1_P in
    let x_cubed := bigint_mod (bigint_multiply (bigint_multiply (x p) (x p)) (x p))
                     SECP256K1_P in
    let right_side := bigint_mod (bigint_add x_cubed SECP256K1_B) SECP256K1_P in
    bigint_compare y_squared right_side =? 0.

Definition get_generator : ECPoint := SECP256K1_G.
Definition get_field_prime : BigInt := SECP256K1_P.
Definition get_curve_order : BigInt := SECP256K1_N.

(** [hex_to_point(hex, point)]: the result and the out-parameter, which is
    written on the two decoding paths whatever the result. *)
Definition hex_to_point (hex : string) (point : ECPoint) : bool * ECPoint :=
  if Nat.ltb (size hex) 2 then (false, point)
  else
    let clean_hex :=
      if String.eqb (substr 0 2 hex) "0x" then substr_from 2 hex else hex in
    if (Nat.eqb (size clean_hex) 66 &&
        match chars clean_hex with c :: _ => Ascii.eqb c "0" | [] => false end)%bool
    then
      (* Compressed format *)
      let x_hex := substr_from 2 clean_hex in
      let px := hex_to_bigint x_hex in
      (true, mkPoint px (bigint_from_int 1) false)   (* Placeholder *)
    else if Nat.eqb (size clean_hex) 128 then
      (* Uncompressed format *)
      let x_hex := substr 0 64 clean_hex in
      let y_hex := substr_from 64 clean_hex in
      let point' := mkPoint (hex_to_bigint x_hex) (hex_to_bigint y_hex) false in
      (point_is_on_curve point', point')
    else (false, point).

Definition pad64 (h : string) : string :=
  str (List.repeat "0"%char (64 - size h) ++ chars h).

Definition point_to_hex (point : ECPoint) : string :=
  if is_infinity point then "00"%string
  else ("04" ++ pad64 (bigint_to_hex (x point)) ++ pad64 (bigint_to_hex (y point)))%string.

End Ecc.

Import Ecc.


(** ** kangaroo_solver: the engine *)

Module Solver.

(** Fixed-width integers of the engine: [uint64_t] counters and [int]. *)
Definition uint64 (z : Z) : Z := z mod 2 ^ 64.
Definition int32 (z : Z) : Z := (z + 2 ^ 31) mod 2 ^ 32 - 2 ^ 31.

(** [std::stoull(s, nullptr, 16)]; [None] when it throws
    ([std::invalid_argument] or [std::out_of_range]). *)
Definition stoull16 (s : string) : option Z :=
  match strtol16 (c_str (chars s)) with
  | Some v => if Z.abs v <=? 2 ^ 64 - 1 then Some (uint64 v) else None
  | None => None
  end.

(** [std::stoi(s, nullptr, 16)]; [None] when it throws. *)
Definition stoi16 (s : string) : option Z :=
  match strtol16 (c_str (chars s)) with
  | Some v => if (- 2 ^ 31 <=? v) && (v <=? 2 ^ 31 - 1) then Some v else None
  | None => None
  end.

Record KangarooStats : Type := mkStats {
  stats_total_jumps : Z;
  stats_distinguished_points : Z;
  stats_collisions_found : Z;
  stats_elapsed_time : Z;
  stats_threads_active : Z;
  stats_current_range_start : string;   (* char[65], read as a C string *)
  stats_current_range_end : string;
  stats_found_key : string;
  stats_is_solved : bool
}.

Record DistinguishedPoint : Type := mkDP {
  dp_point : ECPoint;
  dp_distance : string;
  dp_is_tame : bool;
  dp_timestamp : Z
}.

(** The data members of [class KangarooSolver] (the two mutexes apart).
    [worker_threads] holds the id each live thread was started with. *)
Record KangarooSolver : Type := mkSolver {
  target_point : ECPoint;
  range_start : BigInt;
  range_end : BigInt;
  num_threads : Z;
  distinguished_bits : Z;
  distinguished_mask : Z;
  running : bool;
  solved : bool;
  total_jumps : Z;
  total_distinguished_points : Z;
  total_collisions : Z;
  worker_threads : list Z;
  distinguished_points : gmap string DistinguishedPoint;
  jump_distances : list BigInt;
  jump_points : list ECPoint;
  solution_key : BigInt;
  start_time : Z
}.

(** Assignment to one data member. *)
Definition set_target_point (v : ECPoint) (s : KangarooSolver) : KangarooSolver :=
  {| target_point := v; range_start := range_start s;
     range_end := range_end s; num_threads := num_threads s;
     distinguished_bits := distinguished_bits s;
     distinguished_mask := distinguished_mask s; running := running s;
     solved := solved s; total_jumps := total_jumps s;
     total_distinguished_points := total_distinguished_points s;
     total_collisions := total_collisions s;
     worker_threads := worker_threads s;
     distinguished_points := distinguished_points s;
     jump_distances := jump_distances s; jump_points := jump_points s;
     solution_key := solution_key s; start_time := start_time s |}.
Definition set_range_start (v : BigInt) (s : KangarooSolver) : KangarooSolver :=
  {| target_point := target_point s; range_start := v;
     range_end := range_end s; num_threads := num_threads s;
     distinguished_bits := distinguished_bits s;
     distinguished_mask := distinguished_mask s; running := running s;
     solved := solved s; total_jumps := total_jumps s;
     total_distinguished_points := total_distinguished_points s;
     total_collisions := total_collisions s;
     worker_threads := worker_threads s;
     distinguished_points := distinguished_points s;
     jump_distances := jump_distances s; jump_points := jump_points s;
     solution_key := solution_key s; start_time := start_time s |}.
Definition set_range_end (v : BigInt) (s : KangarooSolver) : KangarooSolver :=
  {| target_point := target_point s; range_start := range_start s;
     range_end := v; num_threads := num_threads s;
     distinguished_bits := distinguished_bits s;
     distinguished_mask := distinguished_mask s; running := running s;
     solved := solved s; total_jumps := total_jumps s;
     total_distinguished_points := total_distinguished_points s;
     total_collisions := total_collisions s;
     worker_threads := worker_threads s;
     distinguished_points := distinguished_points s;
     jump_distances := jump_distances s; jump_points := jump_points s;
     solution_key := solution_key s; start_time := start_time s |}.
Definition set_num_threads (v : Z) (s : KangarooSolver) : KangarooSolver :=
  {| target_point := target_point s; range_start := range_start s;
     range_end := range_end s; num_threads := v;
     distinguished_bits := distinguished_bits s;
     distinguished_mask := distinguished_mask s; running := running s;
     solved := solved s; total_jumps := total_jumps s;
     total_distinguished_points := total_distinguished_points s;
     total_collisions := total_collisions s;
     worker_threads := worker_threads s;
     distinguished_points := distinguished_points s;
     jump_distances := jump_distances s; jump_points := jump_points s;
     solution_key := solution_key s; start_time := start_time s |}.
Definition set_distinguished_bits (v : Z) (s : KangarooSolver) : KangarooSolver :=
  {| target_point := target_point s; range_start := range_start s;
     range_end := range_end s; num_threads := num_threads s;
     distinguished_bits := v; distinguished_mask := distinguished_mask s;
     running := running s; solved := solved s; total_jumps := total_jumps s;
     total_distinguished_points := total_distinguished_points s;
     total_collisions := total_collisions s;
     worker_threads := worker_threads s;
     distinguished_points := distinguished_points s;
     jump_distances := jump_distances s; jump_points := jump_points s;
     solution_key := solution_key s; start_time := start_time s |}.
Definition set_distinguished_mask (v : Z) (s : KangarooSolver) : KangarooSolver :=
  {| target_point := target_point s; range_start := range_start s;
     range_end := range_end s; num_threads := num_threads s;
     distinguished_bits := distinguished_bits s; distinguished_mask := v;
     running := running s; solved := solved s; total_jumps := total_jumps s;
     total_distinguished_points := total_distinguished_points s;
     total_collisions := total_collisions s;
     worker_threads := worker_threads s;
     distinguished_points := distinguished_points s;
     jump_distances := jump_distances s; jump_points := jump_points s;
     solution_key := solution_key s; start_time := start_time s |}.
Definition set_running (v : bool) (s : KangarooSolver) : KangarooSolver :=
  {| target_point := target_point s; range_start := range_start s;
     range_end := range_end s; num_threads := num_threads s;
     distinguished_bits := distinguished_bits s;
     distinguished_mask := distinguished_mask s; running := v;
     solved := solved s; total_jumps := total_jumps s;
     total_distinguished_points := total_distinguished_points s;
     total_collisions := total_collisions s;
     worker_threads := worker_threads s;
     distinguished_points := distinguished_points s;
     jump_distances := jump_distances s; jump_points := jump_points s;
     solution_key := solution_key s; start_time := start_time s |}.
Definition set_solved (v : bool) (s : KangarooSolver) : KangarooSolver :=
  {| target_point := target_point s; range_start := range_start s;
     range_end := range_end s; num_threads := num_threads s;
     distinguished_bits := distinguished_bits s;
     distinguished_mask := distinguished_mask s; running := running s;
     solved := v; total_jumps := total_jumps s;
     total_distinguished_points := total_distinguished_points s;
     total_collisions := total_collisions s;
     worker_threads := worker_threads s;
     distinguished_points := distinguished_points s;
     jump_distances := jump_distances s; jump_points := jump_points s;
     solution_key := solution_key s; start_time := start_time s |}.
Definition set_total_jumps (v : Z) (s : KangarooSolver) : KangarooSolver :=
  {| target_point := target_point s; range_start := range_start s;
     range_end := range_end s; num_threads := num_threads s;
     distinguished_bits := distinguished_bits s;
     distinguished_mask := distinguished_mask s; running := running s;
     solved := solved s; total_jumps := v;
     total_distinguished_points := total_distinguished_points s;
     total_collisions := total_collisions s;
     worker_threads := worker_threads s;
     distinguished_points := distinguished_points s;
     jump_distances := jump_distances s; jump_points := jump_points s;
     solution_key := solution_key s; start_time := start_time s |}.
Definition set_total_distinguished_points (v : Z) (s : KangarooSolver) : KangarooSolver :=
  {| target_point := target_point s; range_start := range_start s;
     range_end := range_end s; num_threads := num_threads s;
     distinguished_bits := distinguished_bits s;
     distinguished_mask := distinguished_mask s; running := running s;
     solved := solved s; total_jumps := total_jumps s;
     total_distinguished_points := v;
     total_collisions := total_collisions s;
     worker_threads := worker_threads s;
     distinguished_points := distinguished_points s;
     jump_distances := jump_distances s; jump_points := jump_points s;
     solution_key := solution_key s; start_time := start_time s |}.
Definition set_total_collisions (v : Z) (s : KangarooSolver) : KangarooSolver :=
  {| target_point := target_point s; range_start := range_start s;
     range_end := range_end s; num_threads := num_threads s;
     distinguished_bits := distinguished_bits s;
     distinguished_mask := distinguished_mask s; running := running s;
     solved := solved s; total_jumps := total_jumps s;
     total_distinguished_points := total_distinguished_points s;
     total_collisions := v; worker_threads := worker_threads s;
     distinguished_points := distinguished_points s;
     jump_distances := jump_distances s; jump_points := jump_points s;
     solution_key := solution_key s; start_time := start_time s |}.
Definition set_worker_threads (v : list Z) (s : KangarooSolver) : KangarooSolver :=
  {| target_point := target_point s; range_start := range_start s;
     range_end := range_end s; num_threads := num_threads s;
     distinguished_bits := distinguished_bits s;
     distinguished_mask := distinguished_mask s; running := running s;
     solved := solved s; total_jumps := total_jumps s;
     total_distinguished_points := total_distinguished_points s;
     total_collisions := total_collisions s; worker_threads := v;
     distinguished_points := distinguished_points s;
     jump_distances := jump_distances s; jump_points := jump_points s;
     solution_key := solution_key s; start_time := start_time s |}.
Definition set_distinguished_points (v : gmap string DistinguishedPoint) (s : KangarooSolver) : KangarooSolver :=
  {| target_point := target_point s; range_start := range_start s;
     range_end := range_end s; num_threads := num_threads s;
     distinguished_bits := distinguished_bits s;
     distinguished_mask := distinguished_mask s; running := running s;
     solved := solved s; total_jumps := total_jumps s;
     total_distinguished_points := total_distinguished_points s;
     total_collisions := total_collisions s;
     worker_threads := worker_threads s; distinguished_points := v;
     jump_distances := jump_distances s; jump_points := jump_points s;
     solution_key := solution_key s; start_time := start_time s |}.
Definition set_jump_distances (v : list BigInt) (s : KangarooSolver) : KangarooSolver :=
  {| target_point := target_point s; range_start := range_start s;
     range_end := range_end s; num_threads := num_threads s;
     distinguished_bits := distinguished_bits s;
     distinguished_mask := distinguished_mask s; running := running s;
     solved := solved s; total_jumps := total_jumps s;
     total_distinguished_points := total_distinguished_points s;
     total_collisions := total_collisions s;
     worker_threads := worker_threads s;
     distinguished_points := distinguished_points s; jump_distances := v;
     jump_points := jump_points s; solution_key := solution_key s;
     start_time := start_time s |}.
Definition set_jump_points (v : list ECPoint) (s : KangarooSolver) : KangarooSolver :=
  {| target_point := target_point s; range_start := range_start s;
     range_end := range_end s; num_threads := num_threads s;
     distinguished_bits := distinguished_bits s;
     distinguished_mask := distinguished_mask s; running := running s;
     solved := solved s; total_jumps := total_jumps s;
     total_distinguished_points := total_distinguished_points s;
     total_collisions := total_collisions s;
     worker_threads := worker_threads s;
     distinguished_points := distinguished_points s;
     jump_distances := jump_distances s; jump_points := v;
     solution_key := solution_key s; start_time := start_time s |}.
Definition set_solution_key (v : BigInt) (s : KangarooSolver) : KangarooSolver :=
  {| target_point := target_point s; range_start := range_start s;
     range_end := range_end s; num_threads := num_threads s;
     distinguished_bits := distinguished_bits s;
     distinguished_mask := distinguished_mask s; running := running s;
     solved := solved s; total_jumps := total_jumps s;
     total_distinguished_points := total_distinguished_points s;
     total_collisions := total_collisions s;
     worker_threads := worker_threads s;
     distinguished_points := distinguished_points s;
     jump_distances := jump_distances s; jump_points := jump_points s;
     solution_key := v; start_time := start_time s |}.
Definition set_start_time (v : Z) (s : KangarooSolver) : KangarooSolver :=
  {| target_point := target_point s; range_start := range_start s;
     range_end := range_end s; num_threads := num_threads s;
     distinguished_bits := distinguished_bits s;
     distinguished_mask := distinguished_mask s; running := running s;
     solved := solved s; total_jumps := total_jumps s;
     total_distinguished_points := total_distinguished_points s;
     total_collisions := total_collisions s;
     worker_threads := worker_threads s;
     distinguished_points := distinguished_points s;
     jump_distances := jump_distances s; jump_points := jump_points s;
     solution_key := solution_key s; start_time := v |}.

(** [KangarooSolver::KangarooSolver()] *)
Definition KangarooSolver_new : KangarooSolver :=
  {| target_point := ECPoint_default;
     range_start := 0; range_end := 0;
     num_threads := 1;
     distinguished_bits := 20;
     distinguished_mask := 0;
     running := false; solved := false;
     total_jumps := 0; total_distinguished_points := 0; total_collisions := 0;
     worker_threads := [];
     distinguished_points := ∅;
     jump_distances := []; jump_points := [];
     solution_key := 0;
     start_time := 0 |}.

(** The [for (int i = 0; i < num_jumps; ++i)] loop of [precompute_jumps],
    with [n] iterations left. *)
Fixpoint precompute_loop (n : nat) (i : Z) (base_jump_bits : Z)
    (dists : list BigInt) (pts : list ECPoint) : list BigInt * list ECPoint :=
  match n with
  | O => (dists, pts)
  | S n' =>
      let jump_size := bigint_shift_left bigint_one base_jump_bits in
      let variation := bigint_from_int (i + 1) in
      let jump_distance := bigint_add jump_size variation in
      let jump_point := point_multiply jump_distance get_generator in
      precompute_loop n' (i + 1) base_jump_bits
        (dists ++ [jump_distance]) (pts ++ [jump_point])
  end.

Definition num_jumps : nat := 256.

Definition precompute_jumps (s : KangarooSolver) : KangarooSolver :=
  let range_size := bigint_subtract (range_end s) (range_start s) in
  let range_bits := bigint_bit_length range_size in
  let base_jump_bits := Z.max 1 (range_bits / 2 - 8) in
  let tables := precompute_loop num_jumps 0 base_jump_bits [] [] in
  set_jump_points (snd tables) (set_jump_distances (fst tables) s).

Definition initialize (pubkey_hex range_start_hex range_end_hex : string)
    (threads dist_bits : Z) (s : KangarooSolver) : bool * KangarooSolver :=
  let parsed := hex_to_point pubkey_hex (target_point s) in
  let s := set_target_point (snd parsed) s in
  if negb (fst parsed) then (false, s)
  else
    let s := set_range_start (hex_to_bigint range_start_hex) s in
    let s := set_range_end (hex_to_bigint range_end_hex) s in
    if range_end s <=? range_start s then (false, s)
    else
      let s := set_num_threads (Z.max 1 (Z.min 64 threads)) s in
      let s := set_distinguished_bits (Z.max 8 (Z.min 32 dist_bits)) s in
      let s := set_distinguished_mask
                 (uint64 (uint64 (Z.shiftl 1 (distinguished_bits s)) - 1)) s in
      (true, precompute_jumps s).

(** [get_elapsed_time()] when the steady clock reads [now] seconds. *)
Definition get_elapsed_time (now : Z) (s : KangarooSolver) : Z :=
  uint64 (now - start_time s).

(** The ids handed to the workers by the spawning loop of [start]. *)
Definition spawned (n : Z) : list Z := map Z.of_nat (seq 0 (Z.to_nat n)).

(** [start()], called when the steady clock reads [now]. *)
Definition start (now : Z) (s : KangarooSolver) : bool * KangarooSolver :=
  if running s then (false, s)
  else
    let s := set_running true s in
    let s := set_solved false s in
    let s := set_start_time now s in
    let s := set_distinguished_points ∅ s in
    let s := set_total_jumps 0 s in
    let s := set_total_distinguished_points 0 s in
    let s := set_total_collisions 0 s in
    let s := set_worker_threads [] s in
    let s := set_worker_threads (worker_threads s ++ spawned (num_threads s)) s in
    (true, s).

(** What the worker threads may have written by the time they have all
    returned: they store to the counters, the table, [solved] and
    [solution_key], and to nothing else. *)
Record WorkerWrites : Type := mkWrites {
  w_total_jumps : Z;
  w_total_distinguished_points : Z;
  w_total_collisions : Z;
  w_distinguished_points : gmap string DistinguishedPoint;
  w_solved : bool;
  w_solution_key : BigInt
}.

Definition join_all (w : WorkerWrites) (s : KangarooSolver) : KangarooSolver :=
  set_solution_key (w_solution_key w)
    (set_solved (w_solved w)
      (set_distinguished_points (w_distinguished_points w)
        (set_total_collisions (w_total_collisions w)
          (set_total_distinguished_points (w_total_distinguished_points w)
            (set_total_jumps (w_total_jumps w) s))))).

(** [stop()]; [w] is what the joined workers leave behind. *)
Definition stop (w : WorkerWrites) (s : KangarooSolver) : KangarooSolver :=
  if negb (running s) then s
  else
    let s := set_running false s in
    let s := join_all w s in
    set_worker_threads [] s.

Definition is_running (s : KangarooSolver) : bool := running s.
Definition is_solved (s : KangarooSolver) : bool := solved s.

(** [is_distinguished(point)]; [None] when [std::stoull] throws. *)
Definition is_distinguished (s : KangarooSolver) (point : ECPoint) : option bool :=
  let x_hex := bigint_to_hex (x point) in
  if Nat.leb 8 (size x_hex) then
    let last_chars := substr_from (size x_hex - 8) x_hex in
    match stoull16 last_chars with
    | None => None
    | Some last_bits => Some (Z.land last_bits (distinguished_mask s) =? 0)
    end
  else Some false.

Definition point_to_string (point : ECPoint) : string :=
  (bigint_to_hex (x point) ++ ":" ++ bigint_to_hex (y point))%string.

(** [fetch_add] on a 64-bit atomic counter. *)
Definition fetch_add (counter delta : Z) : Z := uint64 (counter + delta).

(** [add_distinguished_point(point, distance, is_tame)], run under the
    table's lock when the steady clock reads [now].

    [existing.distance] is the hexadecimal string written by the insertion
    branch below, and [bigint_subtract] takes numbers: the string is read
    back with [hex_to_bigint], the string-to-number conversion of
    ecc_utils. *)
Definition add_distinguished_point (now : Z) (point : ECPoint) (distance : BigInt)
    (is_tame : bool) (s : KangarooSolver) : bool * KangarooSolver :=
  let point_str := point_to_string point in
  match distinguished_points s !! point_str with
  | Some existing =>
      if negb (Bool.eqb (dp_is_tame existing) is_tame) then
        let s := set_total_collisions (fetch_add (total_collisions s) 1) s in
        let key_diff :=
          if is_tame
          then bigint_subtract distance (hex_to_bigint (dp_distance existing))
          else bigint_subtract (hex_to_bigint (dp_distance existing)) distance in
        let test_point := point_multiply key_diff get_generator in
        if point_equals test_point (target_point s)
        then (true, set_solution_key key_diff s)
        else (false, s)
      else (false, s)
  | None =>
      let dp := mkDP point (bigint_to_hex distance) is_tame (get_elapsed_time now s) in
      let s := set_distinguished_points (<[point_str := dp]> (distinguished_points s)) s in
      (false, set_total_distinguished_points
                (fetch_add (total_distinguished_points s) 1) s)
  end.

(** [get_jump_index(point)]; [None] when [std::stoi] throws or the table
    is empty (remainder by zero). *)
Definition get_jump_index (s : KangarooSolver) (point : ECPoint) : option Z :=
  let x_hex := bigint_to_hex (x point) in
  if Nat.leb 2 (size x_hex) then
    let last_byte := substr_from (size x_hex - 2) x_hex in
    match stoi16 last_byte with
    | None => None
    | Some v =>
        let n := Z.of_nat (List.length (jump_distances s)) in
        if n =? 0 then None else Some (int32 (uint64 v mod n))
    end
  else Some 0.

(** [generate_random_in_range(start, end)] when the generator yields
    [random_val]; [None] when the range is empty (division by zero). *)
Definition generate_random_in_range (random_val : Z) (start_ end_ : BigInt)
    : option BigInt :=
  let range_size := bigint_subtract end_ start_ in
  if range_size =? 0 then None
  else
    let offset := bigint_mod (bigint_from_uint64 random_val) range_size in
    Some (bigint_add start_ offset).

(** [get_stats()] when the steady clock reads [now].  [strncpy] into the
    zeroed 65-byte arrays keeps at most 64 characters. *)
Definition strncpy64 (src : string) : string :=
  str (take 64 (c_str (chars src))).

Definition get_stats (now : Z) (s : KangarooSolver) : KangarooStats :=
  {| stats_total_jumps := total_jumps s;
     stats_distinguished_points := total_distinguished_points s;
     stats_collisions_found := total_collisions s;
     stats_elapsed_time := get_elapsed_time now s;
     stats_threads_active := if running s then num_threads s else 0;
     stats_current_range_start := strncpy64 (bigint_to_hex (range_start s));
     stats_current_range_end := strncpy64 (bigint_to_hex (range_end s));
     stats_found_key :=
       if solved s then strncpy64 (bigint_to_hex (solution_key s)) else ""%string;
     stats_is_solved := solved s |}.

(** *** The walkers *)

(** The local variables of a walker that live across loop iterations. *)
Record Walker : Type := mkWalker {
  current : ECPoint;
  distance : BigInt;
  local_jumps : Z
}.

Definition report_interval : Z := 10000.

(** What one turn of a walker's [while] loop leaves: the loop goes on, or
    it is left (by [break] or because the condition is false). *)
Inductive Turn : Type :=
  | Continue (s : KangarooSolver) (w : Walker)
  | Leave (s : KangarooSolver) (w : Walker).

(** The jump shared by both walkers: index, step, count, report. *)
Definition make_jump (s : KangarooSolver) (w : Walker)
    : option (KangarooSolver * Walker) :=
  match get_jump_index s (current w) with
  | None => None
  | Some jump_idx =>
      match jump_points s !! Z.to_nat jump_idx,
            jump_distances s !! Z.to_nat jump_idx with
      | Some jp, Some jd =>
          let w := mkWalker (point_add (current w) jp)
                     (bigint_add (distance w) jd)
                     (uint64 (local_jumps w + 1)) in
          let s := if local_jumps w mod report_interval =? 0
                   then set_total_jumps
                          (fetch_add (total_jumps s) report_interval) s
                   else s in
          Some (s, w)
      | _, _ => None   (* index outside the table *)
      end
  end.

(** Start of [tame_kangaroo]: a random scalar of the range. *)
Definition tame_begin (random_val : Z) (s : KangarooSolver) : option Walker :=
  match generate_random_in_range random_val (range_start s) (range_end s) with
  | None => None
  | Some k => Some (mkWalker (point_multiply k get_generator) k 0)
  end.

(** One turn of the loop of [tame_kangaroo]; [random_val] is what the
    generator yields if the walker restarts.  [None] when an exception
    leaves the thread function. *)
Definition tame_turn (now random_val : Z) (s : KangarooSolver) (w : Walker)
    : option Turn :=
  if running s && negb (solved s) then
    match is_distinguished s (current w) with
    | None => None
    | Some d =>
        let published :=
          if d then add_distinguished_point now (current w) (distance w) true s
          else (false, s) in
        if fst published then
          (* Collision found! *)
          let s := set_solved true (snd published) in
          let s := set_solution_key (distance w) s in
          Some (Leave s w)
        else
          match make_jump (snd published) w with
          | None => None
          | Some (s, w) =>
              if 0 <? bigint_compare (distance w) (range_end s) then
                match generate_random_in_range random_val
                        (range_start s) (range_end s) with
                | None => None
                | Some k =>
                    Some (Continue s (mkWalker (point_multiply k get_generator) k
                                        (local_jumps w)))
                end
              else Some (Continue s w)
          end
    end
  else Some (Leave s w).

(** Start of [wild_kangaroo]: the target, at distance zero. *)
Definition wild_begin (s : KangarooSolver) : Walker :=
  mkWalker (target_point s) bigint_zero 0.

(** One turn of the loop of [wild_kangaroo]. *)
Definition wild_turn (now : Z) (s : KangarooSolver) (w : Walker) : option Turn :=
  if running s && negb (solved s) then
    match is_distinguished s (current w) with
    | None => None
    | Some d =>
        let published :=
          if d then add_distinguished_point now (current w) (distance w) false s
          else (false, s) in
        if fst published then
          (* Collision found! *)
          let s := set_solved true (snd published) in
          let s := set_solution_key (distance w) s in
          Some (Leave s w)
        else
          match make_jump (snd published) w with
          | None => None
          | Some (s, w) =>
              if 80 <? bigint_bit_length (distance w) then
                Some (Continue s (mkWalker (target_point s) bigint_zero
                                    (local_jumps w)))
              else Some (Continue s w)
          end
    end
  else Some (Leave s w).

(** The statement after the loop: the final jump count. *)
Definition walker_end (s : KangarooSolver) (w : Walker) : KangarooSolver :=
  set_total_jumps (fetch_add (total_jumps s) (local_jumps w mod report_interval)) s.

(** A walker run on its own for at most [fuel] turns, the generator
    yielding [rnd] at every restart; [None] when the loop is still going
    after [fuel] turns or the thread died. *)
Fixpoint tame_loop (fuel : nat) (now rnd : Z) (s : KangarooSolver) (w : Walker)
    : option KangarooSolver :=
  match fuel with
  | O => None
  | S f =>
      match tame_turn now rnd s w with
      | None => None
      | Some (Continue s w) => tame_loop f now rnd s w
      | Some (Leave s w) => Some (walker_end s w)
      end
  end.

Fixpoint wild_loop (fuel : nat) (now : Z) (s : KangarooSolver) (w : Walker)
    : option KangarooSolver :=
  match fuel with
  | O => None
  | S f =>
      match wild_turn now s w with
      | None => None
      | Some (Continue s w) => wild_loop f now s w
      | Some (Leave s w) => Some (walker_end s w)
      end
  end.

End Solver.

Import Solver.

(** ** checkpoint: the codec *)

Module Checkpoint.

#[local] Set Warnings "-register-all".

(** A JSON document as jsoncpp holds it ([Json::Value]); objects are kept
    as association lists with one entry per member name. *)
Inductive Json : Type :=
  | JNull
  | JBool (b : bool)
  | JInt (z : Z)
  | JUInt (z : Z)
  | JString (s : string)
  | JArray (l : list Json)
  | JObject (members : list (string * Json)).

(** [value[key] = v] on an object. *)
Fixpoint set_member (key : string) (v : Json) (members : list (string * Json))
    : list (string * Json) :=
  match members with
  | [] => [(key, v)]
  | (k, old) :: rest =>
      if String.eqb k key then (k, v) :: rest
      else (k, old) :: set_member key v rest
  end.

Fixpoint find_member (key : string) (members : list (string * Json)) : option Json :=
  match members with
  | [] => None
  | (k, v) :: rest => if String.eqb k key then Some v else find_member key rest
  end.

(** [value[key]] read from a value: the member, null when it is missing
    or the value is null; [None] when jsoncpp throws (the value is neither
    an object nor null). *)
Definition member (key : string) (value : Json) : option Json :=
  match value with
  | JObject members => Some (default JNull (find_member key members))
  | JNull => Some JNull
  | _ => None
  end.

Definition to_dec (z : Z) : string := DecimalString.NilZero.string_of_int (Z.to_int z).

(** The conversions of [Json::Value]; [None] when jsoncpp throws. *)
Definition asString (v : Json) : option string :=
  match v with
  | JNull => Some ""%string
  | JString s => Some s
  | JBool b => Some (if b then "true" else "false")%string
  | JInt z | JUInt z => Some (to_dec z)
  | _ => None
  end.

Definition asUInt64 (v : Json) : option Z :=
  match v with
  | JNull => Some 0
  | JInt z | JUInt z => if (0 <=? z) && (z <? 2 ^ 64) then Some z else None
  | JBool b => Some (if b then 1 else 0)
  | _ => None
  end.

Definition asInt (v : Json) : option Z :=
  match v with
  | JNull => Some 0
  | JInt z | JUInt z => if (- 2 ^ 31 <=? z) && (z <? 2 ^ 31) then Some z else None
  | JBool b => Some (if b then 1 else 0)
  | _ => None
  end.

Definition asBool (v : Json) : option bool :=
  match v with
  | JNull => Some false
  | JBool b => Some b
  | JInt z | JUInt z => Some (negb (z =? 0))
  | _ => None
  end.

Record CheckpointData : Type := mkData {
  cp_version : string;
  cp_timestamp : Z;
  cp_total_jumps : Z;
  cp_distinguished_points_count : Z;
  cp_range_start : string;
  cp_range_end : string;
  cp_num_threads : Z;
  cp_distinguished_bits : Z;
  dp_points : list string;
  dp_distances : list string;
  dp_is_tame_flags : list bool;
  dp_timestamps : list Z
}.

(** [CheckpointData data;] *)
Definition CheckpointData_new : CheckpointData :=
  mkData "" 0 0 0 "" "" 0 0 [] [] [] [].

(** The files the codec sees: what a path holds ([Some j] when the text
    parses to the document [j], [None] when it does not parse), and which
    paths can be opened for writing.  Rendering a document to text and
    parsing it back is jsoncpp's business and taken to give the document
    back. *)
Record FileSystem : Type := mkFS {
  files : gmap string (option Json);
  can_write : string -> bool
}.

Definition write_file (path : string) (content : option Json) (fs : FileSystem)
    : FileSystem :=
  mkFS (<[path := content]> (files fs)) (can_write fs).

Definition get_checkpoint_version : string := "1.0.0".

(** The entries of the four parallel vectors, one object per index of
    [dp_points]. *)
Fixpoint dp_entries (points distances : list string) (tames : list bool)
    (stamps : list Z) : list Json :=
  match points, distances, tames, stamps with
  | p :: ps, d :: ds, t :: ts, st :: sts =>
      JObject (set_member "timestamp" (JUInt st)
                (set_member "is_tame" (JBool t)
                  (set_member "distance" (JString d)
                    (set_member "point" (JString p) []))))
      :: dp_entries ps ds ts sts
  | _, _, _, _ => []
  end.

Definition checkpoint_document (data : CheckpointData) : Json :=
  let root := set_member "version" (JString (cp_version data)) [] in
  let root := set_member "timestamp" (JUInt (cp_timestamp data)) root in
  let root := set_member "total_jumps" (JUInt (cp_total_jumps data)) root in
  let root := set_member "distinguished_points_count"
                (JUInt (cp_distinguished_points_count data)) root in
  let root := set_member "range_start" (JString (cp_range_start data)) root in
  let root := set_member "range_end" (JString (cp_range_end data)) root in
  let root := set_member "num_threads" (JInt (cp_num_threads data)) root in
  let root := set_member "distinguished_bits" (JInt (cp_distinguished_bits data)) root in
  let dp_array := JArray (dp_entries (dp_points data) (dp_distances data)
                            (dp_is_tame_flags data) (dp_timestamps data)) in
  JObject (set_member "distinguished_points" dp_array root).

Definition write_json_checkpoint (data : CheckpointData) (filename : string)
    (fs : FileSystem) : bool * FileSystem :=
  if can_write fs filename
  then (true, write_file filename (Some (checkpoint_document data)) fs)
  else (false, fs).

(** The loop over [dp_array] of [read_json_checkpoint]. *)
Fixpoint read_entries (entries : list Json) (data : CheckpointData)
    : option CheckpointData :=
  match entries with
  | [] => Some data
  | dp_entry :: rest =>
      point ← member "point" dp_entry ≫= asString;
      dist ← member "distance" dp_entry ≫= asString;
      tame ← member "is_tame" dp_entry ≫= asBool;
      stamp ← member "timestamp" dp_entry ≫= asUInt64;
      read_entries rest
        (mkData (cp_version data) (cp_timestamp data) (cp_total_jumps data)
           (cp_distinguished_points_count data) (cp_range_start data)
           (cp_range_end data) (cp_num_threads data) (cp_distinguished_bits data)
           (dp_points data ++ [point]) (dp_distances data ++ [dist])
           (dp_is_tame_flags data ++ [tame]) (dp_timestamps data ++ [stamp]))
  end.

(** [read_json_checkpoint(data, filename)]: the result and [data]; a
    thrown conversion is caught and gives [false]. *)
Definition read_json_checkpoint (data : CheckpointData) (filename : string)
    (fs : FileSystem) : bool * CheckpointData :=
  match files fs !! filename with
  | None => (false, data)            (* cannot be opened *)
  | Some None => (false, data)       (* JSON parse error *)
  | Some (Some root) =>
      let parsed :=
        version ← member "version" root ≫= asString;
        timestamp ← member "timestamp" root ≫= asUInt64;
        total ← member "total_jumps" root ≫= asUInt64;
        count ← member "distinguished_points_count" root ≫= asUInt64;
        rs ← member "range_start" root ≫= asString;
        re ← member "range_end" root ≫= asString;
        threads ← member "num_threads" root ≫= asInt;
        bits ← member "distinguished_bits" root ≫= asInt;
        dp_array ← member "distinguished_points" root;
        let data := mkData version timestamp total count rs re threads bits
                      (dp_points data) (dp_distances data)
                      (dp_is_tame_flags data) (dp_timestamps data) in
        match dp_array with
        | JArray entries =>
            read_entries entries
              (mkData version timestamp total count rs re threads bits [] [] [] [])
        | _ => Some data
        end in
      match parsed with
      | Some data' => (true, data')
      | None => (false, data)
      end
  end.

(** [backup_checkpoint(original_filename)] at wall-clock second [wall]. *)
Definition backup_checkpoint (wall : Z) (original_filename : string)
    (fs : FileSystem) : bool * FileSystem :=
  match files fs !! original_filename with
  | None => (false, fs)
  | Some content =>
      let backup_filename := (original_filename ++ ".backup." ++ to_dec wall)%string in
      if can_write fs backup_filename
      then (true, write_file backup_filename content fs)
      else (false, fs)
  end.

(** [CheckpointManager::save_checkpoint(solver, filename)]; [now] is the
    steady clock, [wall] the system clock. *)
Definition save_checkpoint (now wall : Z) (solver : KangarooSolver)
    (filename : string) (fs : FileSystem) : bool * FileSystem :=
  let stats := get_stats now solver in
  let data :=
    mkData get_checkpoint_version (uint64 wall)
      (stats_total_jumps stats) (stats_distinguished_points stats)
      (stats_current_range_start stats) (stats_current_range_end stats)
      (stats_threads_active stats)
      20   (* Default value, should be stored in solver *)
      [] [] [] [] in
  let written := write_json_checkpoint data filename fs in
  if fst written
  then (true, snd (backup_checkpoint wall filename (snd written)))
  else (false, snd written).

(** [CheckpointManager::load_checkpoint(solver, filename)]: the result
    and the solver, which the function never writes to. *)
Definition load_checkpoint (solver : KangarooSolver) (filename : string)
    (fs : FileSystem) : bool * KangarooSolver :=
  match files fs !! filename with
  | None => (false, solver)   (* Checkpoint file not found *)
  | Some _ =>
      let success := fst (read_json_checkpoint CheckpointData_new filename fs) in
      (success, solver)
  end.

End Checkpoint.

Import Checkpoint.

(** ** The C interface *)

Module CApi.

(** The process-wide state behind the C functions: the global
    [g_solver] ([None] is the null pointer) and the files. *)
Record World : Type := mkWorld {
  g_solver : option KangarooSolver;
  disk : FileSystem
}.

(** The state of a process that has made no call yet. *)
Definition World_new (fs : FileSystem) : World := mkWorld None fs.

(** [kangaroo_init]: the new instance replaces the old one before it is
    initialised. *)
Definition kangaroo_init (pubkey range_start range_end : string)
    (threads dist_bits : Z) (w : World) : bool * World :=
  let r := initialize pubkey range_start range_end threads dist_bits
             KangarooSolver_new in
  (fst r, mkWorld (Some (snd r)) (disk w)).

Definition kangaroo_start (now : Z) (w : World) : bool * World :=
  match g_solver w with
  | None => (false, w)
  | Some s => let r := start now s in (fst r, mkWorld (Some (snd r)) (disk w))
  end.

Definition kangaroo_stop (joined : WorkerWrites) (w : World) : World :=
  match g_solver w with
  | None => w
  | Some s => mkWorld (Some (stop joined s)) (disk w)
  end.

(** [kangaroo_get_stats(stats)]: [out] is what [stats] points to ([None]
    for a null pointer); the result and what it points to afterwards. *)
Definition kangaroo_get_stats (now : Z) (out : option KangarooStats) (w : World)
    : bool * option KangarooStats :=
  match g_solver w, out with
  | Some s, Some _ => (true, Some (get_stats now s))
  | _, _ => (false, out)
  end.

(** A null [filename] is [None]. *)
Definition kangaroo_save_checkpoint (now wall : Z) (filename : option string)
    (w : World) : bool * World :=
  match g_solver w, filename with
  | Some s, Some f =>
      let r := save_checkpoint now wall s f (disk w) in
      (fst r, mkWorld (g_solver w) (snd r))
  | _, _ => (false, w)
  end.

Definition kangaroo_load_checkpoint (filename : option string) (w : World)
    : bool * World :=
  match g_solver w, filename with
  | Some s, Some f =>
      let r := load_checkpoint s f (disk w) in
      (fst r, mkWorld (Some (snd r)) (disk w))
  | _, _ => (false, w)
  end.

End CApi.

Import CApi.

(** ** Notions used to state the properties *)

(** The character [bigint_to_hex] writes for the digit [d]. *)
Definition upper_digit (d : Z) : ascii := toupper (digit_char d).
(** The number a most-significant-first digit list denotes. *)
Definition digits_value (ds : list Z) : Z := fold_left (fun a d => 16 * a + d) ds 0.
Definition is_digit16 (d : Z) : Prop := 0 <= d < 16.

(** What the digit list of [n] satisfies: digits in range, the value,
    and how its length and its last [k] digits relate to [n]. *)
Definition digits_ok (n : Z) (ds : list Z) : Prop :=
  Forall is_digit16 ds /\
  digits_value ds = n /\
  (0 < List.length ds)%nat /\
  (forall k : nat, (k < List.length ds)%nat <-> (k = 0%nat \/ 16 ^ Z.of_nat k <= n)) /\
  (forall k : nat, (k <= List.length ds)%nat ->
     digits_value (drop (List.length ds - k) ds) = n mod 16 ^ Z.of_nat k).


(** The distance [precompute_jumps] gives entry [i] when the base is
    [2^base_jump_bits]. *)
Definition jump_distance_at (base_jump_bits i : Z) : BigInt :=
  bigint_add (bigint_shift_left bigint_one base_jump_bits) (bigint_from_int (i + 1)).

(** The worlds a process can be in while no call of [kangaroo_init] has
    returned [true]. *)
Inductive no_successful_init : World -> Prop :=
  | nsi_fresh fs : no_successful_init (World_new fs)
  | nsi_failed_init pubkey rs re threads bits w :
      no_successful_init w ->
      fst (kangaroo_init pubkey rs re threads bits w) = false ->
      no_successful_init (snd (kangaroo_init pubkey rs re threads bits w))
  | nsi_start now w :
      no_successful_init w -> no_successful_init (snd (kangaroo_start now w))
  | nsi_stop joined w :
      no_successful_init w -> no_successful_init (kangaroo_stop joined w)
  | nsi_save now wall filename w :
      no_successful_init w ->
      no_successful_init (snd (kangaroo_save_checkpoint now wall filename w))
  | nsi_load filename w :
      no_successful_init w ->
      no_successful_init (snd (kangaroo_load_checkpoint filename w)).

(** A disk with no file on it, every path writable. *)
Definition empty_disk : FileSystem := mkFS ∅ (fun _ => true).

(** What [stats] points to before a call: all zero. *)
Definition zero_stats : KangarooStats := mkStats 0 0 0 0 0 "" "" "" false.

(** Scenario S2 of the specification: a malformed public key. *)
Definition world_after_bad_init : World :=
  snd (kangaroo_init "deadbeef" "0" "100" 2 8 (World_new empty_disk)).

(** The generator as a compressed key and as the uncompressed key that
    [point_to_hex] writes. *)
Definition G_compressed : string :=
  "0279BE667EF9DCBBAC55A06295CE870B07029BFCDB2DCE28D959F2815B16F81798".
Definition G_uncompressed : string := point_to_hex SECP256K1_G.

(** The opposite of a point with reduced coordinates. *)
Definition opposite (p : ECPoint) : ECPoint :=
  if is_infinity p then p
  else mkPoint (x p) (bigint_mod (bigint_subtract bigint_zero (y p)) SECP256K1_P) false.

(** Every distance in the table is a hexadecimal string written by
    [bigint_to_hex], as the insertion branch of [add_distinguished_point]
    leaves it. *)
Definition distances_written (s : KangarooSolver) : Prop :=
  forall (key : string) (e : DistinguishedPoint),
    distinguished_points s !! key = Some e ->
    exists d : BigInt, dp_distance e = bigint_to_hex d.

(** *** A run of the engine

    The public key of the scalar 90 (0x5A), searched in [0, 0x100) with two
    threads and 8 distinguished bits. *)
Definition pubkey_90 : string :=
  "EB49FD9F510469F4FE540E4B0664410F216CBBC90D97AED62AF2E606110CC9196E638DF7A9105BBC34DB14F93706891D5D6406CBFCD76E174C481324A6C8912B".

(** The engine [initialize] leaves. *)
Definition engine_90 : KangarooSolver :=
  snd (initialize pubkey_90 "0" "100" 2 8 KangarooSolver_new).

Definition started_90 : KangarooSolver := snd (start 0 engine_90).

(** The wild worker takes two turns of its loop: from the target it jumps
    by 28 to the multiple 118 of the generator, which is distinguished,
    and publishes it. *)
Definition after_wild_90 : option KangarooSolver :=
  match wild_turn 0 started_90 (wild_begin started_90) with
  | Some (Continue s w) =>
      match wild_turn 0 s w with
      | Some (Continue s' _) => Some s'
      | _ => None
      end
  | _ => None
  end.

(** Then the tame worker starts, its generator yielding 118, and runs
    until it leaves its loop. *)
Definition final_90 : option KangarooSolver :=
  match after_wild_90 with
  | Some s =>
      match tame_begin 118 s with
      | Some w => tame_loop 1 0 118 s w
      | None => None
      end
  | None => None
  end.

(** The workers have written nothing beyond what [s] holds. *)
Definition nothing_more (s : KangarooSolver) : WorkerWrites :=
  mkWrites (total_jumps s) (total_distinguished_points s) (total_collisions s)
    (distinguished_points s) (solved s) (solution_key s).

(** *** Points and states for single calls *)

(** Two points of the curve with a short abscissa. *)
Definition point_x768 : ECPoint :=
  mkPoint 768 0xB9648617DDAB72E48ECFF42F27C3F4EA4A75D7A79178802D24D98F1C56664804 false.
Definition point_x1 : ECPoint :=
  mkPoint 1 0x4218F20AE6C646B363DB68605822FB14264CA8D2587FDD6FBC750D587E76A7EE false.

(** The multiple 118 of the generator. *)
Definition point_118 : ECPoint :=
  mkPoint 0xA7C0EA7395D8785253DE84833CCFFDB31DC81F9C32BB84A53EC1775D0FADAE00
          0xA26BECC5EA1819D33F876FF45961A83C19E16B89CE982871F58513F8FB152BCE false.

(** *** A run with a key the range does not hold

    The public key of the scalar [n - 71], its 128 coordinate digits,
    searched in [0, 0x100) with two threads and 8 distinguished bits. *)
Definition pubkey_m71 : string :=
  "290798C2B6476830DA12FE02287E9E777AA3FBA1C355B17A722D362F84614FBA1C72589232BBF9DE6772FF4308650DA2A4D63F6B24D5DCEB92FFC501BE6BBDB5".

(** The point that key denotes. *)
Definition point_m71 : ECPoint :=
  mkPoint 0x290798C2B6476830DA12FE02287E9E777AA3FBA1C355B17A722D362F84614FBA
          0x1C72589232BBF9DE6772FF4308650DA2A4D63F6B24D5DCEB92FFC501BE6BBDB5 false.

Definition engine_m71 : KangarooSolver :=
  snd (initialize pubkey_m71 "0" "100" 2 8 KangarooSolver_new).

Definition started_m71 : KangarooSolver := snd (start 0 engine_m71).

(** The wild worker takes two turns of its loop: from the target it jumps
    by 189 to the multiple 118 of the generator, which is distinguished,
    and publishes it. *)
Definition after_wild_m71 : option KangarooSolver :=
  match wild_turn 0 started_m71 (wild_begin started_m71) with
  | Some (Continue s w) =>
      match wild_turn 0 s w with
      | Some (Continue s' _) => Some s'
      | _ => None
      end
  | _ => None
  end.

(** ** Further functions of the sources *)

(** [KangarooSolver::string_to_point]: the inverse of [point_to_string];
    [std::string::find] gives the first colon. *)
Fixpoint find_char (c : ascii) (l : list ascii) : option nat :=
  match l with
  | [] => None
  | h :: t => if Ascii.eqb h c then Some O else S <$> find_char c t
  end.

Definition string_to_point (s : string) : ECPoint :=
  match find_char ":" (chars s) with
  | None => ECPoint_default   (* Invalid *)
  | Some colon_pos =>
      mkPoint (hex_to_bigint (substr 0 colon_pos s))
              (hex_to_bigint (substr_from (colon_pos + 1) s)) false
  end.

(** [KangarooSolver::worker_thread]: the walker a thread id gets
    ([thread_id % 2 == 0] is tame). *)
Definition worker_is_tame (thread_id : Z) : bool := Z.rem thread_id 2 =? 0.

(** [CheckpointManager::validate_checkpoint] *)
Definition validate_checkpoint (filename : string) (fs : FileSystem) : bool :=
  match files fs !! filename with
  | None => false
  | Some _ =>
      let r := read_json_checkpoint CheckpointData_new filename fs in
      if fst r then
        let data := snd r in
        if (String.eqb (cp_version data) "" || (cp_timestamp data =? 0))%bool
        then false
        else if (negb (Nat.eqb (List.length (dp_points data))
                               (List.length (dp_distances data))) ||
                 negb (Nat.eqb (List.length (dp_points data))
                               (List.length (dp_is_tame_flags data))) ||
                 negb (Nat.eqb (List.length (dp_points data))
                               (List.length (dp_timestamps data))))%bool
        then false
        else true
      else false
  end.

(** [CheckpointManager::get_checkpoint_info] *)
Definition get_checkpoint_info (filename : string) (fs : FileSystem)
    : CheckpointData :=
  if validate_checkpoint filename fs
  then snd (read_json_checkpoint CheckpointData_new filename fs)
  else CheckpointData_new.

(** The name [backup_checkpoint] gives the copy made at second [wall]. *)
Definition backup_name (wall : Z) (original_filename : string) : string :=
  (original_filename ++ ".backup." ++ to_dec wall)%string.

(** ** Further notions used to state the properties *)

(** [hex_to_bigint]'s input once an [0x] prefix is removed. *)
Definition clean_hex_of (hex : string) : string :=
  if (Nat.leb 2 (size hex) && String.eqb (substr 0 2 hex) "0x")%bool
  then substr_from 2 hex else hex.

(** [point_to_hex] without its [04] prefix: the two coordinates, each
    padded to 64 digits. *)
Definition raw_hex (point : ECPoint) : string :=
  (pad64 (bigint_to_hex (x point)) ++ pad64 (bigint_to_hex (y point)))%string.

(** Two engines with the same configuration and lifecycle members: all
    that the walkers and the table operations are not meant to write. *)
Definition same_config (s s' : KangarooSolver) : Prop :=
  target_point s' = target_point s /\
  range_start s' = range_start s /\
  range_end s' = range_end s /\
  num_threads s' = num_threads s /\
  distinguished_bits s' = distinguished_bits s /\
  distinguished_mask s' = distinguished_mask s /\
  running s' = running s /\
  worker_threads s' = worker_threads s /\
  jump_distances s' = jump_distances s /\
  jump_points s' = jump_points s /\
  start_time s' = start_time s.

(** Every entry of the table was published by a tame walker. *)
Definition all_tame (s : KangarooSolver) : Prop :=
  forall (key : string) (e : DistinguishedPoint),
    distinguished_points s !! key = Some e -> dp_is_tame e = true.

(** The counter of distinguished points is the number of entries. *)
Definition count_matches_table (s : KangarooSolver) : Prop :=
  total_distinguished_points s =
  uint64 (Z.of_nat (base.size (distinguished_points s))).

(** The engine and cursor a turn of a walker's loop leaves. *)
Definition turn_state (t : Turn) : KangarooSolver :=
  match t with Continue s _ => s | Leave s _ => s end.
Definition turn_walker (t : Turn) : Walker :=
  match t with Continue _ w => w | Leave _ w => w end.

(** Jumps a walker has made that the shared counter knows of or will be
    told of when the walker ends. *)
Definition jumps_accounted (s : KangarooSolver) (w : Walker) : Z :=
  uint64 (total_jumps s + local_jumps w mod report_interval).

(** A checkpoint record the writer can represent: counters and stamps in
    64 bits, the two [int]s in 32, and the four vectors of one length. *)
Definition data_representable (data : CheckpointData) : Prop :=
  0 <= cp_timestamp data < 2 ^ 64 /\
  0 <= cp_total_jumps data < 2 ^ 64 /\
  0 <= cp_distinguished_points_count data < 2 ^ 64 /\
  - 2 ^ 31 <= cp_num_threads data < 2 ^ 31 /\
  - 2 ^ 31 <= cp_distinguished_bits data < 2 ^ 31 /\
  List.length (dp_distances data) = List.length (dp_points data) /\
  List.length (dp_is_tame_flags data) = List.length (dp_points data) /\
  List.length (dp_timestamps data) = List.length (dp_points data) /\
  Forall (fun t => 0 <= t < 2 ^ 64) (dp_timestamps data).

(** The record [d] with further entries pushed onto its four vectors. *)
Definition with_entries (d : CheckpointData) (ps ds : list string) (ts : list bool)
    (sts : list Z) : CheckpointData :=
  mkData (cp_version d) (cp_timestamp d) (cp_total_jumps d)
    (cp_distinguished_points_count d) (cp_range_start d) (cp_range_end d)
    (cp_num_threads d) (cp_distinguished_bits d)
    (dp_points d ++ ps) (dp_distances d ++ ds) (dp_is_tame_flags d ++ ts)
    (dp_timestamps d ++ sts).

(** The four vectors of a record have one length. *)
Definition vectors_aligned (d : CheckpointData) : Prop :=
  List.length (dp_distances d) = List.length (dp_points d) /\
  List.length (dp_is_tame_flags d) = List.length (dp_points d) /\
  List.length (dp_timestamps d) = List.length (dp_points d).

(** Congruence modulo the field prime. *)
Definition eqp (a b : Z) : Prop := a mod SECP256K1_P = b mod SECP256K1_P.

(** * Properties *)

(** ** Hexadecimal digits *)

Ltac digit_cases d H :=
  let E := fresh "E" in
  assert (E : d = 0 \/ d = 1 \/ d = 2 \/ d = 3 \/ d = 4 \/ d = 5 \/ d = 6 \/ d = 7 \/
              d = 8 \/ d = 9 \/ d = 10 \/ d = 11 \/ d = 12 \/ d = 13 \/ d = 14 \/ d = 15)
    by (unfold is_digit16 in H; lia);
  repeat (destruct E as [E | E]; [subst d | ]); [.. | subst d].

Lemma chars_str l : chars (str l) = l.
Proof. apply list_ascii_of_string_of_list_ascii. Qed.

Lemma str_chars s : str (chars s) = s.
Proof. apply string_of_list_ascii_of_string. Qed.

Lemma size_str l : size (str l) = List.length l.
Proof. unfold size. now rewrite chars_str. Qed.

Lemma upper_digit_facts d :
  is_digit16 d ->
  hex_value (upper_digit d) = Some d /\
  isspace (upper_digit d) = false /\
  Ascii.eqb (upper_digit d) zero = false /\
  Ascii.eqb (upper_digit d) "-" = false /\
  Ascii.eqb (upper_digit d) "+" = false /\
  is_x (upper_digit d) = false.
Proof. intros H. digit_cases d H; vm_compute; repeat split; reflexivity. Qed.

Lemma digits_value_snoc ds d : digits_value (ds ++ [d]) = 16 * digits_value ds + d.
Proof. unfold digits_value. now rewrite fold_left_app. Qed.

Lemma digits_ok_small n : 0 <= n < 16 -> digits_ok n [n].
Proof.
  intros Hlt. unfold digits_ok. split_and!.
  - constructor; [unfold is_digit16; lia | constructor].
  - unfold digits_value; simpl; lia.
  - simpl; lia.
  - intros k; simpl; split.
    + intros Hk. destruct k; [now left | lia].
    + intros [-> | Hk]; [lia|]. destruct k; [lia|].
      assert (16 ^ 1 <= 16 ^ Z.of_nat (S k)) by (apply Z.pow_le_mono_r; lia). lia.
  - intros k Hk. simpl in Hk. destruct k as [|[|k]]; simpl in *; try lia.
    + unfold digits_value. simpl. now rewrite Z.mod_1_r.
    + unfold digits_value. simpl. rewrite Z.mod_small; lia.
Qed.

Lemma digits_ok_snoc n ds :
  16 <= n -> digits_ok (n / 16) ds -> digits_ok n (ds ++ [n mod 16]).
Proof.
  intros Hge (Hr & Hv & Hl & Hlen & Hdrop).
  assert (Hm : 0 <= n mod 16 < 16) by (apply Z.mod_pos_bound; lia).
  unfold digits_ok. split_and!.
  - apply Forall_app; split; [exact Hr | constructor; [exact Hm | constructor]].
  - rewrite digits_value_snoc, Hv. pose proof (Z_div_mod_eq_full n 16). lia.
  - rewrite length_app; simpl; lia.
  - intros k. rewrite length_app; simpl. split.
    + intros Hk. destruct k as [|k]; [now left | right].
      assert (Hk' : (k < List.length ds)%nat) by lia.
      apply Hlen in Hk'.
      rewrite Nat2Z.inj_succ, Z.pow_succ_r by lia.
      destruct Hk' as [-> | Hk']; [simpl; lia|].
      pose proof (Z.mul_div_le n 16 ltac:(lia)). nia.
    + intros [-> | Hk]; [lia|].
      destruct k as [|k]; [lia|].
      assert (Hk' : (k < List.length ds)%nat); [|lia].
      apply Hlen. destruct k as [|k]; [now left | right].
      rewrite Nat2Z.inj_succ, Z.pow_succ_r in Hk by lia.
      apply Z.div_le_lower_bound; lia.
  - intros k Hk.
    assert (Hlen' : List.length (ds ++ [n mod 16]) = S (List.length ds))
      by (rewrite length_app; simpl; lia).
    destruct k as [|k].
    + rewrite Nat.sub_0_r, drop_all. unfold digits_value; simpl.
      now rewrite Z.mod_1_r.
    + rewrite Hlen' in *.
      replace (S (List.length ds) - S k)%nat with (List.length ds - k)%nat by lia.
      rewrite drop_app_le by lia.
      rewrite digits_value_snoc, Hdrop by lia.
      rewrite Nat2Z.inj_succ, Z.pow_succ_r by lia.
      rewrite Z.rem_mul_r by lia. lia.
Qed.

Lemma digits16_ok f : forall n,
  0 <= n < 16 ^ Z.of_nat (S f) -> digits_ok n (digits16 (S f) n).
Proof.
  induction f as [|f IH]; intros n Hn.
  - simpl digits16. destruct (Z.ltb_spec n 16) as [Hlt | Hge].
    + apply digits_ok_small; lia.
    + change (16 ^ Z.of_nat 1) with 16 in Hn. lia.
  - change (digits16 (S (S f)) n)
      with (if n <? 16 then [n] else digits16 (S f) (n / 16) ++ [n mod 16]).
    destruct (Z.ltb_spec n 16) as [Hlt | Hge].
    + apply digits_ok_small; lia.
    + apply digits_ok_snoc; [lia|]. apply IH.
      split; [apply Z.div_pos; lia|].
      apply Z.div_lt_upper_bound; [lia|].
      replace (16 * 16 ^ Z.of_nat (S f)) with (16 ^ Z.of_nat (S (S f))); [lia|].
      rewrite (Nat2Z.inj_succ (S f)), Z.pow_succ_r; lia.
Qed.

Lemma hex_digits_ok n : 0 <= n -> digits_ok n (hex_digits n).
Proof.
  intros Hn. unfold hex_digits. apply digits16_ok. split; [lia|].
  destruct (Z.eq_dec n 0) as [-> | Hnz]; [simpl; lia|].
  pose proof (Z.log2_spec n ltac:(lia)) as [_ Hlt].
  rewrite Nat2Z.inj_succ, Z2Nat.id by apply Z.log2_nonneg.
  eapply Z.lt_le_trans; [exact Hlt|].
  rewrite <- Z.add_1_r.
  apply Z.pow_le_mono_l. lia.
Qed.

(** ** What [bigint_to_hex] writes and what the parsers read back *)

Lemma toupper_digit_char ds :
  map toupper (map digit_char ds) = map upper_digit ds.
Proof. now rewrite map_map. Qed.

Lemma chars_bigint_to_hex_nonneg a :
  0 <= a -> chars (bigint_to_hex a) = map upper_digit (hex_digits a).
Proof.
  intros Ha. unfold bigint_to_hex, mpz_get_str16.
  assert ((a <? 0) = false) as -> by lia.
  rewrite Z.abs_eq by lia. simpl app.
  now rewrite chars_str, toupper_digit_char.
Qed.

Lemma chars_bigint_to_hex_neg a :
  a < 0 -> chars (bigint_to_hex a) = "-"%char :: map upper_digit (hex_digits (- a)).
Proof.
  intros Ha. unfold bigint_to_hex, mpz_get_str16.
  assert ((a <? 0) = true) as -> by lia.
  rewrite Z.abs_neq by lia.
  now rewrite chars_str, map_app, toupper_digit_char.
Qed.

Lemma size_bigint_to_hex a :
  0 <= a -> size (bigint_to_hex a) = List.length (hex_digits a).
Proof.
  intros Ha. unfold size. now rewrite chars_bigint_to_hex_nonneg, length_map.
Qed.

Lemma read_hex_digits ds :
  Forall is_digit16 ds ->
  forall acc cnt rest,
    read_hex acc cnt (map upper_digit ds ++ rest) =
    read_hex (fold_left (fun a d => 16 * a + d) ds acc) (cnt + List.length ds) rest.
Proof.
  induction 1 as [|d ds Hd Hds IH]; intros acc cnt rest; simpl.
  - now rewrite Nat.add_0_r.
  - destruct (upper_digit_facts d Hd) as (-> & _).
    rewrite IH. f_equal. lia.
Qed.

Lemma read_hex_all ds :
  Forall is_digit16 ds ->
  read_hex 0 0 (map upper_digit ds) = (digits_value ds, List.length ds).
Proof.
  intros H. rewrite <- (app_nil_r (map upper_digit ds)).
  now rewrite read_hex_digits.
Qed.

Lemma c_str_digits ds :
  Forall is_digit16 ds -> c_str (map upper_digit ds) = map upper_digit ds.
Proof.
  induction 1 as [|d ds Hd Hds IH]; simpl; [reflexivity|].
  destruct (upper_digit_facts d Hd) as (_ & _ & -> & _). now rewrite IH.
Qed.

Lemma strtol16_digits ds :
  Forall is_digit16 ds -> ds <> [] ->
  strtol16 (map upper_digit ds) = Some (digits_value ds).
Proof.
  intros Hds Hne. destruct ds as [|d ds]; [congruence|].
  pose proof Hds as Hall. inversion Hds as [|? ? Hd Hrest]; subst.
  destruct (upper_digit_facts d Hd) as (_ & Hsp & _ & Hm & Hp & _).
  unfold strtol16. cbn [map skip_space]. rewrite Hsp, Hm, Hp. cbn [orb].
  assert (Hs3 : match upper_digit d :: map upper_digit ds with
                | z :: x :: h :: t =>
                    if (Ascii.eqb z "0" && is_x x && is_hex h)%bool
                    then h :: t else upper_digit d :: map upper_digit ds
                | _ => upper_digit d :: map upper_digit ds
                end = map upper_digit (d :: ds)).
  { destruct ds as [|d2 [|d3 ds]]; try reflexivity.
    inversion Hrest as [|? ? Hd2 _]; subst.
    destruct (upper_digit_facts d2 Hd2) as (_ & _ & _ & _ & _ & Hx).
    cbn [map]. rewrite Hx, andb_false_r. reflexivity. }
  rewrite Hs3, (read_hex_all _ Hall). reflexivity.
Qed.

Lemma digits_value_bound ds :
  Forall is_digit16 ds -> 0 <= digits_value ds < 16 ^ Z.of_nat (List.length ds).
Proof.
  induction ds as [|d ds IH] using rev_ind; intros H.
  - unfold digits_value; simpl; lia.
  - apply Forall_app in H as [H1 H2]. inversion H2 as [|? ? Hd _]; subst.
    rewrite digits_value_snoc, length_app. simpl List.length.
    rewrite Nat.add_1_r, Nat2Z.inj_succ, Z.pow_succ_r by lia.
    specialize (IH H1). unfold is_digit16 in Hd. lia.
Qed.

Lemma stoull16_digits ds :
  Forall is_digit16 ds -> ds <> [] -> (List.length ds <= 16)%nat ->
  stoull16 (str (map upper_digit ds)) = Some (digits_value ds).
Proof.
  intros Hds Hne Hlen. unfold stoull16.
  rewrite chars_str, c_str_digits, strtol16_digits by assumption.
  pose proof (digits_value_bound ds Hds) as Hb.
  assert (16 ^ Z.of_nat (List.length ds) <= 16 ^ 16) by (apply Z.pow_le_mono_r; lia).
  change (16 ^ 16) with (2 ^ 64) in *.
  rewrite Z.abs_eq by lia.
  assert ((digits_value ds <=? 2 ^ 64 - 1) = true) as -> by lia.
  unfold uint64. rewrite Z.mod_small by lia. reflexivity.
Qed.

Lemma stoi16_digits ds :
  Forall is_digit16 ds -> ds <> [] -> (List.length ds <= 7)%nat ->
  stoi16 (str (map upper_digit ds)) = Some (digits_value ds).
Proof.
  intros Hds Hne Hlen. unfold stoi16.
  rewrite chars_str, c_str_digits, strtol16_digits by assumption.
  pose proof (digits_value_bound ds Hds) as Hb.
  assert (16 ^ Z.of_nat (List.length ds) <= 16 ^ 7) by (apply Z.pow_le_mono_r; lia).
  change (16 ^ 7) with 268435456 in *.
  replace ((- 2 ^ 31 <=? digits_value ds) && (digits_value ds <=? 2 ^ 31 - 1))
    with true; [reflexivity|].
  symmetry. apply andb_true_intro. split; apply Z.leb_le; lia.
Qed.

(** The last [k] characters of the hexadecimal form of [a >= 0], when it
    has that many, are the digits of [a mod 16^k]. *)
Lemma last_digits_of_hex a (k : nat) :
  0 <= a -> (k <= size (bigint_to_hex a))%nat ->
  exists ds,
    substr_from (size (bigint_to_hex a) - k) (bigint_to_hex a) = str (map upper_digit ds) /\
    Forall is_digit16 ds /\ List.length ds = k /\ digits_value ds = a mod 16 ^ Z.of_nat k.
Proof.
  intros Ha Hk.
  destruct (hex_digits_ok a Ha) as (Hr & _ & _ & _ & Hdrop).
  rewrite size_bigint_to_hex in * by assumption.
  exists (drop (List.length (hex_digits a) - k) (hex_digits a)).
  split_and!.
  - unfold substr_from. rewrite chars_bigint_to_hex_nonneg by assumption.
    now rewrite skipn_map.
  - now apply Forall_drop.
  - rewrite length_skipn. lia.
  - now apply Hdrop.
Qed.

(** The hexadecimal form of [a >= 0] has more than [k] characters exactly
    when [a >= 16^k] (for [k >= 1]). *)
Lemma size_hex_gt a (k : nat) :
  0 <= a -> (0 < k)%nat ->
  Nat.leb (S k) (size (bigint_to_hex a)) = (16 ^ Z.of_nat k <=? a).
Proof.
  intros Ha Hk.
  destruct (hex_digits_ok a Ha) as (_ & _ & _ & Hlen & _).
  rewrite size_bigint_to_hex by assumption.
  specialize (Hlen k).
  destruct (Nat.leb_spec (S k) (List.length (hex_digits a))) as [H1 | H1];
    destruct (Z.leb_spec (16 ^ Z.of_nat k) a) as [H2 | H2]; try reflexivity.
  - assert (H3 : (k < List.length (hex_digits a))%nat) by lia.
    apply Hlen in H3 as [-> | H3]; lia.
  - assert ((k < List.length (hex_digits a))%nat) by (apply Hlen; now right). lia.
Qed.

(** ** What [initialize] establishes *)

Lemma map_as_fmap {A B} (f : A -> B) (l : list A) : map f l = f <$> l.
Proof. induction l as [|a l IH]; simpl; [reflexivity | now rewrite IH]. Qed.

Lemma precompute_loop_spec b n : forall i dists pts,
  precompute_loop n i b dists pts =
  (dists ++ map (fun j => jump_distance_at b (i + Z.of_nat j)) (seq 0 n),
   pts ++ map (fun j => point_multiply (jump_distance_at b (i + Z.of_nat j)) get_generator)
            (seq 0 n)).
Proof.
  induction n as [|n IH]; intros i dists pts.
  - simpl. now rewrite !app_nil_r.
  - cbn [precompute_loop]. rewrite IH.
    rewrite <- !app_assoc. cbn [seq map app].
    rewrite <- !seq_shift, !map_map.
    rewrite Z.add_0_r.
    f_equal; f_equal; f_equal; apply map_ext; intros j;
      (replace (i + 1 + Z.of_nat j) with (i + Z.of_nat (S j)) by lia); reflexivity.
Qed.

Lemma initialize_ok pubkey rs re threads bits s0 st :
  initialize pubkey rs re threads bits s0 = (true, st) ->
  range_start st = hex_to_bigint rs /\
  range_end st = hex_to_bigint re /\
  range_start st < range_end st /\
  num_threads st = Z.max 1 (Z.min 64 threads) /\
  distinguished_bits st = Z.max 8 (Z.min 32 bits) /\
  distinguished_mask st = 2 ^ distinguished_bits st - 1 /\
  hex_to_point pubkey (target_point s0) = (true, target_point st) /\
  (jump_distances st, jump_points st) =
    precompute_loop num_jumps 0
      (Z.max 1 (bigint_bit_length (range_end st - range_start st) / 2 - 8)) [] [].
Proof.
  unfold initialize.
  destruct (hex_to_point pubkey (target_point s0)) as [ok tp] eqn:Hp.
  cbn [fst snd]. destruct ok; cbn [negb]; [|discriminate].
  match goal with |- context [range_end ?s <=? range_start ?s] =>
    destruct (Z.leb_spec (range_end s) (range_start s)) as [Hle | Hlt] end;
    [discriminate|].
  intros [= <-]. cbn in Hlt. cbn.
  split_and!; try reflexivity; try lia.
  set (b := Z.max 8 (Z.min 32 bits)).
  assert (Hb : 8 <= b <= 32) by lia.
  rewrite Z.shiftl_1_l. unfold uint64.
  assert (2 ^ 8 <= 2 ^ b <= 2 ^ 32) by (split; apply Z.pow_le_mono_r; lia).
  rewrite (Z.mod_small (2 ^ b)) by lia.
  rewrite Z.mod_small by lia. reflexivity.
Qed.

(** ** The distinguished-point predicate *)

Lemma land_mask_zero v b :
  0 <= b <= 32 ->
  (Z.land (v mod 16 ^ 8) (2 ^ b - 1) =? 0) = (v mod 2 ^ b =? 0).
Proof.
  intros Hb.
  replace (2 ^ b - 1) with (Z.ones b) by (rewrite Z.ones_equiv; lia).
  rewrite Z.land_ones by lia.
  change (16 ^ 8) with (2 ^ 32).
  rewrite Z.mod_mod_divide; [reflexivity|].
  exists (2 ^ (32 - b)). rewrite <- Z.pow_add_r by lia. f_equal. lia.
Qed.

(** With the mask [2^b - 1] for [b <= 32], a point whose x-coordinate is
    not negative is distinguished exactly when the hexadecimal form of [x]
    has at least 8 digits and [x mod 2^b = 0]. *)
Lemma is_distinguished_mask (st : KangarooSolver) (b : Z) (P : ECPoint) :
  distinguished_mask st = 2 ^ b - 1 -> 0 <= b <= 32 -> 0 <= x P ->
  is_distinguished st P = Some ((2 ^ 28 <=? x P) && (x P mod 2 ^ b =? 0)).
Proof.
  intros Hmask Hb Hx. unfold is_distinguished.
  rewrite (size_hex_gt (x P) 7) by lia.
  change (16 ^ Z.of_nat 7) with (2 ^ 28).
  destruct (Z.leb_spec (2 ^ 28) (x P)) as [Hge | Hlt]; [|reflexivity].
  assert (Hsz : (8 <= size (bigint_to_hex (x P)))%nat).
  { apply Nat.leb_le. rewrite (size_hex_gt (x P) 7) by lia.
    change (16 ^ Z.of_nat 7) with (2 ^ 28). lia. }
  destruct (last_digits_of_hex (x P) 8 Hx Hsz) as (ds & -> & Hds & Hlen & Hval).
  rewrite stoull16_digits; [| assumption | intros ->; discriminate | lia].
  rewrite Hval, Hmask. change (16 ^ Z.of_nat 8) with (16 ^ 8).
  rewrite land_mask_zero by lia. reflexivity.
Qed.

(** C5, amended.  After [initialize], with [b = distinguished_bits] in
    [8, 32]: a point whose x-coordinate is not negative is distinguished
    exactly when the hexadecimal form of [x] has at least 8 digits
    ([x >= 2^28]) and [x mod 2^b = 0]; the call never throws. *)
Theorem is_distinguished_after_initialize
    pubkey rs re threads bits s0 st (P : ECPoint) :
  initialize pubkey rs re threads bits s0 = (true, st) ->
  0 <= x P ->
  8 <= distinguished_bits st <= 32 /\
  is_distinguished st P =
    Some ((2 ^ 28 <=? x P) && (x P mod 2 ^ distinguished_bits st =? 0)).
Proof.
  intros Hinit Hx.
  destruct (initialize_ok _ _ _ _ _ _ _ Hinit) as (_ & _ & _ & _ & Hbits & Hmask & _).
  assert (Hb : 8 <= distinguished_bits st <= 32) by lia.
  split; [exact Hb|].
  apply is_distinguished_mask; [exact Hmask | lia | exact Hx].
Qed.

(** ** The jump table *)

Lemma lookup_map_seq {A} (f : nat -> A) (n i : nat) :
  (i < n)%nat -> map f (seq 0 n) !! i = Some (f i).
Proof.
  intros Hi. rewrite map_as_fmap, list_lookup_fmap, lookup_seq_lt by assumption.
  reflexivity.
Qed.

Lemma jump_tables_of_initialize pubkey rs re threads bits s0 st :
  initialize pubkey rs re threads bits s0 = (true, st) ->
  let b := Z.max 1 (bigint_bit_length (range_end st - range_start st) / 2 - 8) in
  jump_distances st = map (fun j => jump_distance_at b (Z.of_nat j)) (seq 0 num_jumps) /\
  jump_points st =
    map (fun j => point_multiply (jump_distance_at b (Z.of_nat j)) get_generator)
      (seq 0 num_jumps).
Proof.
  intros Hinit b.
  destruct (initialize_ok _ _ _ _ _ _ _ Hinit) as (_ & _ & _ & _ & _ & _ & _ & Htab).
  rewrite precompute_loop_spec in Htab.
  pose proof (f_equal fst Htab) as Hd. pose proof (f_equal snd Htab) as Hp.
  cbn [fst snd app] in Hd, Hp. split; assumption.
Qed.

Lemma jump_table_size pubkey rs re threads bits s0 st :
  initialize pubkey rs re threads bits s0 = (true, st) ->
  List.length (jump_distances st) = 256%nat /\ List.length (jump_points st) = 256%nat.
Proof.
  intros Hinit.
  destruct (jump_tables_of_initialize _ _ _ _ _ _ _ Hinit) as [-> ->].
  now rewrite !length_map, !length_seq.
Qed.

(** C6.  After [initialize] the two tables have 256 entries each, entry
    [i] of [jump_distances] is [2^max(1, r/2 - 8) + (i + 1)] for [r] the
    bit length of [range_end - range_start], and entry [i] of
    [jump_points] is that multiple of the generator. *)
Theorem jump_table_after_initialize pubkey rs re threads bits s0 st :
  initialize pubkey rs re threads bits s0 = (true, st) ->
  let r := bigint_bit_length (bigint_subtract (range_end st) (range_start st)) in
  List.length (jump_distances st) = 256%nat /\
  List.length (jump_points st) = 256%nat /\
  forall i : Z, 0 <= i < 256 ->
    jump_distances st !! Z.to_nat i = Some (2 ^ Z.max 1 (r / 2 - 8) + (i + 1)) /\
    jump_points st !! Z.to_nat i =
      Some (point_multiply (2 ^ Z.max 1 (r / 2 - 8) + (i + 1)) get_generator).
Proof.
  intros Hinit r.
  destruct (jump_table_size _ _ _ _ _ _ _ Hinit) as [Hl1 Hl2].
  destruct (jump_tables_of_initialize _ _ _ _ _ _ _ Hinit) as [Hd Hp].
  split_and!; [exact Hl1 | exact Hl2 |].
  intros i Hi. rewrite Hd, Hp.
  assert (Hn : (Z.to_nat i < num_jumps)%nat) by (unfold num_jumps; lia).
  rewrite !lookup_map_seq by exact Hn.
  rewrite Z2Nat.id by lia.
  unfold jump_distance_at, bigint_add, bigint_shift_left, bigint_one, bigint_from_int.
  rewrite Z.shiftl_1_l. split; reflexivity.
Qed.

(** ** The jump index *)

(** With a table of 256 entries, the index of a point whose x-coordinate
    is not negative is [x mod 256] when the hexadecimal form of [x] has at
    least two digits and 0 otherwise. *)
Lemma get_jump_index_256 (st : KangarooSolver) (P : ECPoint) :
  List.length (jump_distances st) = 256%nat -> 0 <= x P ->
  get_jump_index st P = Some (if 16 <=? x P then x P mod 256 else 0).
Proof.
  intros Hlen Hx. unfold get_jump_index.
  rewrite (size_hex_gt (x P) 1) by lia.
  change (16 ^ Z.of_nat 1) with 16.
  destruct (Z.leb_spec 16 (x P)) as [Hge | Hlt]; [|reflexivity].
  assert (Hsz : (2 <= size (bigint_to_hex (x P)))%nat).
  { apply Nat.leb_le. rewrite (size_hex_gt (x P) 1) by lia.
    change (16 ^ Z.of_nat 1) with 16. lia. }
  destruct (last_digits_of_hex (x P) 2 Hx Hsz) as (ds & -> & Hds & Hl & Hval).
  rewrite stoi16_digits; [| assumption | intros ->; discriminate | lia].
  rewrite Hval, Hlen. change (16 ^ Z.of_nat 2) with 256.
  change (Z.of_nat 256) with 256. cbn [Z.eqb].
  pose proof (Z.mod_pos_bound (x P) 256 ltac:(lia)) as Hm.
  unfold uint64, int32.
  rewrite (Z.mod_small (x P mod 256) (2 ^ 64)) by lia.
  rewrite Z.mod_mod by lia.
  rewrite (Z.mod_small (x P mod 256 + 2 ^ 31)) by lia.
  f_equal. lia.
Qed.

(** C7, amended.  After [initialize], for a point whose x-coordinate is
    not negative the index is [x mod 256] when the hexadecimal form of
    [x] has at least two digits ([x >= 16]) and 0 otherwise; it depends
    on the x-coordinate alone. *)
Theorem get_jump_index_after_initialize
    pubkey rs re threads bits s0 st (P : ECPoint) :
  initialize pubkey rs re threads bits s0 = (true, st) ->
  0 <= x P ->
  get_jump_index st P = Some (if 16 <=? x P then x P mod 256 else 0) /\
  forall Q : ECPoint, x Q = x P -> get_jump_index st Q = get_jump_index st P.
Proof.
  intros Hinit Hx. split.
  - destruct (jump_table_size _ _ _ _ _ _ _ Hinit) as (Hlen & _).
    now apply get_jump_index_256.
  - intros Q HQ. unfold get_jump_index. now rewrite HQ.
Qed.

(** ** Distances written to the table are read back unchanged *)

Lemma filter_nospace_digits ds :
  Forall is_digit16 ds ->
  List.filter (fun c => negb (isspace c)) (map upper_digit ds) = map upper_digit ds.
Proof.
  induction 1 as [|d ds Hd Hds IH]; simpl; [reflexivity|].
  destruct (upper_digit_facts d Hd) as (_ & -> & _). simpl. now rewrite IH.
Qed.

Lemma mpz_set_str16_digits ds :
  Forall is_digit16 ds -> ds <> [] ->
  mpz_set_str16 (map upper_digit ds) = Some (digits_value ds).
Proof.
  intros Hds Hne. destruct ds as [|d ds]; [congruence|].
  pose proof Hds as Hall. inversion Hds as [|? ? Hd Hrest]; subst.
  destruct (upper_digit_facts d Hd) as (Hv & Hsp & _ & Hm & _).
  unfold mpz_set_str16. cbn [map skip_space]. rewrite Hsp, Hm.
  unfold is_hex. cbv beta. rewrite Hv.
  change (upper_digit d :: map upper_digit ds) with (map upper_digit (d :: ds)).
  rewrite filter_nospace_digits, read_hex_all by assumption.
  rewrite length_map, Nat.eqb_refl. reflexivity.
Qed.

Lemma mpz_set_str16_minus_digits ds :
  Forall is_digit16 ds -> ds <> [] ->
  mpz_set_str16 ("-"%char :: map upper_digit ds) = Some (- digits_value ds).
Proof.
  intros Hds Hne. destruct ds as [|d ds]; [congruence|].
  pose proof Hds as Hall. inversion Hds as [|? ? Hd Hrest]; subst.
  destruct (upper_digit_facts d Hd) as (Hv & _).
  unfold mpz_set_str16.
  change (skip_space ("-"%char :: map upper_digit (d :: ds)))
    with ("-"%char :: map upper_digit (d :: ds)).
  cbv iota beta. rewrite Ascii.eqb_refl. cbn [tail map].
  unfold is_hex. cbv beta. rewrite Hv.
  change (upper_digit d :: map upper_digit ds) with (map upper_digit (d :: ds)).
  rewrite filter_nospace_digits, read_hex_all by assumption.
  rewrite length_map, Nat.eqb_refl. reflexivity.
Qed.

Lemma no_0x_prefix_digits ds :
  Forall is_digit16 ds ->
  String.eqb (str (take 2 (map upper_digit ds))) "0x" = false.
Proof.
  intros Hds. destruct ds as [|d1 [|d2 ds]]; try reflexivity.
  - cbn. destruct (Ascii.eqb (upper_digit d1) "0"); reflexivity.
  - inversion Hds as [|? ? _ Hrest]; subst. inversion Hrest as [|? ? Hd2 _]; subst.
    destruct (upper_digit_facts d2 Hd2) as (_ & _ & _ & _ & _ & Hx).
    unfold is_x in Hx. apply orb_false_elim in Hx as [Hx _].
    cbn. rewrite Hx. destruct (Ascii.eqb (upper_digit d1) "0"); reflexivity.
Qed.

(** [hex_to_bigint] undoes [bigint_to_hex], for every integer. *)
Lemma hex_to_bigint_to_hex a : hex_to_bigint (bigint_to_hex a) = a.
Proof.
  unfold hex_to_bigint, substr, substr_from. rewrite drop_0.
  destruct (Z.lt_ge_cases a 0) as [Hneg | Hpos].
  - rewrite chars_bigint_to_hex_neg by assumption.
    destruct (hex_digits_ok (- a) ltac:(lia)) as (Hr & Hv & Hl & _).
    assert (Hne : hex_digits (- a) <> []) by (intros E; rewrite E in Hl; simpl in Hl; lia).
    replace (Nat.leb 2 (size (bigint_to_hex a)) &&
             String.eqb (str (take 2 ("-"%char :: map upper_digit (hex_digits (- a))))) "0x")%bool
      with false.
    2:{ symmetry. apply andb_false_intro2.
        destruct (hex_digits (- a)); [congruence | reflexivity]. }
    cbv iota. rewrite chars_bigint_to_hex_neg by assumption.
    assert (Hc : c_str ("-"%char :: map upper_digit (hex_digits (- a))) =
                 "-"%char :: map upper_digit (hex_digits (- a))).
    { cbn [c_str]. change (Ascii.eqb "-" zero) with false. cbn iota.
      now rewrite c_str_digits. }
    rewrite Hc, mpz_set_str16_minus_digits, Hv by assumption. lia.
  - rewrite chars_bigint_to_hex_nonneg by lia.
    destruct (hex_digits_ok a ltac:(lia)) as (Hr & Hv & Hl & _).
    assert (Hne : hex_digits a <> []) by (intros E; rewrite E in Hl; simpl in Hl; lia).
    rewrite no_0x_prefix_digits, andb_false_r by assumption.
    cbv iota. rewrite chars_bigint_to_hex_nonneg by lia.
    rewrite c_str_digits, mpz_set_str16_digits, Hv by assumption. reflexivity.
Qed.

(** ** Publishing a distinguished point *)

(** C2, amended.  When [add_distinguished_point] finds an entry of the
    other kind under the point's key, holding the distance [d_e] as the
    insertion branch writes it, the candidate is the tame distance minus
    the wild distance, not reduced modulo the curve order, and the call
    returns [true] exactly when that multiple of the generator equals the
    target; the collision counter goes up by one either way, and on
    [true] the candidate is stored as the solution. *)
Theorem add_distinguished_point_collision
    now (point : ECPoint) (dist : BigInt) (is_tame : bool)
    (s : KangarooSolver) (existing : DistinguishedPoint) (d_e : BigInt) :
  distinguished_points s !! point_to_string point = Some existing ->
  dp_is_tame existing = negb is_tame ->
  dp_distance existing = bigint_to_hex d_e ->
  let d_T := if is_tame then dist else d_e in
  let d_W := if is_tame then d_e else dist in
  let k := d_T - d_W in
  let r := add_distinguished_point now point dist is_tame s in
  fst r = point_equals (point_multiply k get_generator) (target_point s) /\
  total_collisions (snd r) = fetch_add (total_collisions s) 1 /\
  distinguished_points (snd r) = distinguished_points s /\
  (fst r = true -> solution_key (snd r) = k).
Proof.
  intros Hlook Hkind Hdist d_T d_W k r.
  subst r. unfold add_distinguished_point. rewrite Hlook, Hkind, Hdist.
  rewrite hex_to_bigint_to_hex.
  assert (Hne : negb (Bool.eqb (negb is_tame) is_tame) = true)
    by (destruct is_tame; reflexivity).
  rewrite Hne.
  assert (Hk : (if is_tame then bigint_subtract dist d_e else bigint_subtract d_e dist) = k)
    by (subst k d_T d_W; destruct is_tame; reflexivity).
  rewrite Hk. cbn [target_point set_total_collisions].
  destruct (point_equals (point_multiply k get_generator) (target_point s));
    cbn; split_and!; try reflexivity; intros; try discriminate; reflexivity.
Qed.

(** ** Decoding a public key *)

(** C3, on the code.  The compressed form of the generator is accepted,
    with the placeholder ordinate 1 in place of the one the prefix
    selects, and the point handed back is not on the curve; and the
    130-character uncompressed form written by [point_to_hex] is refused
    although the point is on the curve. *)
Theorem hex_to_point_accepts_compressed :
  hex_to_point G_compressed ECPoint_default =
    (true, mkPoint (x SECP256K1_G) 1 false) /\
  point_is_on_curve (mkPoint (x SECP256K1_G) 1 false) = false /\
  size G_uncompressed = 130%nat /\
  point_is_on_curve SECP256K1_G = true /\
  fst (hex_to_point G_uncompressed ECPoint_default) = false.
Proof. vm_compute. repeat split; reflexivity. Qed.

(** ** Starting and stopping *)

(** C8.  [start] on a running engine returns [false] and leaves the
    engine as it is; otherwise it returns [true] with the table empty,
    the three counters zero, the start time recorded and one worker per
    configured thread.  [stop] leaves [running] false and no worker
    unjoined, does nothing on an engine that is not running, and a second
    [stop] changes nothing. *)
Theorem start_stop_lifecycle (now : Z) (w w' : WorkerWrites) (s : KangarooSolver) :
  (running s = true -> start now s = (false, s)) /\
  (running s = false ->
     let s' := snd (start now s) in
     fst (start now s) = true /\
     running s' = true /\ solved s' = false /\
     distinguished_points s' = ∅ /\
     total_jumps s' = 0 /\ total_distinguished_points s' = 0 /\
     total_collisions s' = 0 /\
     start_time s' = now /\
     worker_threads s' = spawned (num_threads s) /\
     List.length (worker_threads s') = Z.to_nat (num_threads s)) /\
  is_running (stop w s) = false /\
  (running s = true -> worker_threads (stop w s) = []) /\
  (running s = false -> stop w s = s) /\
  stop w' (stop w s) = stop w s.
Proof.
  split_and!.
  - intros H. unfold start. now rewrite H.
  - intros H. unfold start. rewrite H. cbn.
    split_and!; try reflexivity.
    unfold spawned. now rewrite length_map, length_seq.
  - unfold is_running, stop. destruct (running s) eqn:H; cbn; [reflexivity | exact H].
  - intros H. unfold stop. rewrite H. reflexivity.
  - intros H. unfold stop. rewrite H. reflexivity.
  - destruct (running s) eqn:H; unfold stop; rewrite H; cbn; rewrite ?H; reflexivity.
Qed.

(** The lifecycle on a freshly constructed engine and on that engine
    once started. *)
Lemma start_stop_lifecycle_witness :
  fst (start 7 KangarooSolver_new) = true /\
  start 8 (snd (start 7 KangarooSolver_new)) = (false, snd (start 7 KangarooSolver_new)).
Proof.
  split.
  - apply (proj1 (proj2 (start_stop_lifecycle 7
             (mkWrites 0 0 0 ∅ false 0) (mkWrites 0 0 0 ∅ false 0) KangarooSolver_new))).
    reflexivity.
  - apply (proj1 (start_stop_lifecycle 8
             (mkWrites 0 0 0 ∅ false 0) (mkWrites 0 0 0 ∅ false 0)
             (snd (start 7 KangarooSolver_new)))).
    reflexivity.
Defined.

(** ** The C interface *)

(** C10, as stated, fails: after a call of [kangaroo_init] that returned
    [false] the instance exists all the same, and [kangaroo_get_stats]
    and [kangaroo_start] succeed on it. *)
Lemma failed_init_leaves_instance :
  no_successful_init world_after_bad_init /\
  fst (kangaroo_init "deadbeef" "0" "100" 2 8 (World_new empty_disk)) = false /\
  fst (kangaroo_get_stats 0 (Some zero_stats) world_after_bad_init) = true /\
  fst (kangaroo_start 0 world_after_bad_init) = true.
Proof.
  split; [|vm_compute; repeat split; reflexivity].
  apply nsi_failed_init; [apply nsi_fresh | vm_compute; reflexivity].
Qed.

(** C10, amended.  While no instance exists (no call of [kangaroo_init]
    has been made, successful or not), [kangaroo_start],
    [kangaroo_save_checkpoint] and [kangaroo_load_checkpoint] return
    [false], [kangaroo_stop] returns, and [kangaroo_get_stats] returns
    [false], all without changing anything; [kangaroo_get_stats] also
    returns [false] on a null pointer, whatever the instance. *)
Theorem c_interface_without_instance
    (now wall : Z) (joined : WorkerWrites) (out : option KangarooStats)
    (filename : option string) (w : World) :
  (g_solver w = None ->
     kangaroo_start now w = (false, w) /\
     kangaroo_save_checkpoint now wall filename w = (false, w) /\
     kangaroo_load_checkpoint filename w = (false, w) /\
     kangaroo_stop joined w = w /\
     kangaroo_get_stats now out w = (false, out)) /\
  kangaroo_get_stats now None w = (false, None).
Proof.
  split.
  - intros H.
    unfold kangaroo_start, kangaroo_save_checkpoint, kangaroo_load_checkpoint,
      kangaroo_stop, kangaroo_get_stats.
    rewrite H. split_and!; reflexivity.
  - unfold kangaroo_get_stats. destruct (g_solver w); reflexivity.
Qed.

(** The interface of a process that has made no call. *)
Lemma c_interface_without_instance_witness :
  kangaroo_start 0 (World_new empty_disk) = (false, World_new empty_disk) /\
  kangaroo_get_stats 0 (Some zero_stats) (World_new empty_disk) = (false, Some zero_stats).
Proof.
  destruct (proj1 (c_interface_without_instance 0 0 (mkWrites 0 0 0 ∅ false 0)
                     (Some zero_stats) None (World_new empty_disk)) eq_refl)
    as (H1 & _ & _ & _ & H5).
  exact (conj H1 H5).
Defined.

(** ** The run for the key 90 *)

Lemma engine_90_initialized :
  initialize pubkey_90 "0" "100" 2 8 KangarooSolver_new = (true, engine_90).
Proof. exact_no_check (@eq_refl (bool * KangarooSolver) (true, engine_90)). Qed.

(** What the run leaves behind, computed. *)
Lemma final_90_summary :
  match final_90 with
  | Some s =>
      is_solved s = true /\
      total_collisions s = 1 /\
      solution_key s = 118 /\
      stats_is_solved (get_stats 1 s) = true /\
      stats_found_key (get_stats 1 s) = "76"%string /\
      point_equals (point_multiply (solution_key s) get_generator) (target_point s) = false /\
      point_equals (point_multiply 90 get_generator) (target_point s) = true
  | None => False
  end.
Proof.
  exact_no_check
    (conj (@eq_refl bool true) (conj (@eq_refl Z 1) (conj (@eq_refl Z 118)
      (conj (@eq_refl bool true) (conj (@eq_refl string "76"%string)
        (conj (@eq_refl bool false) (@eq_refl bool true))))))).
Qed.

(** C1, on the code.  The key is 90 (0x5A) and the range [0, 0x100).  The
    wild worker publishes the distinguished multiple 118 at distance 28;
    the tame worker starts on it at distance 118.  The collision is
    verified with the difference 90, and the engine ends solved; but the
    solution it stores and reports is the tame walker's own distance, 118
    ([found_key] is 76), whose multiple of the generator is not the
    target. *)
Theorem solved_engine_reports_walker_distance :
  exists s : KangarooSolver,
    final_90 = Some s /\
    is_solved s = true /\
    total_collisions s = 1 /\
    solution_key s = 118 /\
    stats_is_solved (get_stats 1 s) = true /\
    stats_found_key (get_stats 1 s) = "76"%string /\
    point_equals (point_multiply (solution_key s) get_generator) (target_point s) = false /\
    point_equals (point_multiply 90 get_generator) (target_point s) = true /\
    bigint_to_hex 90 = "5A"%string.
Proof.
  pose proof final_90_summary as H.
  destruct final_90 as [s|]; [|contradiction].
  exists s. destruct H as (H1 & H2 & H3 & H4 & H5 & H6 & H7).
  split_and!; try assumption; reflexivity.
Qed.

(** ** Checkpoints *)

Lemma checkpoint_90_summary :
  match after_wild_90 with
  | Some s =>
      let saved := save_checkpoint 3 1700000000 s "checkpoint.json" empty_disk in
      let restarted := snd (start 9 (stop (nothing_more s) s)) in
      let loaded := load_checkpoint restarted "checkpoint.json" (snd saved) in
      distinguished_bits s = 8 /\
      dp_distance <$> (distinguished_points s !! point_to_string point_118)
        = Some "1C"%string /\
      fst saved = true /\
      read_json_checkpoint CheckpointData_new "checkpoint.json" (snd saved)
        = (true, mkData "1.0.0" 1700000000 0 1 "0" "100" 2 20 [] [] [] []) /\
      fst loaded = true /\
      total_distinguished_points (snd loaded) = 0 /\
      distinguished_points (snd loaded) !! point_to_string point_118 = None
  | None => False
  end.
Proof.
  exact_no_check
    (conj (@eq_refl Z 8) (conj (@eq_refl (option string) (Some "1C"%string))
      (conj (@eq_refl bool true)
        (conj (@eq_refl (bool * CheckpointData)
                 (true, mkData "1.0.0" 1700000000 0 1 "0" "100" 2 20 [] [] [] []))
          (conj (@eq_refl bool true)
            (conj (@eq_refl Z 0) (@eq_refl (option DistinguishedPoint) None))))))).
Qed.

(** [load_checkpoint] hands the solver back as it received it. *)
Lemma load_checkpoint_keeps_solver solver filename fs :
  snd (load_checkpoint solver filename fs) = solver.
Proof. unfold load_checkpoint. destruct (files fs !! filename); reflexivity. Qed.

(** C4, on the code.  The engine of the run above, once the wild worker
    has published its point: 8 distinguished bits and one entry in the
    table.  The checkpoint it saves reads back with 20 distinguished bits
    and no entry at all (the count alone says 1); and loading it into the
    engine after a restart succeeds and leaves the table empty and the
    counter zero. *)
Theorem checkpoint_loses_table_and_bits :
  exists (s : KangarooSolver) (fs : FileSystem) (data : CheckpointData),
    after_wild_90 = Some s /\
    distinguished_bits s = 8 /\
    dp_distance <$> (distinguished_points s !! point_to_string point_118)
      = Some "1C"%string /\
    save_checkpoint 3 1700000000 s "checkpoint.json" empty_disk = (true, fs) /\
    read_json_checkpoint CheckpointData_new "checkpoint.json" fs = (true, data) /\
    cp_distinguished_bits data = 20 /\
    cp_distinguished_points_count data = 1 /\
    dp_points data = [] /\ dp_distances data = [] /\
    let restarted := snd (start 9 (stop (nothing_more s) s)) in
    let loaded := load_checkpoint restarted "checkpoint.json" fs in
    fst loaded = true /\
    snd loaded = restarted /\
    total_distinguished_points (snd loaded) = 0 /\
    distinguished_points (snd loaded) !! point_to_string point_118 = None.
Proof.
  pose proof checkpoint_90_summary as H.
  destruct after_wild_90 as [s|]; [|contradiction].
  cbv zeta in H. destruct H as (H1 & H2 & H3 & H4 & H5 & H6 & H7).
  exists s, (snd (save_checkpoint 3 1700000000 s "checkpoint.json" empty_disk)),
    (mkData "1.0.0" 1700000000 0 1 "0" "100" 2 20 [] [] [] []).
  cbv zeta. split_and!; try assumption; reflexivity.
Qed.

(** ** Single calls and the run for the key n - 71 *)

(** The run for the key [n - 71], computed: what the wild worker leaves
    in the table, and what the tame worker that starts on the multiple
    118 gets from [add_distinguished_point] in its first turn. *)
Lemma after_wild_m71_summary :
  match after_wild_m71 with
  | Some s =>
      fst (initialize pubkey_m71 "0" "100" 2 8 KangarooSolver_new) = true /\
      target_point s = point_m71 /\
      distinguished_points s !! point_to_string point_118
        = Some (mkDP point_118 "BD" false 0) /\
      tame_begin 118 s = Some (mkWalker point_118 118 0) /\
      is_distinguished s point_118 = Some true /\
      fst (add_distinguished_point 0 point_118 118 true s) = false /\
      match tame_turn 0 118 s (mkWalker point_118 118 0) with
      | Some (Continue s' _) => total_collisions s' = 1 /\ solved s' = false
      | _ => False
      end
  | None => False
  end.
Proof.
  exact_no_check
    (conj (@eq_refl bool true) (conj (@eq_refl ECPoint point_m71)
      (conj (@eq_refl (option DistinguishedPoint) (Some (mkDP point_118 "BD" false 0)))
        (conj (@eq_refl (option Walker) (Some (mkWalker point_118 118 0)))
          (conj (@eq_refl (option bool) (Some true))
            (conj (@eq_refl bool false)
              (conj (@eq_refl Z 1) (@eq_refl bool false)))))))).
Qed.

(** The multiple [(118 - 189) mod n = n - 71] of the generator. *)
Lemma multiple_m71 :
  point_equals (point_multiply ((118 - 189) mod SECP256K1_N) get_generator)
    point_m71 = true.
Proof. vm_cast_no_check (@eq_refl bool true). Qed.

(** C2, as stated, fails, on a run of the engine.  The key is [n - 71],
    searched in [0, 0x100) with 8 distinguished bits.  The wild worker
    jumps by 189 from the target onto the multiple 118 of the generator,
    which is distinguished, and publishes it at distance 189.  A tame
    worker that starts on 118 finds that entry: the difference 118 - 189
    reduced modulo [n] is [n - 71], whose multiple of the generator is the
    target; the call multiplies by -71 instead, gets the point at
    infinity and returns [false], and the walker goes on with one
    collision counted and nothing solved. *)
Theorem negative_difference_is_rejected :
  exists s : KangarooSolver,
    fst (initialize pubkey_m71 "0" "100" 2 8 KangarooSolver_new) = true /\
    after_wild_m71 = Some s /\
    (dp_is_tame <$> distinguished_points s !! point_to_string point_118) = Some false /\
    (hex_to_bigint <$>
       (dp_distance <$> distinguished_points s !! point_to_string point_118)) = Some 189 /\
    tame_begin 118 s = Some (mkWalker point_118 118 0) /\
    is_distinguished s point_118 = Some true /\
    point_equals (point_multiply ((118 - 189) mod SECP256K1_N) get_generator)
      (target_point s) = true /\
    fst (add_distinguished_point 0 point_118 118 true s) = false /\
    match tame_turn 0 118 s (mkWalker point_118 118 0) with
    | Some (Continue s' _) => total_collisions s' = 1 /\ solved s' = false
    | _ => False
    end.
Proof.
  pose proof after_wild_m71_summary as H.
  destruct after_wild_m71 as [s|]; [|contradiction].
  destruct H as (Hinit & Htarget & Hentry & Hbegin & Hdist & Hcall & Hturn).
  exists s. split; [exact Hinit|]. split; [reflexivity|].
  rewrite Hentry, Htarget.
  split; [reflexivity|]. split; [reflexivity|]. split; [exact Hbegin|].
  split; [exact Hdist|]. split; [exact multiple_m71|].
  split; [exact Hcall | exact Hturn].
Qed.

(** The call of the run above, through the theorem: the difference is
    118 - 189 and is not reduced. *)
Lemma add_distinguished_point_collision_witness :
  match after_wild_m71 with
  | Some s =>
      fst (add_distinguished_point 0 point_118 118 true s) =
        point_equals (point_multiply (118 - 189) get_generator) (target_point s)
  | None => False
  end.
Proof.
  pose proof after_wild_m71_summary as H.
  destruct after_wild_m71 as [s|]; [|contradiction].
  destruct H as (_ & _ & Hentry & _).
  exact (proj1 (add_distinguished_point_collision 0 point_118 118 true s
                  (mkDP point_118 "BD" false 0) 189 Hentry eq_refl eq_refl)).
Defined.

(** C5, as stated, fails: the point of abscissa 768 = 0x300 is on the
    curve and its 8 low bits are zero, yet the engine configured with 8
    distinguished bits does not take it for distinguished. *)
Lemma short_abscissa_is_not_distinguished :
  point_is_on_curve point_x768 = true /\
  is_infinity point_x768 = false /\
  distinguished_bits engine_90 = 8 /\
  x point_x768 mod 2 ^ 8 = 0 /\
  is_distinguished engine_90 point_x768 = Some false.
Proof.
  exact_no_check
    (conj (@eq_refl bool true) (conj (@eq_refl bool false) (conj (@eq_refl Z 8)
      (conj (@eq_refl Z 0) (@eq_refl (option bool) (Some false)))))).
Qed.

Lemma is_distinguished_after_initialize_witness :
  8 <= distinguished_bits engine_90 <= 32 /\
  is_distinguished engine_90 point_118 =
    Some ((2 ^ 28 <=? x point_118) && (x point_118 mod 2 ^ distinguished_bits engine_90 =? 0)).
Proof.
  apply (is_distinguished_after_initialize pubkey_90 "0" "100" 2 8 KangarooSolver_new
           engine_90 point_118 engine_90_initialized).
  vm_compute. discriminate.
Defined.

Lemma jump_table_after_initialize_witness :
  List.length (jump_distances engine_90) = 256%nat /\
  List.length (jump_points engine_90) = 256%nat /\
  forall i : Z, 0 <= i < 256 ->
    jump_distances engine_90 !! Z.to_nat i =
      Some (2 ^ Z.max 1 (bigint_bit_length
                           (bigint_subtract (range_end engine_90) (range_start engine_90))
                         / 2 - 8) + (i + 1)) /\
    jump_points engine_90 !! Z.to_nat i =
      Some (point_multiply
              (2 ^ Z.max 1 (bigint_bit_length
                              (bigint_subtract (range_end engine_90) (range_start engine_90))
                            / 2 - 8) + (i + 1))
              get_generator).
Proof.
  exact (jump_table_after_initialize pubkey_90 "0" "100" 2 8 KangarooSolver_new
           engine_90 engine_90_initialized).
Defined.

(** C7, as stated, fails: the point of abscissa 1 is on the curve, and
    its index is 0, not 1. *)
Lemma single_digit_abscissa_index :
  point_is_on_curve point_x1 = true /\
  is_infinity point_x1 = false /\
  x point_x1 mod 256 = 1 /\
  List.length (jump_distances engine_90) = 256%nat /\
  get_jump_index engine_90 point_x1 = Some 0.
Proof.
  exact_no_check
    (conj (@eq_refl bool true) (conj (@eq_refl bool false) (conj (@eq_refl Z 1)
      (conj (@eq_refl nat 256%nat) (@eq_refl (option Z) (Some 0)))))).
Qed.

Lemma get_jump_index_after_initialize_witness :
  get_jump_index engine_90 point_118 =
    Some (if 16 <=? x point_118 then x point_118 mod 256 else 0) /\
  forall Q : ECPoint, x Q = x point_118 ->
    get_jump_index engine_90 Q = get_jump_index engine_90 point_118.
Proof.
  apply (get_jump_index_after_initialize pubkey_90 "0" "100" 2 8 KangarooSolver_new
           engine_90 point_118 engine_90_initialized).
  vm_compute. discriminate.
Defined.

(** ** The table only holds distances written by [bigint_to_hex] *)

Lemma start_distances_written now s : distances_written (snd (start now s)) \/ running s = true.
Proof.
  destruct (running s) eqn:H; [now right | left].
  unfold start. rewrite H. intros key e. cbn. intros He.
  rewrite lookup_empty in He. discriminate.
Qed.

Lemma add_distinguished_point_distances_written now point dist is_tame s :
  distances_written s ->
  distances_written (snd (add_distinguished_point now point dist is_tame s)).
Proof.
  intros Hs. unfold add_distinguished_point.
  destruct (distinguished_points s !! point_to_string point) as [existing|] eqn:Hl.
  - destruct (negb (Bool.eqb (dp_is_tame existing) is_tame)); [|exact Hs].
    match goal with |- context [if ?c then _ else _] => destruct c end; exact Hs.
  - intros key e. cbn.
    destruct (decide (point_to_string point = key)) as [<- | Hne].
    + rewrite lookup_insert_eq. intros [= <-]. now exists dist.
    + rewrite lookup_insert_ne by exact Hne. apply Hs.
Qed.

(** ** Curve laws that follow from the shape of the code

    (the two laws of C9 that need the group structure of the curve, the
    order of every point and the closure of the curve under addition, are
    not among them). *)

Lemma bigint_compare_refl a : bigint_compare a a = 0.
Proof. unfold bigint_compare. now rewrite Z.compare_refl. Qed.

Lemma bigint_compare_eq a b : (bigint_compare a b =? 0) = (a =? b).
Proof.
  unfold bigint_compare. destruct (Z.eqb_spec a b) as [-> | Hne].
  - now rewrite Z.compare_refl.
  - destruct (a ?= b) eqn:E; try reflexivity.
    apply Z.compare_eq in E. contradiction.
Qed.

Lemma point_add_infinity_l (q : ECPoint) : point_add ECPoint_infinity q = q.
Proof. reflexivity. Qed.

Lemma point_add_infinity_r (p o : ECPoint) :
  is_infinity o = true -> point_equals (point_add p o) p = true.
Proof.
  intros Ho. unfold point_add. destruct (is_infinity p) eqn:Hp.
  - unfold point_equals. now rewrite Ho, Hp.
  - rewrite Ho. unfold point_equals. rewrite Hp. cbn [andb orb].
    now rewrite !bigint_compare_refl.
Qed.

Lemma point_add_same (p : ECPoint) : point_add p p = point_double p.
Proof.
  unfold point_add, point_double.
  destruct (is_infinity p); [reflexivity|].
  now rewrite !bigint_compare_refl.
Qed.

Lemma point_add_opposite (p : ECPoint) :
  0 <= y p < SECP256K1_P -> is_infinity (point_add p (opposite p)) = true.
Proof.
  intros Hy. unfold opposite, point_add.
  destruct (is_infinity p) eqn:Hp; [exact Hp|].
  cbn [is_infinity x y]. rewrite bigint_compare_refl. cbn [Z.eqb].
  rewrite bigint_compare_eq.
  destruct (Z.eqb_spec (y p)
              (bigint_mod (bigint_subtract bigint_zero (y p)) SECP256K1_P)) as [E | E];
    [|reflexivity].
  assert (Hz : y p = 0).
  { unfold bigint_mod, bigint_subtract, bigint_zero in E.
    change (Z.abs SECP256K1_P) with SECP256K1_P in E.
    destruct (Z.eq_dec (y p) 0) as [H0 | H0]; [exact H0|].
    rewrite Z.sub_0_l in E.
    assert (Hm : (- y p) mod SECP256K1_P = SECP256K1_P - y p).
    { symmetry. apply Z.mod_unique_pos with (q := -1); lia. }
    rewrite Hm in E. unfold SECP256K1_P in E. lia. }
  unfold point_double. rewrite Hp, Hz. reflexivity.
Qed.

Lemma point_multiply_0 (p : ECPoint) : is_infinity (point_multiply 0 p) = true.
Proof. unfold point_multiply. destruct (is_infinity p) eqn:Hp; [exact Hp | reflexivity]. Qed.

Lemma point_multiply_1 (p : ECPoint) : point_multiply 1 p = p.
Proof. unfold point_multiply. destruct (is_infinity p); reflexivity. Qed.

Lemma generator_on_curve : point_is_on_curve SECP256K1_G = true.
Proof. vm_compute. reflexivity. Qed.

(** * Further properties of the code *)

(** ** Strings *)

Lemma chars_append (a b : string) : chars (a ++ b)%string = chars a ++ chars b.
Proof.
  unfold chars. induction a as [|c a IH]; simpl; [reflexivity | now rewrite IH].
Qed.

Lemma str_app (l1 l2 : list ascii) : str (l1 ++ l2) = (str l1 ++ str l2)%string.
Proof.
  unfold str. induction l1 as [|c l1 IH]; simpl; [reflexivity | now rewrite IH].
Qed.

Lemma size_append (a b : string) : size (a ++ b)%string = (size a + size b)%nat.
Proof. unfold size. now rewrite chars_append, length_app. Qed.

(** ** [hex_to_bigint] on digits of either origin *)

Lemma hex_to_bigint_digits ds :
  Forall is_digit16 ds -> ds <> [] ->
  hex_to_bigint (str (map upper_digit ds)) = digits_value ds.
Proof.
  intros Hds Hne. unfold hex_to_bigint, substr, substr_from.
  rewrite drop_0, chars_str, no_0x_prefix_digits, andb_false_r by assumption.
  cbv iota. rewrite chars_str, c_str_digits, mpz_set_str16_digits by assumption.
  reflexivity.
Qed.

(** A character that is no hexadecimal digit and no white space stops
    [read_hex] before the end. *)
Lemma read_hex_stray c l :
  In c l -> hex_value c = None ->
  forall acc cnt, (snd (read_hex acc cnt l) < cnt + List.length l)%nat.
Proof.
  intros Hin Hc. induction l as [|h t IH]; intros acc cnt; [contradiction|].
  cbn [read_hex List.length].
  destruct (hex_value h) as [d|] eqn:Hh.
  - destruct Hin as [-> | Hin]; [congruence|].
    specialize (IH Hin (16 * acc + d) (S cnt)). lia.
  - cbn [snd]. lia.
Qed.

Lemma skip_space_keeps c l : In c l -> isspace c = false -> In c (skip_space l).
Proof.
  intros Hin Hc. induction l as [|h t IH]; [contradiction|].
  cbn [skip_space]. destruct (isspace h) eqn:Hh; [|exact Hin].
  destruct Hin as [-> | Hin]; [congruence | now apply IH].
Qed.

Lemma mpz_set_str16_stray c l :
  In c l -> hex_value c = None -> isspace c = false -> c <> "-"%char ->
  mpz_set_str16 l = None.
Proof.
  intros Hin Hhex Hsp Hm. unfold mpz_set_str16.
  pose proof (skip_space_keeps c l Hin Hsp) as H1.
  set (s1 := skip_space l) in *.
  set (neg := match s1 with c0 :: _ => Ascii.eqb c0 "-" | [] => false end).
  assert (H2 : In c (if neg then tail s1 else s1)).
  { subst neg. destruct s1 as [|h t]; [contradiction|].
    destruct (Ascii.eqb_spec h "-") as [-> | Hne]; [|exact H1].
    destruct H1 as [<- | H1]; [congruence | exact H1]. }
  destruct (if neg then tail s1 else s1) as [|h t] eqn:Hs2; [contradiction|].
  destruct (is_hex h); [|reflexivity].
  set (body := List.filter (fun c0 => negb (isspace c0)) (h :: t)).
  assert (Hb : In c body).
  { apply filter_In. split; [exact H2 | now rewrite Hsp]. }
  pose proof (read_hex_stray c body Hb Hhex 0 0) as Hlt.
  destruct (read_hex 0 0 body) as [v n]. cbn [snd] in Hlt.
  assert ((n =? List.length body)%nat = false) as -> by (apply Nat.eqb_neq; lia).
  reflexivity.
Qed.

(** X1.  [hex_to_bigint] does not fail on malformed input: one character
    that is neither a hexadecimal digit, nor white space, nor a minus
    sign, anywhere before the first NUL of the input (its [0x] prefix
    removed), makes the result 0. *)
Theorem hex_to_bigint_malformed_is_zero (hex : string) (c : ascii) :
  In c (c_str (chars (clean_hex_of hex))) ->
  hex_value c = None -> isspace c = false -> c <> "-"%char ->
  hex_to_bigint hex = 0.
Proof.
  intros Hin Hhex Hsp Hm. unfold hex_to_bigint. fold (clean_hex_of hex).
  now rewrite (mpz_set_str16_stray c _ Hin Hhex Hsp Hm).
Qed.

Lemma hex_to_bigint_malformed_is_zero_witness : hex_to_bigint "0x12G4" = 0.
Proof.
  apply (hex_to_bigint_malformed_is_zero "0x12G4" "G").
  - vm_compute. auto.
  - reflexivity.
  - reflexivity.
  - discriminate.
Defined.

(** ** Numbers and their text *)

Lemma mpz_set_str16_to_hex a :
  mpz_set_str16 (c_str (chars (bigint_to_hex a))) = Some a.
Proof.
  destruct (Z.lt_ge_cases a 0) as [Hneg | Hpos].
  - rewrite chars_bigint_to_hex_neg by assumption.
    destruct (hex_digits_ok (- a) ltac:(lia)) as (Hr & Hv & Hl & _).
    assert (Hne : hex_digits (- a) <> []) by (intros E; rewrite E in Hl; simpl in Hl; lia).
    cbn [c_str]. change (Ascii.eqb "-" zero) with false. cbv iota.
    rewrite c_str_digits, mpz_set_str16_minus_digits, Hv by assumption.
    f_equal. lia.
  - rewrite chars_bigint_to_hex_nonneg by lia.
    destruct (hex_digits_ok a ltac:(lia)) as (Hr & Hv & Hl & _).
    assert (Hne : hex_digits a <> []) by (intros E; rewrite E in Hl; simpl in Hl; lia).
    now rewrite c_str_digits, mpz_set_str16_digits, Hv by assumption.
Qed.

(** X2.  [hex_to_bigint] reads back what [bigint_to_hex] writes, for every
    integer, negative ones included, and also behind an [0x] prefix; so
    [bigint_to_hex] never writes two numbers alike. *)
Theorem bigint_hex_round_trip (a : BigInt) :
  hex_to_bigint (bigint_to_hex a) = a /\
  hex_to_bigint ("0x" ++ bigint_to_hex a) = a /\
  forall b : BigInt, bigint_to_hex a = bigint_to_hex b -> a = b.
Proof.
  split_and!.
  - apply hex_to_bigint_to_hex.
  - unfold hex_to_bigint.
    assert (size ("0x" ++ bigint_to_hex a) = S (S (size (bigint_to_hex a))))
      as Hs by reflexivity.
    rewrite Hs. cbn [Nat.leb andb].
    assert (substr 0 2 ("0x" ++ bigint_to_hex a) = "0x"%string) as ->.
    { unfold substr.
      change (chars ("0x" ++ bigint_to_hex a))
        with ("0"%char :: "x"%char :: chars (bigint_to_hex a)).
      rewrite drop_0. reflexivity. }
    assert (substr_from 2 ("0x" ++ bigint_to_hex a) = bigint_to_hex a) as ->.
    { unfold substr_from.
      change (chars ("0x" ++ bigint_to_hex a))
        with ("0"%char :: "x"%char :: chars (bigint_to_hex a)).
      cbn [drop]. apply str_chars. }
    cbn [String.eqb Ascii.eqb Bool.eqb].
    now rewrite mpz_set_str16_to_hex.
  - intros b H. rewrite <- (hex_to_bigint_to_hex a), <- (hex_to_bigint_to_hex b).
    now rewrite H.
Qed.

(** ** Points as hexadecimal text *)

Lemma upper_digit_0 : upper_digit 0 = "0"%char.
Proof. reflexivity. Qed.

Lemma digits_value_leading_zeros n ds :
  digits_value (repeat 0 n ++ ds) = digits_value ds.
Proof.
  unfold digits_value. rewrite fold_left_app. f_equal.
  induction n as [|n IH]; simpl; [reflexivity | exact IH].
Qed.

(** A coordinate below [2^256] padded to 64 digits. *)
Lemma pad64_digits a :
  0 <= a < 2 ^ 256 ->
  exists ds, chars (pad64 (bigint_to_hex a)) = map upper_digit ds /\
             Forall is_digit16 ds /\ List.length ds = 64%nat /\ digits_value ds = a.
Proof.
  intros Ha.
  destruct (hex_digits_ok a ltac:(lia)) as (Hr & Hv & Hl & Hlen & _).
  assert (Hle : (List.length (hex_digits a) <= 64)%nat).
  { destruct (Nat.le_gt_cases (List.length (hex_digits a)) 64) as [H | H]; [exact H|].
    apply Hlen in H as [H | H]; [discriminate|].
    change (16 ^ Z.of_nat 64) with (2 ^ 256) in H. lia. }
  exists (repeat 0 (64 - List.length (hex_digits a)) ++ hex_digits a).
  split_and!.
  - unfold pad64. rewrite chars_str, size_bigint_to_hex by lia.
    rewrite chars_bigint_to_hex_nonneg by lia.
    rewrite map_app, map_repeat. reflexivity.
  - apply Forall_app. split; [|exact Hr].
    apply List.Forall_forall. intros d Hd. apply repeat_spec in Hd. subst d.
    unfold is_digit16. lia.
  - rewrite length_app, repeat_length. lia.
  - now rewrite digits_value_leading_zeros.
Qed.

Lemma size_pad64 a : 0 <= a < 2 ^ 256 -> size (pad64 (bigint_to_hex a)) = 64%nat.
Proof.
  intros Ha. destruct (pad64_digits a Ha) as (ds & Hc & _ & Hl & _).
  unfold size. now rewrite Hc, length_map.
Qed.

(** X3.  The text [point_to_hex] writes is never read back by
    [hex_to_point]: for a point with coordinates in [0, 2^256) it has 130
    characters, for the point at infinity 2, and [hex_to_point] accepts
    66 or 128 only. *)
Theorem point_to_hex_is_refused (point p0 : ECPoint) :
  0 <= x point < 2 ^ 256 -> 0 <= y point < 2 ^ 256 ->
  size (point_to_hex point) = (if is_infinity point then 2%nat else 130%nat) /\
  hex_to_point (point_to_hex point) p0 = (false, p0).
Proof.
  intros Hx Hy. unfold point_to_hex.
  destruct (is_infinity point); [split; reflexivity|].
  set (X := pad64 (bigint_to_hex (x point))).
  set (Y := pad64 (bigint_to_hex (y point))).
  assert (Hsz : size ("04" ++ X ++ Y)%string = 130%nat).
  { rewrite !size_append. subst X Y. rewrite !size_pad64 by assumption. reflexivity. }
  split; [exact Hsz|].
  unfold hex_to_point. rewrite Hsz. cbn [Nat.ltb Nat.leb].
  assert (Hpre : substr 0 2 ("04" ++ X ++ Y)%string = "04"%string).
  { unfold substr. rewrite drop_0, chars_append. reflexivity. }
  rewrite Hpre. cbn [String.eqb Ascii.eqb Bool.eqb]. rewrite Hsz. reflexivity.
Qed.

Lemma point_to_hex_is_refused_witness :
  size (point_to_hex SECP256K1_G) = 130%nat /\
  hex_to_point (point_to_hex SECP256K1_G) ECPoint_default = (false, ECPoint_default).
Proof.
  apply (point_to_hex_is_refused SECP256K1_G ECPoint_default); vm_compute; split; congruence.
Defined.

(** X4.  [hex_to_point] reads the 128-digit form, the two coordinates
    padded to 64 digits each and no prefix, back to the very point, and
    accepts it exactly when the point is on the curve. *)
Theorem hex_to_point_reads_raw_form (point p0 : ECPoint) :
  0 <= x point < 2 ^ 256 -> 0 <= y point < 2 ^ 256 ->
  hex_to_point (raw_hex point) p0 =
    (point_is_on_curve (mkPoint (x point) (y point) false),
     mkPoint (x point) (y point) false).
Proof.
  intros Hx Hy. unfold raw_hex.
  destruct (pad64_digits _ Hx) as (dx & Hcx & Hdx & Hlx & Hvx).
  destruct (pad64_digits _ Hy) as (dy & Hcy & Hdy & Hly & Hvy).
  set (X := pad64 (bigint_to_hex (x point))) in *.
  set (Y := pad64 (bigint_to_hex (y point))) in *.
  assert (Hc : chars (X ++ Y)%string = map upper_digit (dx ++ dy))
    by (now rewrite chars_append, Hcx, Hcy, map_app).
  assert (Hall : Forall is_digit16 (dx ++ dy)) by (apply Forall_app; now split).
  assert (Hsz : size (X ++ Y)%string = 128%nat).
  { unfold size. rewrite Hc, length_map, length_app. lia. }
  unfold hex_to_point. rewrite Hsz. cbn [Nat.ltb Nat.leb].
  assert (Hpre : String.eqb (substr 0 2 (X ++ Y)%string) "0x" = false).
  { unfold substr. rewrite drop_0, Hc. now apply no_0x_prefix_digits. }
  rewrite Hpre, Hsz. cbn [Nat.eqb andb].
  assert (Hxs : substr 0 64 (X ++ Y)%string = str (map upper_digit dx)).
  { unfold substr. rewrite drop_0, Hc, map_app, take_app_length'; [reflexivity|].
    now rewrite length_map. }
  assert (Hys : substr_from 64 (X ++ Y)%string = str (map upper_digit dy)).
  { unfold substr_from. rewrite Hc, map_app, drop_app_length'; [reflexivity|].
    now rewrite length_map. }
  rewrite Hxs, Hys.
  rewrite !hex_to_bigint_digits, Hvx, Hvy; try assumption;
    try (intros E; rewrite E in *; simpl in *; lia).
  reflexivity.
Qed.

Lemma hex_to_point_reads_raw_form_witness :
  hex_to_point (raw_hex SECP256K1_G) ECPoint_default =
    (point_is_on_curve (mkPoint (x SECP256K1_G) (y SECP256K1_G) false),
     mkPoint (x SECP256K1_G) (y SECP256K1_G) false).
Proof.
  apply (hex_to_point_reads_raw_form SECP256K1_G ECPoint_default);
    vm_compute; split; congruence.
Defined.

(** ** Table keys *)

Lemma upper_digit_not_colon d : is_digit16 d -> Ascii.eqb (upper_digit d) ":" = false.
Proof. intros H. digit_cases d H; reflexivity. Qed.

Lemma find_char_app c l1 l2 :
  Forall (fun h => Ascii.eqb h c = false) l1 ->
  find_char c (l1 ++ c :: l2) = Some (List.length l1).
Proof.
  induction 1 as [|h t Hh Ht IH]; cbn [app find_char List.length].
  - now rewrite Ascii.eqb_refl.
  - now rewrite Hh, IH.
Qed.

Lemma bigint_to_hex_no_colon a :
  Forall (fun h => Ascii.eqb h ":" = false) (chars (bigint_to_hex a)).
Proof.
  destruct (Z.lt_ge_cases a 0) as [Hneg | Hpos].
  - rewrite chars_bigint_to_hex_neg by assumption.
    constructor; [reflexivity|].
    destruct (hex_digits_ok (- a) ltac:(lia)) as (Hr & _).
    apply List.Forall_map. eapply List.Forall_impl; [|exact Hr].
    intros d Hd. now apply upper_digit_not_colon.
  - rewrite chars_bigint_to_hex_nonneg by lia.
    destruct (hex_digits_ok a ltac:(lia)) as (Hr & _).
    apply List.Forall_map. eapply List.Forall_impl; [|exact Hr].
    intros d Hd. now apply upper_digit_not_colon.
Qed.

(** X5.  [string_to_point] undoes [point_to_string] on the coordinates,
    whatever their sign and size; so two points have the same key in the
    table exactly when their coordinates are equal (the infinity flag is
    not part of the key). *)
Theorem string_to_point_to_string (point : ECPoint) :
  string_to_point (point_to_string point) = mkPoint (x point) (y point) false /\
  forall q : ECPoint,
    point_to_string point = point_to_string q <-> (x point = x q /\ y point = y q).
Proof.
  assert (Hrt : forall p : ECPoint,
            string_to_point (point_to_string p) = mkPoint (x p) (y p) false).
  { intros p. unfold string_to_point, point_to_string.
    set (X := bigint_to_hex (x p)). set (Y := bigint_to_hex (y p)).
    assert (Hc : chars (X ++ ":" ++ Y)%string = chars X ++ ":"%char :: chars Y)
      by (rewrite !chars_append; reflexivity).
    rewrite Hc, find_char_app by apply bigint_to_hex_no_colon.
    unfold substr, substr_from. rewrite drop_0, Hc.
    rewrite take_app_length.
    replace (List.length (chars X) + 1)%nat with (S (List.length (chars X))) by lia.
    assert (Hd : drop (S (List.length (chars X))) (chars X ++ ":"%char :: chars Y) = chars Y).
    { change (":"%char :: chars Y) with ([":"%char] ++ chars Y).
      rewrite app_assoc. apply drop_app_length'. rewrite length_app. simpl. lia. }
    rewrite Hd, !str_chars. subst X Y. now rewrite !hex_to_bigint_to_hex. }
  split; [apply Hrt|].
  intros q. split.
  - intros E. pose proof (Hrt point) as H1. rewrite E, Hrt in H1.
    injection H1 as H1 H2. now split.
  - intros [E1 E2]. unfold point_to_string. now rewrite E1, E2.
Qed.

(** ** The table of distinguished points *)

(** X6.  Publishing a point whose key is absent returns [false], files the
    point under its key with the distance in hexadecimal (read back by
    [hex_to_bigint] as the distance published), its kind and the elapsed
    time, leaves every other key alone and adds one to the counter of
    distinguished points; collisions, solution and [solved] are not
    touched. *)
Theorem add_distinguished_point_new_key
    now (point : ECPoint) (dist : BigInt) (is_tame : bool) (s : KangarooSolver) :
  distinguished_points s !! point_to_string point = None ->
  let r := add_distinguished_point now point dist is_tame s in
  fst r = false /\
  distinguished_points (snd r) !! point_to_string point =
    Some (mkDP point (bigint_to_hex dist) is_tame (get_elapsed_time now s)) /\
  (hex_to_bigint <$>
     (dp_distance <$> distinguished_points (snd r) !! point_to_string point)) = Some dist /\
  (forall key, key <> point_to_string point ->
     distinguished_points (snd r) !! key = distinguished_points s !! key) /\
  total_distinguished_points (snd r) = fetch_add (total_distinguished_points s) 1 /\
  total_collisions (snd r) = total_collisions s /\
  solution_key (snd r) = solution_key s /\
  solved (snd r) = solved s.
Proof.
  intros Hnone r. subst r. unfold add_distinguished_point. rewrite Hnone.
  cbn -[point_to_string bigint_to_hex get_elapsed_time fetch_add].
  split_and!; try reflexivity.
  - apply lookup_insert_eq.
  - rewrite lookup_insert_eq. cbn. now rewrite hex_to_bigint_to_hex.
  - intros key Hkey. now apply lookup_insert_ne.
Qed.

Lemma add_distinguished_point_new_key_witness :
  fst (add_distinguished_point 0 SECP256K1_G 1 true (snd (start 0 KangarooSolver_new)))
    = false /\
  total_distinguished_points
    (snd (add_distinguished_point 0 SECP256K1_G 1 true (snd (start 0 KangarooSolver_new))))
    = fetch_add (total_distinguished_points (snd (start 0 KangarooSolver_new))) 1.
Proof.
  destruct (add_distinguished_point_new_key 0 SECP256K1_G 1 true
              (snd (start 0 KangarooSolver_new)) eq_refl)
    as (H1 & _ & _ & _ & H5 & _).
  exact (conj H1 H5).
Defined.

(** X7.  No call of [add_distinguished_point] removes or rewrites an entry
    of the table, and a call that returns [false] leaves the stored
    solution as it was; a call on a key that holds an entry of the same
    kind changes nothing at all. *)
Theorem add_distinguished_point_keeps_entries
    now (point : ECPoint) (dist : BigInt) (is_tame : bool) (s : KangarooSolver) :
  let r := add_distinguished_point now point dist is_tame s in
  (forall key e, distinguished_points s !! key = Some e ->
                 distinguished_points (snd r) !! key = Some e) /\
  (fst r = false -> solution_key (snd r) = solution_key s) /\
  (forall e, distinguished_points s !! point_to_string point = Some e ->
             dp_is_tame e = is_tame -> r = (false, s)).
Proof.
  intros r. subst r. unfold add_distinguished_point.
  destruct (distinguished_points s !! point_to_string point) as [existing|] eqn:Hl.
  - destruct (negb (Bool.eqb (dp_is_tame existing) is_tame)) eqn:Hk.
    + match goal with |- context [if ?c then _ else _] => destruct c end;
        cbn; split_and!; try (intros; assumption); try reflexivity; try discriminate.
      * intros e [= <-] He. rewrite He, Bool.eqb_reflx in Hk. discriminate.
      * intros e [= <-] He. rewrite He, Bool.eqb_reflx in Hk. discriminate.
    + cbn. split_and!; try (intros; assumption); reflexivity.
  - cbn -[point_to_string bigint_to_hex get_elapsed_time fetch_add].
    split_and!; try reflexivity; try discriminate.
    intros key e He. rewrite lookup_insert_ne; [exact He|].
    intros <-. congruence.
Qed.

(** X8.  The counter of distinguished points equals the number of entries
    of the table (modulo [2^64]) after [start] and after every call of
    [add_distinguished_point] made from such a state. *)
Theorem count_matches_table_kept
    now (point : ECPoint) (dist : BigInt) (is_tame : bool) (s : KangarooSolver) :
  (running s = false -> count_matches_table (snd (start now s))) /\
  (count_matches_table s ->
   count_matches_table (snd (add_distinguished_point now point dist is_tame s))).
Proof.
  split.
  - intros Hr. unfold start, count_matches_table. rewrite Hr. cbn.
    now rewrite map_size_empty.
  - unfold count_matches_table, add_distinguished_point. intros Hs.
    destruct (distinguished_points s !! point_to_string point) as [existing|] eqn:Hl.
    + destruct (negb (Bool.eqb (dp_is_tame existing) is_tame)); [|exact Hs].
      match goal with |- context [if ?c then _ else _] => destruct c end; exact Hs.
    + cbn -[point_to_string bigint_to_hex get_elapsed_time fetch_add uint64].
      rewrite map_size_insert_None by exact Hl.
      rewrite Hs. unfold fetch_add, uint64.
      rewrite Nat2Z.inj_succ, <- Z.add_1_r.
      now rewrite Z.add_mod_idemp_l by lia.
Qed.

Lemma count_matches_table_kept_witness :
  count_matches_table (snd (start 0 KangarooSolver_new)) /\
  count_matches_table
    (snd (add_distinguished_point 0 SECP256K1_G 1 true (snd (start 0 KangarooSolver_new)))).
Proof.
  pose proof (proj1 (count_matches_table_kept 0 SECP256K1_G 1 true KangarooSolver_new)
                eq_refl) as H.
  split; [exact H|].
  exact (proj2 (count_matches_table_kept 0 SECP256K1_G 1 true
                  (snd (start 0 KangarooSolver_new))) H).
Defined.

(** ** The walkers *)

Lemma generate_random_in_range_some (random_val start_ end_ : BigInt) :
  start_ < end_ ->
  generate_random_in_range random_val start_ end_ =
    Some (start_ + random_val mod (end_ - start_)).
Proof.
  intros Hlt. unfold generate_random_in_range, bigint_subtract, bigint_mod,
    bigint_add, bigint_from_uint64.
  assert ((end_ - start_ =? 0) = false) as -> by (apply Z.eqb_neq; lia).
  now rewrite Z.abs_eq by lia.
Qed.

(** X9.  On a range that is not empty, [generate_random_in_range] returns
    a scalar of the range, [start + random_val mod (end - start)],
    whatever the generator yields. *)
Theorem generate_random_in_range_bounds (random_val start_ end_ : BigInt) :
  start_ < end_ ->
  exists k : BigInt,
    generate_random_in_range random_val start_ end_ = Some k /\
    k = start_ + random_val mod (end_ - start_) /\
    start_ <= k < end_.
Proof.
  intros Hlt. rewrite (generate_random_in_range_some random_val _ _ Hlt).
  pose proof (Z.mod_pos_bound random_val (end_ - start_) ltac:(lia)).
  eexists. split; [reflexivity|]. split; [reflexivity | lia].
Qed.

Lemma generate_random_in_range_bounds_witness :
  exists k : BigInt,
    generate_random_in_range 18446744073709551615 0 256 = Some k /\
    k = 0 + 18446744073709551615 mod (256 - 0) /\ 0 <= k < 256.
Proof. apply generate_random_in_range_bounds. lia. Defined.

Lemma same_config_refl s : same_config s s.
Proof. unfold same_config. split_and!; reflexivity. Qed.

Lemma same_config_trans s1 s2 s3 :
  same_config s1 s2 -> same_config s2 s3 -> same_config s1 s3.
Proof.
  unfold same_config. intros H1 H2.
  destruct H1 as (?&?&?&?&?&?&?&?&?&?&?), H2 as (?&?&?&?&?&?&?&?&?&?&?).
  split_and!; congruence.
Qed.

Lemma add_distinguished_point_same_config now point dist is_tame s :
  same_config s (snd (add_distinguished_point now point dist is_tame s)) /\
  solved (snd (add_distinguished_point now point dist is_tame s)) = solved s /\
  total_jumps (snd (add_distinguished_point now point dist is_tame s)) = total_jumps s.
Proof.
  unfold add_distinguished_point.
  destruct (distinguished_points s !! point_to_string point) as [existing|].
  - destruct (negb (Bool.eqb (dp_is_tame existing) is_tame)).
    + match goal with |- context [if ?c then _ else _] => destruct c end;
        cbn; unfold same_config; cbn; split_and!; reflexivity.
    + cbn. split_and!; [apply same_config_refl | reflexivity | reflexivity].
  - cbn -[point_to_string bigint_to_hex get_elapsed_time fetch_add].
    unfold same_config.
    cbn -[point_to_string bigint_to_hex get_elapsed_time fetch_add].
    split_and!; reflexivity.
Qed.

Lemma make_jump_spec s w s' w' :
  make_jump s w = Some (s', w') ->
  exists idx jp jd,
    get_jump_index s (current w) = Some idx /\
    jump_points s !! Z.to_nat idx = Some jp /\
    jump_distances s !! Z.to_nat idx = Some jd /\
    w' = mkWalker (point_add (current w) jp) (bigint_add (distance w) jd)
           (uint64 (local_jumps w + 1)) /\
    s' = (if local_jumps w' mod report_interval =? 0
          then set_total_jumps (fetch_add (total_jumps s) report_interval) s
          else s).
Proof.
  unfold make_jump.
  destruct (get_jump_index s (current w)) as [idx|] eqn:H1; [|discriminate].
  destruct (jump_points s !! Z.to_nat idx) as [jp|] eqn:H2; [|discriminate].
  destruct (jump_distances s !! Z.to_nat idx) as [jd|] eqn:H3; [|discriminate].
  intros [= <- <-]. exists idx, jp, jd. cbn [local_jumps].
  split_and!; try assumption; reflexivity.
Qed.

Lemma make_jump_same_config s w s' w' :
  make_jump s w = Some (s', w') ->
  same_config s s' /\ solved s' = solved s /\
  distinguished_points s' = distinguished_points s /\
  solution_key s' = solution_key s.
Proof.
  intros H. apply make_jump_spec in H as (idx & jp & jd & _ & _ & _ & _ & ->).
  destruct (local_jumps w' mod report_interval =? 0);
    unfold same_config; cbn; split_and!; reflexivity.
Qed.

Lemma tame_turn_cases now rnd s w t :
  tame_turn now rnd s w = Some t ->
  (running s && negb (solved s) = false /\ t = Leave s w) \/
  (running s && negb (solved s) = true /\
   exists d, is_distinguished s (current w) = Some d /\
     let published :=
       if d then add_distinguished_point now (current w) (distance w) true s
       else (false, s) in
     (fst published = true /\
      t = Leave (set_solution_key (distance w) (set_solved true (snd published))) w) \/
     (fst published = false /\
      exists s2 w2, make_jump (snd published) w = Some (s2, w2) /\
        ((0 <? bigint_compare (distance w2) (range_end s2)) = false /\ t = Continue s2 w2 \/
         (0 <? bigint_compare (distance w2) (range_end s2)) = true /\
         exists k, generate_random_in_range rnd (range_start s2) (range_end s2) = Some k /\
                   t = Continue s2 (mkWalker (point_multiply k get_generator) k
                                      (local_jumps w2))))).
Proof.
  unfold tame_turn. intros H.
  destruct (running s && negb (solved s));
    [|injection H as <-; left; split; reflexivity].
  right. split; [reflexivity|].
  destruct (is_distinguished s (current w)) as [d|]; [|discriminate].
  exists d. split; [reflexivity|]. cbv zeta.
  set (published := if d then add_distinguished_point now (current w) (distance w) true s
                    else (false, s)) in *.
  destruct (fst published).
  - injection H as <-. left. split; reflexivity.
  - right. split; [reflexivity|].
    destruct (make_jump (snd published) w) as [[s2 w2]|]; [|discriminate].
    exists s2, w2. split; [reflexivity|].
    destruct (0 <? bigint_compare (distance w2) (range_end s2)).
    + destruct (generate_random_in_range rnd (range_start s2) (range_end s2)) as [k|];
        [|discriminate].
      injection H as <-. right. split; [reflexivity|]. exists k. split; reflexivity.
    + injection H as <-. left. split; reflexivity.
Qed.

Lemma wild_turn_cases now s w t :
  wild_turn now s w = Some t ->
  (running s && negb (solved s) = false /\ t = Leave s w) \/
  (running s && negb (solved s) = true /\
   exists d, is_distinguished s (current w) = Some d /\
     let published :=
       if d then add_distinguished_point now (current w) (distance w) false s
       else (false, s) in
     (fst published = true /\
      t = Leave (set_solution_key (distance w) (set_solved true (snd published))) w) \/
     (fst published = false /\
      exists s2 w2, make_jump (snd published) w = Some (s2, w2) /\
        ((80 <? bigint_bit_length (distance w2)) = false /\ t = Continue s2 w2 \/
         (80 <? bigint_bit_length (distance w2)) = true /\
         t = Continue s2 (mkWalker (target_point s2) bigint_zero (local_jumps w2))))).
Proof.
  unfold wild_turn. intros H.
  destruct (running s && negb (solved s));
    [|injection H as <-; left; split; reflexivity].
  right. split; [reflexivity|].
  destruct (is_distinguished s (current w)) as [d|]; [|discriminate].
  exists d. split; [reflexivity|]. cbv zeta.
  set (published := if d then add_distinguished_point now (current w) (distance w) false s
                    else (false, s)) in *.
  destruct (fst published).
  - injection H as <-. left. split; reflexivity.
  - right. split; [reflexivity|].
    destruct (make_jump (snd published) w) as [[s2 w2]|]; [|discriminate].
    exists s2, w2. split; [reflexivity|].
    destruct (80 <? bigint_bit_length (distance w2)).
    + injection H as <-. right. split; reflexivity.
    + injection H as <-. left. split; reflexivity.
Qed.

Lemma published_same_config now point dist is_tame (d : bool) s :
  same_config s
    (snd (if d then add_distinguished_point now point dist is_tame s else (false, s))).
Proof.
  destruct d; [apply add_distinguished_point_same_config | apply same_config_refl].
Qed.

Lemma set_solution_same_config v s : same_config s (set_solution_key v (set_solved true s)).
Proof. unfold same_config. cbn. split_and!; reflexivity. Qed.

(** X10.  A turn of a walker's loop, tame or wild, and the statement after
    the loop write to the counters, the table, [solved] and
    [solution_key] only: target, range, thread count, distinguished bits
    and mask, [running], the thread list, the jump tables and the start
    time are as before.  In particular a walker that has solved leaves
    [running] set, so [start] is refused until [stop] is called. *)
Theorem walker_keeps_configuration now rnd (s : KangarooSolver) (w : Walker) (t : Turn) :
  tame_turn now rnd s w = Some t \/ wild_turn now s w = Some t ->
  same_config s (turn_state t) /\
  same_config s (walker_end (turn_state t) (turn_walker t)) /\
  (running s = true ->
   forall now', start now' (turn_state t) = (false, turn_state t)).
Proof.
  intros H.
  assert (Hc : same_config s (turn_state t)).
  { destruct H as [H | H].
    - apply tame_turn_cases in H as [[_ ->] | (_ & d & _ & H)]; [apply same_config_refl|].
      cbv zeta in H. destruct H as [[_ ->] | (_ & s2 & w2 & Hj & H)].
      + cbn [turn_state]. eapply same_config_trans; [apply published_same_config|].
        apply set_solution_same_config.
      + apply make_jump_same_config in Hj as (Hj & _).
        assert (Hs2 : same_config s s2)
          by (eapply same_config_trans; [apply published_same_config | exact Hj]).
        destruct H as [[_ ->] | (_ & k & _ & ->)]; exact Hs2.
    - apply wild_turn_cases in H as [[_ ->] | (_ & d & _ & H)]; [apply same_config_refl|].
      cbv zeta in H. destruct H as [[_ ->] | (_ & s2 & w2 & Hj & H)].
      + cbn [turn_state]. eapply same_config_trans; [apply published_same_config|].
        apply set_solution_same_config.
      + apply make_jump_same_config in Hj as (Hj & _).
        assert (Hs2 : same_config s s2)
          by (eapply same_config_trans; [apply published_same_config | exact Hj]).
        destruct H as [[_ ->] | (_ & ->)]; exact Hs2. }
  split_and!.
  - exact Hc.
  - eapply same_config_trans; [exact Hc|].
    unfold walker_end, same_config. cbn. split_and!; reflexivity.
  - intros Hr now'. unfold start.
    destruct Hc as (_ & _ & _ & _ & _ & _ & Hrun & _). now rewrite Hrun, Hr.
Qed.

Lemma bigint_compare_pos a b : (0 <? bigint_compare a b) = (b <? a).
Proof.
  unfold bigint_compare. destruct (Z.compare_spec a b) as [-> | H | H]; cbn.
  - symmetry. apply Z.ltb_irrefl.
  - symmetry. apply Z.ltb_ge. lia.
  - symmetry. apply Z.ltb_lt. lia.
Qed.

(** X11.  On an engine whose range is not empty, [range_start <
    range_end], after a turn of the tame walker that goes on its distance
    is at most [range_end]: a jump past the end of the range restarts the
    walk inside it.  With jump distances that are not negative, it is
    also at least [range_start] when it was before. *)
Theorem tame_walker_stays_in_range now rnd (s s' : KangarooSolver) (w w' : Walker) :
  tame_turn now rnd s w = Some (Continue s' w') ->
  range_start s < range_end s ->
  distance w' <= range_end s /\
  (range_start s <= distance w ->
   Forall (fun d => 0 <= d) (jump_distances s) ->
   range_start s <= distance w').
Proof.
  intros H Hrange.
  apply tame_turn_cases in H as [[_ H] | (_ & d & _ & H)]; [discriminate|].
  cbv zeta in H. destruct H as [[_ H] | (_ & s2 & w2 & Hj & H)]; [discriminate|].
  pose proof (published_same_config now (current w) (distance w) true d s) as Hp.
  set (sp := snd (if d then add_distinguished_point now (current w) (distance w) true s
                  else (false, s))) in *.
  pose proof (make_jump_same_config _ _ _ _ Hj) as (Hc & _).
  pose proof (same_config_trans _ _ _ Hp Hc) as Hs2.
  apply make_jump_spec in Hj as (idx & jp & jd & _ & _ & Hjd & Hw2 & _).
  destruct Hs2 as (_ & Hrs & Hre & _).
  destruct Hp as (_ & _ & _ & _ & _ & _ & _ & _ & Hjds & _).
  rewrite Hjds in Hjd.
  destruct H as [[Hcmp H] | (Hcmp & k & Hk & H)]; injection H as -> ->.
  - rewrite bigint_compare_pos, Hre in Hcmp. apply Z.ltb_ge in Hcmp.
    split; [exact Hcmp|].
    intros Hlow Hpos. rewrite Hw2. cbn [distance]. unfold bigint_add.
    rewrite Forall_lookup in Hpos. specialize (Hpos _ _ Hjd). cbn in Hpos. lia.
  - rewrite Hrs, Hre in Hk.
    rewrite (generate_random_in_range_some rnd _ _ Hrange) in Hk.
    injection Hk as <-.
    pose proof (Z.mod_pos_bound rnd (range_end s - range_start s) ltac:(lia)).
    cbn [distance]. split; [lia | intros; lia].
Qed.

(** X12.  After a turn of the wild walker that goes on, its distance has at
    most 80 bits: a longer one sends the walker back to the target with
    distance zero. *)
Theorem wild_walker_distance_bound now (s s' : KangarooSolver) (w w' : Walker) :
  wild_turn now s w = Some (Continue s' w') ->
  bigint_bit_length (distance w') <= 80 /\ Z.abs (distance w') < 2 ^ 80.
Proof.
  intros H.
  assert (Hbits : bigint_bit_length (distance w') <= 80).
  { apply wild_turn_cases in H as [[_ H] | (_ & d & _ & H)]; [discriminate|].
    cbv zeta in H. destruct H as [[_ H] | (_ & s2 & w2 & _ & H)]; [discriminate|].
    destruct H as [[Hcmp H] | (Hcmp & H)]; injection H as -> ->.
    - apply Z.ltb_ge in Hcmp. exact Hcmp.
    - cbn. lia. }
  split; [exact Hbits|].
  unfold bigint_bit_length in Hbits.
  destruct (Z.eqb_spec (distance w') 0) as [-> | Hnz]; [cbn; lia|].
  assert (Hpos : 0 < Z.abs (distance w')) by lia.
  apply Z.log2_lt_pow2; lia.
Qed.

Lemma succ_mod l m :
  0 <= l -> 1 < m ->
  (l + 1) mod m = if (l + 1) mod m =? 0 then 0 else l mod m + 1.
Proof.
  intros Hl Hm. destruct ((l + 1) mod m =? 0) eqn:E.
  - now apply Z.eqb_eq in E.
  - apply Z.eqb_neq in E.
    pose proof (Z.mod_pos_bound l m ltac:(lia)) as Hb.
    destruct (Z.eq_dec (l mod m + 1) m) as [Heq | Hne].
    + exfalso. apply E.
      rewrite <- (Z.mod_small 1 m) at 1 by lia.
      rewrite <- Z.add_mod_idemp_l by lia.
      rewrite (Z.mod_small 1 m) by lia.
      rewrite Heq. apply Z.mod_same. lia.
    + symmetry. apply Z.mod_unique_pos with (q := l / m); [lia|].
      pose proof (Z.div_mod l m ltac:(lia)). lia.
Qed.

(** X13.  As long as the walker's own 64-bit counter does not wrap (it
    has made fewer than [2^64 - 1] jumps), no jump is lost or counted
    twice: with a jump, what the shared counter holds plus what the
    walker still has to report goes up by one (modulo [2^64]), and the
    statement after the loop brings the counter to that sum. *)
Theorem jumps_are_accounted (s s' : KangarooSolver) (w w' : Walker) :
  make_jump s w = Some (s', w') ->
  0 <= local_jumps w < 2 ^ 64 - 1 ->
  local_jumps w' = local_jumps w + 1 /\
  jumps_accounted s' w' = uint64 (jumps_accounted s w + 1) /\
  total_jumps (walker_end s' w') = jumps_accounted s' w'.
Proof.
  intros H Hl.
  apply make_jump_spec in H as (idx & jp & jd & _ & _ & _ & Hw & Hs).
  assert (Hloc : local_jumps w' = local_jumps w + 1).
  { rewrite Hw. cbn [local_jumps]. unfold uint64. apply Z.mod_small. lia. }
  split_and!; [exact Hloc | | reflexivity].
  unfold jumps_accounted, report_interval in *. rewrite Hloc in *.
  pose proof (succ_mod (local_jumps w) 10000 ltac:(lia) ltac:(lia)) as Hm.
  unfold uint64, fetch_add, uint64 in *.
  destruct ((local_jumps w + 1) mod 10000 =? 0) eqn:E.
  - rewrite Hs. cbn [total_jumps set_total_jumps]. rewrite Hm.
    apply Z.eqb_eq in E.
    assert (Hp : local_jumps w mod 10000 = 9999).
    { pose proof (Z.mod_pos_bound (local_jumps w) 10000 ltac:(lia)).
      pose proof (Z.div_mod (local_jumps w) 10000 ltac:(lia)).
      pose proof (Z.div_mod (local_jumps w + 1) 10000 ltac:(lia)).
      rewrite E in *. lia. }
    rewrite Hp, Z.add_0_r, Z.mod_mod by lia.
    rewrite Z.add_mod_idemp_l by lia. f_equal. lia.
  - rewrite Hs, Hm. rewrite Z.add_mod_idemp_l by lia. f_equal. lia.
Qed.

(** X14.  With tame entries only in the table, a turn of a tame walker
    leaves tame entries only and does not set [solved]: an engine whose
    walkers are all tame (one thread) never solves. *)
Theorem tame_walkers_alone_never_solve now rnd (s : KangarooSolver) (w : Walker) (t : Turn) :
  all_tame s -> solved s = false ->
  tame_turn now rnd s w = Some t ->
  all_tame (turn_state t) /\ solved (turn_state t) = false.
Proof.
  intros Hall Hsol H.
  assert (Hpub : forall d : bool,
    let published := if d then add_distinguished_point now (current w) (distance w) true s
                     else (false, s) in
    fst published = false /\ all_tame (snd published) /\ solved (snd published) = false).
  { intros [|]; cbv zeta; [|now split_and!].
    unfold add_distinguished_point.
    destruct (distinguished_points s !! point_to_string (current w)) as [e|] eqn:He.
    - rewrite (Hall _ _ He). cbn. now split_and!.
    - cbn -[point_to_string bigint_to_hex get_elapsed_time fetch_add].
      split_and!; [reflexivity | | exact Hsol].
      intros key e'.
      cbn -[point_to_string bigint_to_hex get_elapsed_time fetch_add].
      destruct (decide (point_to_string (current w) = key)) as [<- | Hne].
      + rewrite lookup_insert_eq. now intros [= <-].
      + rewrite lookup_insert_ne by exact Hne. apply Hall. }
  apply tame_turn_cases in H as [[_ ->] | (_ & d & _ & H)]; [now split|].
  specialize (Hpub d). cbv zeta in H, Hpub. destruct Hpub as (Hf & Ha & Hs).
  destruct H as [[Ht _] | (_ & s2 & w2 & Hj & H)]; [congruence|].
  apply make_jump_same_config in Hj as (_ & Hsol2 & Htab & _).
  assert (all_tame s2 /\ solved s2 = false) as Hgoal.
  { split; [|congruence]. unfold all_tame. rewrite Htab. exact Ha. }
  destruct H as [[_ ->] | (_ & k & _ & ->)]; exact Hgoal.
Qed.

(** *** The properties above on the started engine of the run for 90 *)

Lemma started_90_facts :
  range_start started_90 = 0 /\ range_end started_90 = 256 /\
  solved started_90 = false /\ running started_90 = true /\
  distinguished_points started_90 = ∅.
Proof.
  exact_no_check
    (conj (@eq_refl Z 0) (conj (@eq_refl Z 256)
       (conj (@eq_refl bool false) (conj (@eq_refl bool true)
          (@eq_refl (gmap string DistinguishedPoint) ∅))))).
Qed.

Lemma started_90_turns :
  match tame_turn 0 7 started_90 (mkWalker point_118 118 0) with
  | Some (Continue _ _) => True
  | _ => False
  end /\
  match wild_turn 0 started_90 (wild_begin started_90) with
  | Some (Continue _ _) => True
  | _ => False
  end /\
  match make_jump started_90 (wild_begin started_90) with
  | Some _ => True
  | None => False
  end.
Proof. exact_no_check (conj I (conj I I)). Qed.

Lemma walker_keeps_configuration_witness :
  match wild_turn 0 started_90 (wild_begin started_90) with
  | Some t =>
      same_config started_90 (turn_state t) /\
      start 5 (turn_state t) = (false, turn_state t)
  | None => False
  end.
Proof.
  pose proof started_90_turns as (_ & Hw & _).
  pose proof started_90_facts as (_ & _ & _ & Hrun & _).
  destruct (wild_turn 0 started_90 (wild_begin started_90)) as [t|] eqn:E;
    [|contradiction].
  destruct (walker_keeps_configuration 0 0 started_90 (wild_begin started_90) t
              (or_intror E)) as (H1 & _ & H3).
  split; [exact H1 | exact (H3 Hrun 5)].
Defined.

Lemma tame_walker_stays_in_range_witness :
  match tame_turn 0 7 started_90 (mkWalker point_118 118 0) with
  | Some (Continue s' w') => distance w' <= range_end started_90
  | _ => False
  end.
Proof.
  pose proof started_90_turns as (Ht & _).
  pose proof started_90_facts as (Hs & He & _).
  destruct (tame_turn 0 7 started_90 (mkWalker point_118 118 0))
    as [[s' w' | s' w'] |] eqn:E; try contradiction.
  apply (tame_walker_stays_in_range 0 7 started_90 s' _ w' E).
  rewrite Hs, He. lia.
Defined.

Lemma wild_walker_distance_bound_witness :
  match wild_turn 0 started_90 (wild_begin started_90) with
  | Some (Continue s' w') =>
      bigint_bit_length (distance w') <= 80 /\ Z.abs (distance w') < 2 ^ 80
  | _ => False
  end.
Proof.
  pose proof started_90_turns as (_ & Hw & _).
  destruct (wild_turn 0 started_90 (wild_begin started_90))
    as [[s' w' | s' w'] |] eqn:E; try contradiction.
  exact (wild_walker_distance_bound 0 started_90 s' _ w' E).
Defined.

Lemma jumps_are_accounted_witness :
  match make_jump started_90 (wild_begin started_90) with
  | Some (s', w') =>
      local_jumps w' = local_jumps (wild_begin started_90) + 1 /\
      jumps_accounted s' w' =
        uint64 (jumps_accounted started_90 (wild_begin started_90) + 1) /\
      total_jumps (walker_end s' w') = jumps_accounted s' w'
  | None => False
  end.
Proof.
  pose proof started_90_turns as (_ & _ & Hj).
  destruct (make_jump started_90 (wild_begin started_90)) as [[s' w'] |] eqn:E;
    [|contradiction].
  apply (jumps_are_accounted started_90 s' _ w' E). cbn. lia.
Defined.

Lemma tame_walkers_alone_never_solve_witness :
  match tame_turn 0 7 started_90 (mkWalker point_118 118 0) with
  | Some t => all_tame (turn_state t) /\ solved (turn_state t) = false
  | None => False
  end.
Proof.
  pose proof started_90_turns as (Ht & _).
  pose proof started_90_facts as (_ & _ & Hsol & _ & Htab).
  destruct (tame_turn 0 7 started_90 (mkWalker point_118 118 0)) as [t|] eqn:E;
    [|contradiction].
  apply (tame_walkers_alone_never_solve 0 7 started_90 (mkWalker point_118 118 0) t);
    [|exact Hsol|exact E].
  intros key e He. rewrite Htab, lookup_empty in He. discriminate.
Defined.

(** ** The checkpoint codec *)

Lemma asUInt64_JUInt z : 0 <= z < 2 ^ 64 -> asUInt64 (JUInt z) = Some z.
Proof.
  intros H. unfold asUInt64.
  assert ((0 <=? z) && (z <? 2 ^ 64) = true) as ->; [|reflexivity].
  apply andb_true_intro. split; [apply Z.leb_le | apply Z.ltb_lt]; lia.
Qed.

Lemma asInt_JInt z : - 2 ^ 31 <= z < 2 ^ 31 -> asInt (JInt z) = Some z.
Proof.
  intros H. unfold asInt.
  assert ((- 2 ^ 31 <=? z) && (z <? 2 ^ 31) = true) as ->; [|reflexivity].
  apply andb_true_intro. split; [apply Z.leb_le | apply Z.ltb_lt]; lia.
Qed.

Lemma with_entries_nil d : with_entries d [] [] [] [] = d.
Proof. destruct d. unfold with_entries. cbn. now rewrite !app_nil_r. Qed.

Lemma with_entries_cons d p ps dd ds t ts st sts :
  with_entries (with_entries d [p] [dd] [t] [st]) ps ds ts sts =
  with_entries d (p :: ps) (dd :: ds) (t :: ts) (st :: sts).
Proof. unfold with_entries. cbn. now rewrite <- !app_assoc. Qed.

(** Reading back the entries written from four vectors of one length. *)
Lemma read_entries_dp_entries ps : forall ds ts sts d,
  List.length ds = List.length ps -> List.length ts = List.length ps ->
  List.length sts = List.length ps ->
  Forall (fun t => 0 <= t < 2 ^ 64) sts ->
  read_entries (dp_entries ps ds ts sts) d = Some (with_entries d ps ds ts sts).
Proof.
  induction ps as [|p ps IH]; intros ds ts sts d Hd Ht Hs Hr.
  - destruct ds, ts, sts; try discriminate. cbn. now rewrite with_entries_nil.
  - destruct ds as [|dd ds], ts as [|t ts], sts as [|st sts]; try discriminate.
    inversion Hr as [|? ? Hst Hr']; subst.
    cbn [dp_entries read_entries].
    change (member "point" _) with (Some (JString p)).
    change (member "distance" _) with (Some (JString dd)).
    change (member "is_tame" _) with (Some (JBool t)).
    change (member "timestamp" _) with (Some (JUInt st)).
    cbn [mbind option_bind asString asBool]. rewrite (asUInt64_JUInt st Hst).
    cbn [mbind option_bind].
    change (mkData _ _ _ _ _ _ _ _ _ _ _ _) with (with_entries d [p] [dd] [t] [st]).
    rewrite IH by (cbn in *; first [lia | assumption]).
    now rewrite with_entries_cons.
Qed.

(** Every entry read is pushed onto the four vectors together. *)
Lemma read_entries_aligned entries : forall d d',
  vectors_aligned d -> read_entries entries d = Some d' -> vectors_aligned d'.
Proof.
  induction entries as [|e entries IH]; intros d d' Hd H.
  - cbn in H. now injection H as <-.
  - cbn [read_entries] in H.
    destruct (member "point" e ≫= asString) as [p|]; [|discriminate].
    destruct (member "distance" e ≫= asString) as [dd|]; [|discriminate].
    destruct (member "is_tame" e ≫= asBool) as [t|]; [|discriminate].
    destruct (member "timestamp" e ≫= asUInt64) as [st|]; [|discriminate].
    cbn [mbind option_bind] in H. eapply IH; [|exact H].
    destruct Hd as (H1 & H2 & H3). unfold vectors_aligned. cbn.
    rewrite !length_app. cbn. lia.
Qed.

(** Reading a file that holds the document of a representable record. *)
Lemma read_checkpoint_document (data data0 : CheckpointData) (filename : string)
    (fs : FileSystem) :
  data_representable data ->
  files fs !! filename = Some (Some (checkpoint_document data)) ->
  read_json_checkpoint data0 filename fs = (true, data).
Proof.
  intros (Hts & Htj & Hdc & Hnt & Hdb & Hl1 & Hl2 & Hl3 & Hst) Hf.
  unfold read_json_checkpoint. rewrite Hf.
  change (member "version" (checkpoint_document data))
    with (Some (JString (cp_version data))).
  change (member "timestamp" (checkpoint_document data))
    with (Some (JUInt (cp_timestamp data))).
  change (member "total_jumps" (checkpoint_document data))
    with (Some (JUInt (cp_total_jumps data))).
  change (member "distinguished_points_count" (checkpoint_document data))
    with (Some (JUInt (cp_distinguished_points_count data))).
  change (member "range_start" (checkpoint_document data))
    with (Some (JString (cp_range_start data))).
  change (member "range_end" (checkpoint_document data))
    with (Some (JString (cp_range_end data))).
  change (member "num_threads" (checkpoint_document data))
    with (Some (JInt (cp_num_threads data))).
  change (member "distinguished_bits" (checkpoint_document data))
    with (Some (JInt (cp_distinguished_bits data))).
  change (member "distinguished_points" (checkpoint_document data))
    with (Some (JArray (dp_entries (dp_points data) (dp_distances data)
                          (dp_is_tame_flags data) (dp_timestamps data)))).
  cbn [mbind option_bind asString].
  rewrite !asUInt64_JUInt, !asInt_JInt by assumption.
  cbn [mbind option_bind].
  rewrite read_entries_dp_entries by assumption.
  destruct data. reflexivity.
Qed.

(** X15.  The codec round-trips: a record whose numbers fit their JSON
    types and whose four vectors have one length, written by
    [write_json_checkpoint] to a writable path, is read back by
    [read_json_checkpoint] field for field, entries in order, whatever
    the record passed in held. *)
Theorem checkpoint_codec_round_trip
    (data data0 : CheckpointData) (filename : string) (fs : FileSystem) :
  data_representable data -> can_write fs filename = true ->
  let written := write_json_checkpoint data filename fs in
  fst written = true /\
  read_json_checkpoint data0 filename (snd written) = (true, data).
Proof.
  intros Hrep Hw written. subst written.
  unfold write_json_checkpoint. rewrite Hw. cbn [fst snd].
  split; [reflexivity|].
  apply read_checkpoint_document; [exact Hrep|].
  unfold write_file. cbn [files]. apply lookup_insert_eq.
Qed.

Lemma checkpoint_codec_round_trip_witness :
  read_json_checkpoint CheckpointData_new "cp.json"
    (snd (write_json_checkpoint
            (mkData "1.0.0" 7 10000 1 "0" "100" 2 8 ["A:B"] ["1C"] [false] [3])
            "cp.json" empty_disk))
  = (true, mkData "1.0.0" 7 10000 1 "0" "100" 2 8 ["A:B"] ["1C"] [false] [3]).
Proof.
  apply (checkpoint_codec_round_trip
           (mkData "1.0.0" 7 10000 1 "0" "100" 2 8 ["A:B"] ["1C"] [false] [3])
           CheckpointData_new "cp.json" empty_disk).
  - unfold data_representable. cbn. split_and!; try lia; try reflexivity.
    constructor; [lia | constructor].
  - reflexivity.
Defined.

(** X16.  Whatever the file holds, a successful [read_json_checkpoint] into
    a fresh record yields four vectors of one length, so the consistency
    test of [validate_checkpoint] never rejects: it accepts exactly the
    files that parse with a version that is not empty and a timestamp
    that is not zero. *)
Theorem validate_checkpoint_spec (filename : string) (fs : FileSystem) :
  let r := read_json_checkpoint CheckpointData_new filename fs in
  (fst r = true -> vectors_aligned (snd r)) /\
  validate_checkpoint filename fs =
    (fst r && negb (String.eqb (cp_version (snd r)) "")
           && negb (cp_timestamp (snd r) =? 0))%bool.
Proof.
  intros r.
  assert (Hal : fst r = true -> vectors_aligned (snd r)).
  { subst r. unfold read_json_checkpoint.
    destruct (files fs !! filename) as [[root|]|]; try discriminate.
    destruct (member "version" root ≫= asString) as [v|]; [|discriminate].
    destruct (member "timestamp" root ≫= asUInt64) as [ts|]; [|discriminate].
    destruct (member "total_jumps" root ≫= asUInt64) as [tj|]; [|discriminate].
    destruct (member "distinguished_points_count" root ≫= asUInt64) as [dc|];
      [|discriminate].
    destruct (member "range_start" root ≫= asString) as [rs|]; [|discriminate].
    destruct (member "range_end" root ≫= asString) as [re|]; [|discriminate].
    destruct (member "num_threads" root ≫= asInt) as [nt|]; [|discriminate].
    destruct (member "distinguished_bits" root ≫= asInt) as [db|]; [|discriminate].
    destruct (member "distinguished_points" root) as [arr|]; [|discriminate].
    cbn [mbind option_bind].
    destruct arr; cbn [fst snd]; try (intros _; unfold vectors_aligned; now cbn).
    destruct (read_entries l _) as [d'|] eqn:Hr; [|discriminate].
    intros _. cbn [snd]. eapply read_entries_aligned; [|exact Hr].
    unfold vectors_aligned. now cbn. }
  split; [exact Hal|].
  unfold validate_checkpoint. fold r.
  destruct (files fs !! filename) as [content|] eqn:Hf.
  - destruct (fst r) eqn:Hr; [|reflexivity].
    destruct (Hal eq_refl) as (H1 & H2 & H3).
    rewrite H1, H2, H3, !Nat.eqb_refl. cbn [negb orb andb].
    destruct (String.eqb (cp_version (snd r)) ""); [reflexivity|].
    destruct (cp_timestamp (snd r) =? 0); reflexivity.
  - subst r. unfold read_json_checkpoint. rewrite Hf. reflexivity.
Qed.

(** ** Backups and saved checkpoints *)

Lemma length_string_append (a b : string) :
  String.length (a ++ b)%string = (String.length a + String.length b)%nat.
Proof. induction a as [|c a IH]; [reflexivity | simpl; f_equal; exact IH]. Qed.

(** The backup never has the name of the file it copies. *)
Lemma backup_name_differs wall f : backup_name wall f <> f.
Proof.
  unfold backup_name. intros H. apply (f_equal String.length) in H.
  rewrite !length_string_append in H. cbn in H. lia.
Qed.

(** [backup_checkpoint] leaves the file it copies as it was. *)
Lemma backup_keeps_original wall f fs :
  files (snd (backup_checkpoint wall f fs)) !! f = files fs !! f.
Proof.
  unfold backup_checkpoint. fold (backup_name wall f).
  destruct (files fs !! f) as [content|] eqn:Hf; [|exact Hf].
  destruct (can_write fs (backup_name wall f)); [|exact Hf].
  cbn [snd]. unfold write_file. cbn [files].
  rewrite lookup_insert_ne by apply backup_name_differs. exact Hf.
Qed.

(** X17.  [backup_checkpoint] succeeds exactly when the original exists and
    the backup's path can be written; the backup then holds the content of
    the original, and no other file changes, the original included.  A
    failed call changes nothing. *)
Theorem backup_checkpoint_copies (wall : Z) (f : string) (fs : FileSystem) :
  let r := backup_checkpoint wall f fs in
  (fst r = true <->
     is_Some (files fs !! f) /\ can_write fs (backup_name wall f) = true) /\
  (fst r = true -> files (snd r) !! backup_name wall f = files fs !! f) /\
  (forall g : string, g <> backup_name wall f ->
     files (snd r) !! g = files fs !! g) /\
  files (snd r) !! f = files fs !! f /\
  (fst r = false -> snd r = fs).
Proof.
  cbv zeta. unfold backup_checkpoint. fold (backup_name wall f).
  destruct (files fs !! f) as [content|] eqn:Hf.
  - destruct (can_write fs (backup_name wall f)) eqn:Hw; cbn [fst snd].
    + split_and!.
      * split; [intros _; split; [eexists; reflexivity | reflexivity] | reflexivity].
      * intros _. unfold write_file. cbn [files]. now rewrite lookup_insert_eq.
      * intros g Hg. unfold write_file. cbn [files].
        now rewrite lookup_insert_ne by congruence.
      * unfold write_file. cbn [files].
        rewrite lookup_insert_ne by apply backup_name_differs. exact Hf.
      * discriminate.
    + split_and!; try reflexivity; try discriminate.
      * split; [discriminate | intros [_ H]; discriminate].
      * exact Hf.
  - cbn [fst snd]. split_and!; try reflexivity; try discriminate.
    + split; [discriminate | intros [[c Hc] _]; discriminate].
    + exact Hf.
Qed.

(** What [save_checkpoint] puts into the record it writes. *)
Lemma save_checkpoint_file now wall solver filename fs :
  can_write fs filename = true ->
  save_checkpoint now wall solver filename fs =
    (true,
     snd (backup_checkpoint wall filename
            (write_file filename
               (Some (checkpoint_document
                        (mkData get_checkpoint_version (uint64 wall)
                           (total_jumps solver) (total_distinguished_points solver)
                           (stats_current_range_start (get_stats now solver))
                           (stats_current_range_end (get_stats now solver))
                           (if running solver then num_threads solver else 0)
                           20 [] [] [] []))) fs))).
Proof.
  intros Hw. unfold save_checkpoint, write_json_checkpoint. rewrite Hw.
  reflexivity.
Qed.

(** X18.  A checkpoint saved to a writable path is read back: the save
    succeeds, [load_checkpoint] on the file succeeds, the file validates
    unless the low 64 bits of the clock are zero, and then
    [get_checkpoint_info] reports the counters and the range text of
    [get_stats] at the time of the save, the constant 20 and no table
    entry.  The counters are 64-bit and the thread count an [int] in the
    source. *)
Theorem saved_checkpoint_is_read_back
    (now wall : Z) (solver other : KangarooSolver) (filename : string)
    (fs : FileSystem) :
  can_write fs filename = true ->
  0 <= total_jumps solver < 2 ^ 64 ->
  0 <= total_distinguished_points solver < 2 ^ 64 ->
  - 2 ^ 31 <= num_threads solver < 2 ^ 31 ->
  let saved := save_checkpoint now wall solver filename fs in
  let stats := get_stats now solver in
  fst saved = true /\
  load_checkpoint other filename (snd saved) = (true, other) /\
  validate_checkpoint filename (snd saved) = negb (uint64 wall =? 0) /\
  (uint64 wall <> 0 ->
   get_checkpoint_info filename (snd saved) =
     mkData get_checkpoint_version (uint64 wall)
       (stats_total_jumps stats) (stats_distinguished_points stats)
       (stats_current_range_start stats) (stats_current_range_end stats)
       (stats_threads_active stats) 20 [] [] [] []).
Proof.
  intros Hw Htj Hdp Hnt saved stats. subst saved stats.
  rewrite (save_checkpoint_file now wall solver filename fs Hw). cbn [fst snd].
  set (data := mkData _ _ _ _ _ _ _ _ _ _ _ _).
  set (fs1 := write_file filename (Some (checkpoint_document data)) fs).
  set (fs2 := snd (backup_checkpoint wall filename fs1)).
  assert (Hrep : data_representable data).
  { unfold data_representable, data, uint64. cbn.
    pose proof (Z.mod_pos_bound wall (2 ^ 64) ltac:(lia)).
    split_and!; try lia; try reflexivity; try constructor;
      destruct (running solver); lia. }
  assert (Hfile : files fs2 !! filename = Some (Some (checkpoint_document data))).
  { unfold fs2. rewrite backup_keeps_original. unfold fs1, write_file.
    cbn [files]. now rewrite lookup_insert_eq. }
  assert (Hread : forall d0, read_json_checkpoint d0 filename fs2 = (true, data)).
  { intros d0. now apply read_checkpoint_document. }
  assert (Hval : validate_checkpoint filename fs2 = negb (uint64 wall =? 0)).
  { unfold validate_checkpoint. rewrite Hfile, Hread. cbn [fst snd].
    unfold data. cbn [cp_version cp_timestamp dp_points dp_distances
                      dp_is_tame_flags dp_timestamps].
    destruct (uint64 wall =? 0); reflexivity. }
  split_and!.
  - reflexivity.
  - unfold load_checkpoint. rewrite Hfile, Hread. reflexivity.
  - exact Hval.
  - intros Hne. unfold get_checkpoint_info. rewrite Hval, Hread.
    apply Z.eqb_neq in Hne. rewrite Hne. reflexivity.
Qed.

Lemma saved_checkpoint_is_read_back_witness :
  validate_checkpoint "cp.json"
    (snd (save_checkpoint 5 1700000000 KangarooSolver_new "cp.json" empty_disk))
  = true.
Proof.
  destruct (saved_checkpoint_is_read_back 5 1700000000 KangarooSolver_new
              KangarooSolver_new "cp.json" empty_disk)
    as (_ & _ & H & _).
  - reflexivity.
  - cbn. lia.
  - cbn. lia.
  - cbn. lia.
  - exact H.
Defined.

(** ** The engine's set-up and reports *)

(** X19.  [initialize] succeeds exactly when the key is accepted and the
    range is not empty.  Whatever the outcome it leaves the lifecycle flags,
    the counters, the table, the workers, the solution and the start time
    as they were, so an engine that is running stays running under new
    parameters.  A failed call also keeps the old thread count, mask and
    jump tables, while the target is already overwritten with what
    [hex_to_point] left. *)
Theorem initialize_outcome
    (pubkey_hex range_start_hex range_end_hex : string) (threads dist_bits : Z)
    (s : KangarooSolver) :
  let r := initialize pubkey_hex range_start_hex range_end_hex threads dist_bits s in
  (fst r = true <->
     fst (hex_to_point pubkey_hex (target_point s)) = true /\
     hex_to_bigint range_start_hex < hex_to_bigint range_end_hex) /\
  target_point (snd r) = snd (hex_to_point pubkey_hex (target_point s)) /\
  (running (snd r) = running s /\ solved (snd r) = solved s /\
   total_jumps (snd r) = total_jumps s /\
   total_distinguished_points (snd r) = total_distinguished_points s /\
   total_collisions (snd r) = total_collisions s /\
   distinguished_points (snd r) = distinguished_points s /\
   worker_threads (snd r) = worker_threads s /\
   solution_key (snd r) = solution_key s /\
   start_time (snd r) = start_time s) /\
  (fst r = true ->
     1 <= num_threads (snd r) <= 64 /\ 8 <= distinguished_bits (snd r) <= 32 /\
     (1 <= threads <= 64 -> num_threads (snd r) = threads) /\
     (8 <= dist_bits <= 32 -> distinguished_bits (snd r) = dist_bits)) /\
  (fst r = false ->
     num_threads (snd r) = num_threads s /\
     distinguished_bits (snd r) = distinguished_bits s /\
     distinguished_mask (snd r) = distinguished_mask s /\
     jump_distances (snd r) = jump_distances s /\
     jump_points (snd r) = jump_points s).
Proof.
  cbv zeta. unfold initialize.
  destruct (hex_to_point pubkey_hex (target_point s)) as [ok pt] eqn:Hp.
  cbn [fst snd]. destruct ok; cbn [negb].
  - cbn [range_end range_start set_range_end set_range_start set_target_point].
    destruct (hex_to_bigint range_end_hex <=? hex_to_bigint range_start_hex) eqn:Hr.
    + apply Z.leb_le in Hr. cbn.
      split_and!; try reflexivity; try discriminate;
        try (intros _; split_and!; reflexivity).
      all: split; [discriminate | intros [_ H]; lia].
    + apply Z.leb_gt in Hr. cbn [fst snd]. unfold precompute_jumps. cbn.
      split_and!; try reflexivity; try discriminate; try lia;
        try (intros _; split_and!; lia).
      all: split; [intros _; split; [reflexivity | lia] | reflexivity].
  - cbn.
    split_and!; try reflexivity; try discriminate;
      try (intros _; split_and!; reflexivity).
    all: split; [discriminate | intros [H _]; discriminate].
Qed.

Lemma in_spawned n id : In id (spawned n) <-> 0 <= id < n.
Proof.
  unfold spawned. rewrite in_map_iff. split.
  - intros (k & <- & Hk). apply in_seq in Hk. lia.
  - intros H. exists (Z.to_nat id). split; [lia | apply in_seq; lia].
Qed.

(** X20.  The workers [start] spawns on an engine at rest carry the ids
    [0 .. num_threads - 1], each once; [worker_thread] makes the even ones
    tame and the odd ones wild.  With one thread there is no wild walker
    at all. *)
Theorem start_spawns_alternating (now : Z) (s : KangarooSolver) :
  running s = false ->
  let ids := worker_threads (snd (start now s)) in
  List.NoDup ids /\
  (forall id : Z, In id ids <-> 0 <= id < num_threads s) /\
  (forall id : Z, In id ids -> worker_is_tame id = Z.even id) /\
  (num_threads s <= 1 -> Forall (fun id => worker_is_tame id = true) ids).
Proof.
  intros Hr ids.
  assert (Hids : ids = spawned (num_threads s)).
  { subst ids. unfold start. rewrite Hr. reflexivity. }
  rewrite Hids. split_and!.
  - unfold spawned. apply Finite.Injective_map_NoDup; [|apply List.seq_NoDup].
    intros a b Hab. lia.
  - apply in_spawned.
  - intros id Hin. apply in_spawned in Hin. unfold worker_is_tame.
    rewrite Z.rem_mod_nonneg by lia.
    rewrite Zeven_mod. reflexivity.
  - intros Hn. apply List.Forall_forall. intros id Hin. apply in_spawned in Hin.
    assert (id = 0) as -> by lia. reflexivity.
Qed.

Lemma start_spawns_alternating_witness :
  Forall (fun id => worker_is_tame id = true)
    (worker_threads (snd (start 0 KangarooSolver_new))).
Proof.
  apply (start_spawns_alternating 0 KangarooSolver_new eq_refl). cbn. lia.
Defined.

Lemma size_hex_le_64 a : 0 <= a < 2 ^ 256 -> (size (bigint_to_hex a) <= 64)%nat.
Proof.
  intros Ha. rewrite size_bigint_to_hex by lia.
  destruct (hex_digits_ok a ltac:(lia)) as (_ & _ & _ & Hlen & _).
  destruct (Nat.le_gt_cases (List.length (hex_digits a)) 64) as [H|H]; [exact H|].
  apply Hlen in H. destruct H as [H|H]; [discriminate|].
  change (16 ^ Z.of_nat 64) with (2 ^ 256) in H. lia.
Qed.

Lemma strncpy64_hex a : 0 <= a < 2 ^ 256 -> strncpy64 (bigint_to_hex a) = bigint_to_hex a.
Proof.
  intros Ha. unfold strncpy64.
  pose proof (size_hex_le_64 a Ha) as Hs. unfold size in Hs.
  rewrite chars_bigint_to_hex_nonneg in * by lia.
  destruct (hex_digits_ok a ltac:(lia)) as (Hd & _).
  rewrite c_str_digits by exact Hd.
  rewrite take_ge by lia.
  rewrite <- chars_bigint_to_hex_nonneg by lia. apply str_chars.
Qed.

(** X21.  [get_stats] reports the range bounds and, once solved, the key as
    the text of [bigint_to_hex], which [hex_to_bigint] reads back to the
    engine's numbers, as long as they fit the 64 characters of the
    buffers; the key field stays empty until [solved] is set, and no
    thread is reported active on an engine at rest. *)
Theorem get_stats_reports (now : Z) (s : KangarooSolver) :
  0 <= range_start s < 2 ^ 256 -> 0 <= range_end s < 2 ^ 256 ->
  let stats := get_stats now s in
  hex_to_bigint (stats_current_range_start stats) = range_start s /\
  hex_to_bigint (stats_current_range_end stats) = range_end s /\
  (solved s = true -> 0 <= solution_key s < 2 ^ 256 ->
     hex_to_bigint (stats_found_key stats) = solution_key s) /\
  (solved s = false -> stats_found_key stats = ""%string) /\
  stats_is_solved stats = solved s /\
  (running s = false -> stats_threads_active stats = 0) /\
  (running s = true -> stats_threads_active stats = num_threads s).
Proof.
  intros Hs He stats. subst stats. unfold get_stats.
  cbn [stats_current_range_start stats_current_range_end stats_found_key
       stats_is_solved stats_threads_active].
  rewrite !strncpy64_hex by assumption. rewrite !hex_to_bigint_to_hex.
  split_and!; try reflexivity.
  - intros -> Hk. now rewrite strncpy64_hex, hex_to_bigint_to_hex.
  - now intros ->.
  - now intros ->.
  - now intros ->.
Qed.

Lemma get_stats_reports_witness :
  hex_to_bigint (stats_current_range_end
                   (get_stats 0 (set_range_end 256 KangarooSolver_new))) = 256.
Proof.
  destruct (get_stats_reports 0 (set_range_end 256 KangarooSolver_new))
    as (_ & H & _).
  - cbn. lia.
  - cbn. lia.
  - exact H.
Defined.

(** ** Scalar multiplication *)

Lemma point_double_infinite p :
  is_infinity (point_double p) = true -> is_infinity p = false ->
  point_double p = ECPoint_infinity.
Proof.
  unfold point_double. intros H Hp. rewrite Hp in *.
  destruct (bigint_compare (y p) bigint_zero =? 0); [reflexivity | discriminate].
Qed.

Lemma multiply_loop_infinity k :
  multiply_loop k ECPoint_infinity ECPoint_infinity = ECPoint_infinity.
Proof. induction k as [k IH|k IH|]; cbn; [exact IH | exact IH | reflexivity]. Qed.

(** X22.  [point_multiply] gives the point at infinity for every scalar
    that is not positive, gives an infinite point back unchanged, and
    doubling a positive scalar amounts to doubling the point first. *)
Theorem point_multiply_scalar_laws (k : BigInt) (p : ECPoint) :
  (k <= 0 -> is_infinity (point_multiply k p) = true) /\
  (is_infinity p = true -> point_multiply k p = p) /\
  (0 < k -> point_multiply (2 * k) p = point_multiply k (point_double p)).
Proof.
  split_and!.
  - intros Hk. unfold point_multiply. destruct (is_infinity p) eqn:Hp; [exact Hp|].
    destruct k; try reflexivity. lia.
  - intros Hp. unfold point_multiply. now rewrite Hp.
  - intros Hk. destruct k as [|k|k]; try lia.
    change (2 * Z.pos k) with (Z.pos (xO k)). unfold point_multiply.
    destruct (is_infinity p) eqn:Hp.
    + unfold point_double. now rewrite Hp, Hp.
    + cbn [multiply_loop].
      destruct (is_infinity (point_double p)) eqn:Hd; [|reflexivity].
      rewrite (point_double_infinite p Hd Hp). apply multiply_loop_infinity.
Qed.

(** ** The modular inverse *)

Lemma gcd_odd_2 m : Z.odd m = true -> Z.gcd m 2 = 1.
Proof.
  intros Hm. rewrite Z.gcd_comm, <- Z.gcd_mod_r.
  rewrite Zmod_odd, Hm. reflexivity.
Qed.

Lemma even_double u : Z.even u = true -> u = 2 * Z.div2 u.
Proof.
  intros H. pose proof (Z.div2_odd u) as E.
  rewrite <- Z.negb_even, H in E. cbn in E. lia.
Qed.

Lemma odd_double u : Z.even u = false -> u = 2 * Z.div2 u + 1.
Proof.
  intros H. pose proof (Z.div2_odd u) as E.
  rewrite <- Z.negb_even, H in E. cbn in E. lia.
Qed.

Lemma half_mod_spec m t :
  Z.odd m = true -> 0 <= t < m ->
  0 <= half_mod m t < m /\ (m | 2 * half_mod m t - t).
Proof.
  intros Hm Ht. unfold half_mod. destruct (Z.even t) eqn:He.
  - pose proof (even_double t He). split; [lia|].
    exists 0. lia.
  - assert (Z.even (t + m) = true) as He'.
    { rewrite Z.even_add, He, <- Z.negb_odd, Hm. reflexivity. }
    pose proof (even_double _ He'). split; [lia|].
    exists 1. lia.
Qed.

Lemma sub_mod_spec m s t :
  0 <= s < m -> 0 <= t < m ->
  0 <= sub_mod m s t < m /\ (m | sub_mod m s t - (s - t)).
Proof.
  intros Hs Ht. unfold sub_mod. destruct (s <? t) eqn:E.
  - apply Z.ltb_lt in E. split; [lia|]. exists 1. lia.
  - apply Z.ltb_ge in E. split; [lia|]. exists 0. lia.
Qed.

(** Halving both sides of a congruence modulo an odd number. *)
Lemma halve_congruence m a h x u :
  Z.odd m = true -> (m | 2 * h - x) -> (m | a * x - 2 * u) -> (m | a * h - u).
Proof.
  intros Hm Hh Hx. apply (Z.gauss m 2); [|now apply gcd_odd_2].
  replace (2 * (a * h - u)) with (a * (2 * h - x) + (a * x - 2 * u)) by ring.
  apply Z.divide_add_r; [now apply Z.divide_mul_r | exact Hx].
Qed.

Lemma binary_egcd_sound m a :
  Z.odd m = true -> 1 < m ->
  forall fuel u v x1 x2 r,
    0 <= x1 < m -> 0 <= x2 < m ->
    (m | a * x1 - u) -> (m | a * x2 - v) ->
    binary_egcd fuel m u v x1 x2 = Some r ->
    0 <= r < m /\ (m | a * r - 1).
Proof.
  intros Hm Hm1. induction fuel as [|fuel IH]; intros u v x1 x2 r H1 H2 Hu Hv H.
  - discriminate.
  - cbn [binary_egcd] in H.
    destruct (u =? 0) eqn:Eu.
    { destruct (v =? 1) eqn:Ev; [|discriminate].
      apply Z.eqb_eq in Ev. injection H as <-. subst v. now split. }
    destruct (Z.even u) eqn:Eeu.
    { destruct (half_mod_spec m x1 Hm H1) as [Hr Hd].
      apply (IH (Z.div2 u) v _ x2 r Hr H2); [|exact Hv|exact H].
      apply (halve_congruence m a _ x1 _ Hm Hd).
      now rewrite <- (even_double u Eeu). }
    destruct (Z.even v) eqn:Eev.
    { destruct (half_mod_spec m x2 Hm H2) as [Hr Hd].
      apply (IH u (Z.div2 v) x1 _ r H1 Hr); [exact Hu| |exact H].
      apply (halve_congruence m a _ x2 _ Hm Hd).
      now rewrite <- (even_double v Eev). }
    destruct (v <=? u) eqn:Evu.
    + destruct (sub_mod_spec m x1 x2 H1 H2) as [Hr Hd].
      apply (IH (u - v) v _ x2 r Hr H2); [|exact Hv|exact H].
      replace (a * sub_mod m x1 x2 - (u - v))
        with (a * (sub_mod m x1 x2 - (x1 - x2)) + ((a * x1 - u) - (a * x2 - v)))
        by ring.
      apply Z.divide_add_r; [now apply Z.divide_mul_r|].
      now apply Z.divide_sub_r.
    + destruct (sub_mod_spec m x2 x1 H2 H1) as [Hr Hd].
      apply (IH u (v - u) x1 _ r H1 Hr); [exact Hu| |exact H].
      replace (a * sub_mod m x2 x1 - (v - u))
        with (a * (sub_mod m x2 x1 - (x2 - x1)) + ((a * x2 - v) - (a * x1 - u)))
        by ring.
      apply Z.divide_add_r; [now apply Z.divide_mul_r|].
      now apply Z.divide_sub_r.
Qed.

(** A common divisor of [u'] and [v'] that divides [u] and [v] is 1 when
    those are coprime. *)
Lemma gcd_1_of_divides u v u' v' :
  Z.gcd u v = 1 -> (Z.gcd u' v' | u) -> (Z.gcd u' v' | v) -> Z.gcd u' v' = 1.
Proof.
  intros H Hu Hv. pose proof (Z.gcd_greatest u v _ Hu Hv) as Hd.
  rewrite H in Hd. apply Z.divide_1_r_nonneg in Hd; [exact Hd | apply Z.gcd_nonneg].
Qed.

Lemma pow2_half bu u : 0 <= bu -> 0 < u -> 2 * u < 2 ^ bu -> 1 <= bu /\ u < 2 ^ (bu - 1).
Proof.
  intros Hb Hu H. assert (bu <> 0) by (intros ->; cbn in H; lia).
  split; [lia|]. replace bu with (Z.succ (bu - 1)) in H by lia.
  rewrite Z.pow_succ_r in H by lia. lia.
Qed.

(** The binary method ends with an answer on coprime arguments, within
    two turns for every bit of the two numbers. *)
Lemma binary_egcd_complete m :
  forall fuel u v x1 x2 bu bv,
    0 <= u < 2 ^ bu -> 0 < v < 2 ^ bv -> 0 <= bu -> 0 <= bv ->
    Z.gcd u v = 1 ->
    2 * (bu + bv) + (if (Z.even u || Z.even v)%bool then 0 else 1) < Z.of_nat fuel ->
    exists r, binary_egcd fuel m u v x1 x2 = Some r.
Proof.
  induction fuel as [|fuel IH]; intros u v x1 x2 bu bv Hu Hv Hbu Hbv Hg Hf.
  - destruct (Z.even u || Z.even v)%bool; lia.
  - cbn [binary_egcd]. destruct (u =? 0) eqn:Eu.
    { apply Z.eqb_eq in Eu. subst u. rewrite Z.gcd_0_l, Z.abs_eq in Hg by lia.
      subst v. eexists; reflexivity. }
    apply Z.eqb_neq in Eu.
    destruct (Z.even u) eqn:Eeu.
    { pose proof (even_double u Eeu) as E2.
      destruct (pow2_half bu (Z.div2 u)) as [Hb1 Hlt]; try lia.
      apply (IH _ _ _ _ (bu - 1) bv); try lia.
      - apply (gcd_1_of_divides u v); [exact Hg| |apply Z.gcd_divide_r].
        rewrite E2 at 2. apply Z.divide_mul_r, Z.gcd_divide_l.
      - cbn [orb] in Hf.
        destruct (Z.even (Z.div2 u) || Z.even v)%bool; lia. }
    destruct (Z.even v) eqn:Eev.
    { pose proof (even_double v Eev) as E2.
      destruct (pow2_half bv (Z.div2 v)) as [Hb1 Hlt]; try lia.
      apply (IH _ _ _ _ bu (bv - 1)); try lia.
      - apply (gcd_1_of_divides u v); [exact Hg|apply Z.gcd_divide_l|].
        rewrite E2 at 2. apply Z.divide_mul_r, Z.gcd_divide_r.
      - cbn [orb] in Hf. rewrite Eeu. cbn [orb].
        destruct (Z.even (Z.div2 v)); lia. }
    cbn [orb] in Hf.
    destruct (v <=? u) eqn:Evu.
    + apply Z.leb_le in Evu.
      assert (Z.even (u - v) = true) as He.
      { rewrite Z.even_sub, Eeu, Eev. reflexivity. }
      apply (IH _ _ _ _ bu bv); try lia.
      * apply (gcd_1_of_divides u v); [exact Hg| |apply Z.gcd_divide_r].
        replace u with ((u - v) + v) at 2 by ring.
        apply Z.divide_add_r; [apply Z.gcd_divide_l | apply Z.gcd_divide_r].
      * rewrite He. cbn [orb]. lia.
    + apply Z.leb_gt in Evu.
      assert (Z.even (v - u) = true) as He.
      { rewrite Z.even_sub, Eeu, Eev. reflexivity. }
      apply (IH _ _ _ _ bu bv); try lia.
      * apply (gcd_1_of_divides u v); [exact Hg|apply Z.gcd_divide_l|].
        replace v with ((v - u) + u) at 2 by ring.
        apply Z.divide_add_r; [apply Z.gcd_divide_r | apply Z.gcd_divide_l].
      * rewrite He, orb_true_r. lia.
Qed.

(** [mpz_invert] on an odd modulus: the inverse when there is one, zero
    exactly when the arguments have a common factor. *)
Lemma mpz_invert_odd a m :
  Z.odd m = true -> 1 < m ->
  match mpz_invert a m with
  | Some r => 0 < r < m /\ (a * r) mod m = 1 /\ Z.gcd a m = 1
  | None => Z.gcd a m <> 1
  end.
Proof.
  intros Hm Hm1. unfold mpz_invert.
  rewrite Z.abs_eq by lia.
  assert ((m =? 1) = false) as -> by (apply Z.eqb_neq; lia).
  rewrite Hm.
  set (fuel := (4 * Z.to_nat (Z.log2 m) + 8)%nat).
  pose proof (Z.mod_pos_bound a m ltac:(lia)) as Ham.
  destruct (binary_egcd fuel m (a mod m) m 1 0) as [r|] eqn:Hr.
  - assert (m | a * 1 - a mod m) as Hu.
    { exists (a / m). pose proof (Z.div_mod a m ltac:(lia)). lia. }
    assert (m | a * 0 - m) as Hv by (exists (- 1); lia).
    destruct (binary_egcd_sound m a Hm Hm1 fuel (a mod m) m 1 0 r
                ltac:(lia) ltac:(lia) Hu Hv Hr) as [Hrange [k Hk]].
    assert ((a * r) mod m = 1) as Hinv.
    { replace (a * r) with (1 + k * m) by lia.
      rewrite Z.mod_add by lia. apply Z.mod_small. lia. }
    assert (r <> 0) as Hnz.
    { intros ->. rewrite Z.mul_0_r, Z.mod_0_l in Hinv by lia. discriminate. }
    split; [lia|]. split; [exact Hinv|].
    assert (Z.gcd a m | 1) as Hd.
    { replace 1 with (a * r - k * m) by lia.
      apply Z.divide_sub_r.
      - apply Z.divide_mul_l, Z.gcd_divide_l.
      - apply Z.divide_mul_r, Z.gcd_divide_r. }
    apply Z.divide_1_r_nonneg in Hd; [exact Hd | apply Z.gcd_nonneg].
  - intros Hg.
    destruct (binary_egcd_complete m fuel (a mod m) m 1 0
                (Z.log2 m + 1) (Z.log2 m + 1)) as [r' Hr'].
    + pose proof (Z.log2_spec m ltac:(lia)). rewrite Z.add_1_r. lia.
    + pose proof (Z.log2_spec m ltac:(lia)). rewrite Z.add_1_r. lia.
    + pose proof (Z.log2_nonneg m). lia.
    + pose proof (Z.log2_nonneg m). lia.
    + rewrite Z.gcd_mod_l. exact Hg.
    + pose proof (Z.log2_nonneg m). unfold fuel.
      destruct (Z.even (a mod m) || Z.even m)%bool; lia.
    + congruence.
Qed.

(** X23.  For an odd modulus [m > 1], [bigint_mod_inverse] returns a number
    of [[0, m)] that is not zero exactly when [a] and [m] are coprime, and
    is then the inverse of [a]: the zero it returns otherwise cannot be
    mistaken for one. *)
Theorem bigint_mod_inverse_odd (a m : BigInt) :
  Z.odd m = true -> 1 < m ->
  let r := bigint_mod_inverse a m in
  0 <= r < m /\
  (r <> 0 <-> Z.gcd a m = 1) /\
  (Z.gcd a m = 1 -> (a * r) mod m = 1).
Proof.
  intros Hm Hm1 r. subst r. unfold bigint_mod_inverse.
  pose proof (mpz_invert_odd a m Hm Hm1) as H.
  destruct (mpz_invert a m) as [r|].
  - destruct H as (H1 & H2 & H3). split; [lia|]. split; [|intros _; exact H2].
    split; [intros _; exact H3 | lia].
  - split; [lia|]. split; [|tauto]. split; [intros Hz; now elim Hz | tauto].
Qed.

Lemma bigint_mod_inverse_odd_witness :
  (3 * bigint_mod_inverse 3 SECP256K1_P) mod SECP256K1_P = 1.
Proof.
  destruct (bigint_mod_inverse_odd 3 SECP256K1_P) as (_ & _ & H).
  - reflexivity.
  - reflexivity.
  - apply H. reflexivity.
Defined.

(** ** The curve equation *)

#[local] Existing Instances eqm_setoid Zplus_eqm Zminus_eqm Zmult_eqm Zopp_eqm.

Lemma eqm_of_diff N a b : eqm N (a - b) 0 -> eqm N a b.
Proof.
  intros H. replace a with ((a - b) + b) by ring. rewrite H. reflexivity.
Qed.

(** The chord through two points of [y^2 = x^3 + 7] with distinct,
    invertible abscissa difference meets the curve again at [(x3, -y3)]. *)
Lemma chord_meets_curve N x1 y1 x2 y2 i s x3 y3 :
  eqm N (y1 * y1) (x1 * x1 * x1 + 7) ->
  eqm N (y2 * y2) (x2 * x2 * x2 + 7) ->
  eqm N ((x2 - x1) * i) 1 ->
  eqm N s ((y2 - y1) * i) ->
  eqm N x3 (s * s - x1 - x2) ->
  eqm N y3 (s * (x1 - x3) - y1) ->
  eqm N (y3 * y3) (x3 * x3 * x3 + 7).
Proof.
  intros H1 H2 Hi Hs Hx Hy. rewrite Hy, Hx. clear Hx Hy x3 y3.
  assert (Hsd : eqm N (s * (x2 - x1)) (y2 - y1)).
  { rewrite Hs. replace ((y2 - y1) * i * (x2 - x1)) with ((y2 - y1) * ((x2 - x1) * i))
      by ring. rewrite Hi. now rewrite Z.mul_1_r. }
  clear Hs.
  set (X := s * s - x1 - x2).
  set (G := x2 * x2 + x2 * x1 + x1 * x1 - s * s * (x2 - x1) - 2 * s * y1).
  assert (HG : eqm N G 0).
  { replace G with (G * 1) by ring. rewrite <- Hi.
    replace (G * ((x2 - x1) * i))
      with (((x2 * x2 * x2 + 7 - (s * (x2 - x1) + y1) * (s * (x2 - x1) + y1))
             - (x1 * x1 * x1 + 7 - y1 * y1)) * i) by (unfold G; ring).
    rewrite Hsd. replace (y2 - y1 + y1) with y2 by ring.
    rewrite H1, H2.
    replace ((x2 * x2 * x2 + 7 - (x2 * x2 * x2 + 7)
              - (x1 * x1 * x1 + 7 - (x1 * x1 * x1 + 7))) * i) with 0 by ring.
    reflexivity. }
  symmetry. apply eqm_of_diff.
  replace (X * X * X + 7 - (s * (x1 - X) - y1) * (s * (x1 - X) - y1))
    with ((x1 * x1 * x1 + 7 - y1 * y1) + (X - x1) * G) by (unfold G, X; ring).
  rewrite HG, H1.
  replace (x1 * x1 * x1 + 7 - (x1 * x1 * x1 + 7) + (X - x1) * 0) with 0 by ring.
  reflexivity.
Qed.

(** The tangent at a point of the curve whose doubled ordinate is
    invertible meets the curve again at [(x3, -y3)]. *)
Lemma tangent_meets_curve N x1 y1 i s x3 y3 :
  eqm N (y1 * y1) (x1 * x1 * x1 + 7) ->
  eqm N (2 * y1 * i) 1 ->
  eqm N s (3 * (x1 * x1) * i) ->
  eqm N x3 (s * s - 2 * x1) ->
  eqm N y3 (s * (x1 - x3) - y1) ->
  eqm N (y3 * y3) (x3 * x3 * x3 + 7).
Proof.
  intros H1 Hi Hs Hx Hy. rewrite Hy, Hx. clear Hx Hy x3 y3.
  set (X := s * s - 2 * x1).
  set (G := 3 * (x1 * x1) - 2 * s * y1).
  assert (HG : eqm N G 0).
  { unfold G. rewrite Hs.
    replace (3 * (x1 * x1) - 2 * (3 * (x1 * x1) * i) * y1)
      with (3 * (x1 * x1) * (1 - 2 * y1 * i)) by ring.
    rewrite Hi. replace (3 * (x1 * x1) * (1 - 1)) with 0 by ring. reflexivity. }
  symmetry. apply eqm_of_diff.
  replace (X * X * X + 7 - (s * (x1 - X) - y1) * (s * (x1 - X) - y1))
    with ((x1 * x1 * x1 + 7 - y1 * y1) + (X - x1) * G) by (unfold G, X; ring).
  rewrite HG, H1.
  replace (x1 * x1 * x1 + 7 - (x1 * x1 * x1 + 7) + (X - x1) * 0) with 0 by ring.
  reflexivity.
Qed.

Lemma on_curve_eqm p :
  is_infinity p = false ->
  point_is_on_curve p = true <->
  eqm SECP256K1_P (y p * y p) (x p * x p * x p + 7).
Proof.
  intros Hp. unfold point_is_on_curve. rewrite Hp, bigint_compare_eq.
  unfold bigint_mod, bigint_multiply, bigint_add, SECP256K1_B, bigint_from_int.
  change (Z.abs SECP256K1_P) with SECP256K1_P.
  rewrite Z.add_mod_idemp_l by discriminate.
  unfold eqm. apply Z.eqb_eq.
Qed.

Lemma inverse_mod_P a :
  Z.gcd a SECP256K1_P = 1 ->
  eqm SECP256K1_P (a * bigint_mod_inverse a SECP256K1_P) 1.
Proof.
  intros Hg. unfold bigint_mod_inverse.
  pose proof (mpz_invert_odd a SECP256K1_P eq_refl eq_refl) as H.
  destruct (mpz_invert a SECP256K1_P) as [r|]; [|contradiction].
  destruct H as (_ & H & _). unfold eqm. rewrite H. reflexivity.
Qed.

(** X24.  [point_double] keeps a point on the curve [y^2 = x^3 + 7]
    whenever its doubled ordinate is coprime to the field modulus (as
    every ordinate but zero is, the modulus being prime). *)
Theorem point_double_on_curve (p : ECPoint) :
  point_is_on_curve p = true ->
  Z.gcd (2 * y p) SECP256K1_P = 1 ->
  point_is_on_curve (point_double p) = true.
Proof.
  intros Hon Hg. unfold point_double.
  destruct (is_infinity p) eqn:Hp; [exact Hon|].
  destruct (bigint_compare (y p) bigint_zero =? 0); [reflexivity|].
  apply on_curve_eqm; [reflexivity|].
  apply (on_curve_eqm p Hp) in Hon.
  cbv zeta. unfold ECPoint_xy. cbn [x y].
  unfold bigint_mod, bigint_multiply, bigint_subtract, bigint_from_int.
  change (Z.abs SECP256K1_P) with SECP256K1_P.
  set (i := bigint_mod_inverse ((2 * y p) mod SECP256K1_P) SECP256K1_P).
  assert (Hi : eqm SECP256K1_P (2 * y p * i) 1).
  { rewrite <- (Zmod_eqm SECP256K1_P (2 * y p)). apply inverse_mod_P.
    rewrite Z.gcd_mod_l. exact Hg. }
  apply (tangent_meets_curve SECP256K1_P (x p) (y p) i
           (((3 * ((x p * x p) mod SECP256K1_P)) mod SECP256K1_P * i)
              mod SECP256K1_P)); try assumption.
  - now rewrite !Zmod_eqm.
  - now rewrite !Zmod_eqm.
  - now rewrite !Zmod_eqm.
Qed.

Lemma point_double_on_curve_witness :
  point_is_on_curve (point_double SECP256K1_G) = true.
Proof.
  apply (point_double_on_curve SECP256K1_G).
  - vm_compute. reflexivity.
  - vm_compute. reflexivity.
Defined.

(** X25.  [point_add] keeps two points of the curve on the curve whenever
    the difference of their abscissas is coprime to the field modulus (as
    every difference of distinct reduced abscissas is, the modulus being
    prime); an infinite operand gives the other one back. *)
Theorem point_add_on_curve (p1 p2 : ECPoint) :
  point_is_on_curve p1 = true -> point_is_on_curve p2 = true ->
  Z.gcd (x p2 - x p1) SECP256K1_P = 1 ->
  point_is_on_curve (point_add p1 p2) = true.
Proof.
  intros Hon1 Hon2 Hg. unfold point_add.
  destruct (is_infinity p1) eqn:Hp1; [exact Hon2|].
  destruct (is_infinity p2) eqn:Hp2; [exact Hon1|].
  rewrite bigint_compare_eq.
  destruct (Z.eqb_spec (x p1) (x p2)) as [Heq|Hne].
  { exfalso. rewrite Heq, Z.sub_diag, Z.gcd_0_l in Hg. discriminate. }
  apply on_curve_eqm; [reflexivity|].
  apply (on_curve_eqm p1 Hp1) in Hon1. apply (on_curve_eqm p2 Hp2) in Hon2.
  cbv zeta. unfold ECPoint_xy. cbn [x y].
  unfold bigint_mod, bigint_multiply, bigint_subtract.
  change (Z.abs SECP256K1_P) with SECP256K1_P.
  set (i := bigint_mod_inverse (x p2 - x p1) SECP256K1_P).
  apply (chord_meets_curve SECP256K1_P (x p1) (y p1) (x p2) (y p2) i
           (((y p2 - y p1) * i) mod SECP256K1_P)); try assumption.
  - now apply inverse_mod_P.
  - now rewrite Zmod_eqm.
  - now rewrite !Zmod_eqm.
  - now rewrite !Zmod_eqm.
Qed.

Lemma point_add_on_curve_witness :
  point_is_on_curve (point_add SECP256K1_G point_118) = true.
Proof.
  apply (point_add_on_curve SECP256K1_G point_118).
  - vm_compute. reflexivity.
  - vm_compute. reflexivity.
  - vm_compute. reflexivity.
Defined.

(** ** The jump table and the walkers *)

(** X26.  After a successful [initialize] the 256 jump distances are the
    consecutive numbers [2^b + 1 .. 2^b + 256] for one [b >= 1]: each is
    at least 3, each the one before plus one, no two alike.  So the
    distance of a walker grows with every jump, as the restart test of
    the tame walker takes for granted. *)
Theorem jump_distances_ascending pubkey rs re threads bits s0 st :
  initialize pubkey rs re threads bits s0 = (true, st) ->
  Forall (fun d => 3 <= d) (jump_distances st) /\
  (forall (i : nat) (d : BigInt),
     jump_distances st !! S i = Some d -> jump_distances st !! i = Some (d - 1)) /\
  List.NoDup (jump_distances st).
Proof.
  intros Hinit.
  destruct (jump_tables_of_initialize _ _ _ _ _ _ _ Hinit) as [Hd _].
  cbv zeta in Hd. set (b := Z.max 1 _) in Hd. rewrite Hd. clear Hd.
  assert (Hb : 2 <= 2 ^ b).
  { change 2 with (2 ^ 1) at 1. apply Z.pow_le_mono_r; lia. }
  split_and!.
  - apply List.Forall_forall. intros d Hin. apply in_map_iff in Hin.
    destruct Hin as (j & <- & _). unfold jump_distance_at, bigint_add,
      bigint_shift_left, bigint_one, bigint_from_int.
    rewrite Z.shiftl_1_l. lia.
  - intros i d Hl.
    assert (Hlt : (S i < num_jumps)%nat).
    { apply lookup_lt_Some in Hl. now rewrite length_map, length_seq in Hl. }
    rewrite lookup_map_seq in Hl by exact Hlt. injection Hl as <-.
    rewrite lookup_map_seq by lia. f_equal.
    unfold jump_distance_at, bigint_add, bigint_from_int. lia.
  - apply Finite.Injective_map_NoDup; [|apply List.seq_NoDup].
    intros j k Hjk. unfold jump_distance_at, bigint_add, bigint_from_int in Hjk. lia.
Qed.

Lemma jump_distances_ascending_witness :
  Forall (fun d => 3 <= d) (jump_distances engine_90).
Proof.
  apply (jump_distances_ascending pubkey_90 "0" "100" 2 8 KangarooSolver_new engine_90
           engine_90_initialized).
Defined.

(** ** Addition does not depend on the order of its operands *)

Lemma eqm_mod_eq N a b : eqm N a b -> a mod N = b mod N.
Proof. intros H. exact H. Qed.

(** The slope of the chord is the same from either end. *)
Lemma chord_slope_symmetric N dx dy i1 i2 :
  eqm N (dx * i1) 1 -> eqm N (- dx * i2) 1 ->
  eqm N (dy * i1) (- dy * i2).
Proof.
  intros H1 H2.
  replace (dy * i1) with (dy * i1 * 1) by ring. rewrite <- H2.
  replace (dy * i1 * (- dx * i2)) with (- dy * i2 * (dx * i1)) by ring.
  rewrite H1. now rewrite Z.mul_1_r.
Qed.

(** X27.  [point_add] gives the same point whichever operand comes
    first, for two finite points whose abscissas differ by a number
    coprime to the field modulus. *)
Theorem point_add_commutes (p1 p2 : ECPoint) :
  is_infinity p1 = false -> is_infinity p2 = false ->
  Z.gcd (x p2 - x p1) SECP256K1_P = 1 ->
  point_add p1 p2 = point_add p2 p1.
Proof.
  intros Hp1 Hp2 Hg. unfold point_add. rewrite Hp1, Hp2, !bigint_compare_eq.
  assert (Hne : x p1 <> x p2).
  { intros Heq. rewrite Heq, Z.sub_diag, Z.gcd_0_l in Hg. discriminate. }
  assert ((x p1 =? x p2) = false) as -> by now apply Z.eqb_neq.
  assert ((x p2 =? x p1) = false) as -> by (apply Z.eqb_neq; congruence).
  cbv zeta. unfold ECPoint_xy, bigint_mod, bigint_multiply, bigint_subtract.
  change (Z.abs SECP256K1_P) with SECP256K1_P.
  set (i1 := bigint_mod_inverse (x p2 - x p1) SECP256K1_P).
  set (i2 := bigint_mod_inverse (x p1 - x p2) SECP256K1_P).
  assert (H1 : eqm SECP256K1_P ((x p2 - x p1) * i1) 1) by now apply inverse_mod_P.
  assert (H2 : eqm SECP256K1_P (- (x p2 - x p1) * i2) 1).
  { replace (- (x p2 - x p1)) with (x p1 - x p2) by ring. apply inverse_mod_P.
    replace (x p1 - x p2) with (- (x p2 - x p1)) by ring.
    now rewrite Z.gcd_opp_l. }
  assert (Hs : ((y p2 - y p1) * i1) mod SECP256K1_P =
               ((y p1 - y p2) * i2) mod SECP256K1_P).
  { apply eqm_mod_eq.
    replace (y p1 - y p2) with (- (y p2 - y p1)) by ring.
    now apply (chord_slope_symmetric SECP256K1_P (x p2 - x p1)). }
  rewrite <- Hs. set (s := ((y p2 - y p1) * i1) mod SECP256K1_P).
  assert (Hsd : eqm SECP256K1_P (s * (x p2 - x p1)) (y p2 - y p1)).
  { unfold s. rewrite Zmod_eqm.
    replace ((y p2 - y p1) * i1 * (x p2 - x p1))
      with ((y p2 - y p1) * ((x p2 - x p1) * i1)) by ring.
    rewrite H1. now rewrite Z.mul_1_r. }
  assert (Hx : ((s * s) mod SECP256K1_P - x p1 - x p2) mod SECP256K1_P =
               ((s * s) mod SECP256K1_P - x p2 - x p1) mod SECP256K1_P).
  { f_equal. ring. }
  rewrite <- Hx. set (x3 := ((s * s) mod SECP256K1_P - x p1 - x p2) mod SECP256K1_P).
  f_equal. apply eqm_mod_eq. apply eqm_of_diff.
  replace (s * (x p1 - x3) - y p1 - (s * (x p2 - x3) - y p2))
    with ((y p2 - y p1) - s * (x p2 - x p1)) by ring.
  rewrite Hsd. now rewrite Z.sub_diag.
Qed.

Lemma point_add_commutes_witness :
  point_add SECP256K1_G point_118 = point_add point_118 SECP256K1_G.
Proof.
  apply (point_add_commutes SECP256K1_G point_118).
  - reflexivity.
  - reflexivity.
  - vm_compute. reflexivity.
Defined.
